(** * OpenBP core: branch-and-price search tree, nodes and node selectors

    A shallow embedding of [src/core/node.hpp], [src/core/node_pool.hpp],
    [src/core/tree.hpp] and [src/core/selection.hpp], and the properties of
    the specification checked against it.

    Conventions of the embedding:
    - [double] is Rocq's primitive binary64 float, the same IEEE-754 format
      and rounding as the C++ [double]; comparisons are the IEEE ones, so
      [a >= b] is [b <=? a] and every comparison with a NaN is false.
    - [int64_t] and [int32_t] values are [Z].  Signed overflow is undefined
      behaviour in C++; the model is the program below that range.
    - A [BPNode*] is the key under which the tree registered the node in
      [nodes_] (the pool never frees a slot and every slot is registered
      once, under the identifier it was created with), [nullptr] is [None].
      Dereferencing a handle that names no node makes a tree operation
      return [None]. *)

From Stdlib Require Import ZArith Floats Uint63 Sorted.
From stdpp Require Import base option list gmap fin_maps strings.

Set Warnings "-inexact-float".
#[local] Set Default Proof Using "Type".

Local Open Scope Z_scope.

(** ** Doubles *)

Module Double.

Definition double := float.

(** [std::numeric_limits<double>::infinity()] *)
Definition INF : double := infinity.
Definition NEG_INF : double := neg_infinity.

(** The C++ comparison operators on [double]. *)
Definition lt (a b : double) : bool := PrimFloat.ltb a b.
Definition gt (a b : double) : bool := PrimFloat.ltb b a.
Definition ge (a b : double) : bool := PrimFloat.leb b a.
Definition le (a b : double) : bool := PrimFloat.leb a b.
Definition eq (a b : double) : bool := PrimFloat.eqb a b.

(** [std::min(a, b)]: [b] when [b < a], else [a]. *)
Definition min (a b : double) : double := if lt b a then b else a.

(** [std::abs] on a double. *)
Definition abs (a : double) : double := PrimFloat.abs a.

(** The literal [1e-6] of [try_prune_by_bound], as the nearest binary64. *)
Definition EPS : double := 0x1.0c6f7a0b5ed8dp-20%float.

Definition is_nan (a : double) : bool := PrimFloat.is_nan a.
Definition is_finite (a : double) : bool := PrimFloat.is_finite a.

#[global] Arguments lt : simpl never.
#[global] Arguments gt : simpl never.
#[global] Arguments ge : simpl never.
#[global] Arguments le : simpl never.
#[global] Arguments eq : simpl never.
#[global] Arguments min : simpl never.
#[global] Arguments abs : simpl never.
#[global] Arguments is_nan : simpl never.
#[global] Arguments is_finite : simpl never.

End Double.

Import Double.

(** ** node.hpp *)

Inductive NodeStatus :=
| PENDING
| PROCESSING
| BRANCHED
| PRUNED_BOUND
| PRUNED_INFEASIBLE
| INTEGER
| FATHOMED.

#[global] Instance NodeStatus_eq_dec : EqDecision NodeStatus.
Proof. solve_decision. Defined.

Inductive BranchType :=
| VARIABLE
| RYAN_FOSTER
| ARC
| RESOURCE
| CUSTOM.

Module BranchingDecision.

Record t := mk {
  type : BranchType;
  variable_index : Z;
  bound_value : double;
  is_upper_bound : bool;
  item_i : Z;
  item_j : Z;
  same_column : bool;
  arc_index : Z;
  source_node : Z;
  arc_required : bool;
  resource_index : Z;
  lower_bound : double;
  upper_bound : double;
  custom_int_data : list Z;
  custom_float_data : list double
}.

(** The default member initialisers of the struct; [type] has none in the
    source, each factory assigns it. *)
Definition default (ty : BranchType) : t :=
  mk ty (-1) 0%float false (-1) (-1) false (-1) (-1) false (-1) 0%float INF [] [].

Definition variable_branch (var_idx : Z) (value : double) (upper : bool) : t :=
  let d := default VARIABLE in
  mk VARIABLE var_idx value upper (item_i d) (item_j d) (same_column d)
     (arc_index d) (source_node d) (arc_required d) (resource_index d)
     (lower_bound d) (upper_bound d) (custom_int_data d) (custom_float_data d).

Definition ryan_foster (i j : Z) (same : bool) : t :=
  let d := default RYAN_FOSTER in
  mk RYAN_FOSTER (variable_index d) (bound_value d) (is_upper_bound d) i j same
     (arc_index d) (source_node d) (arc_required d) (resource_index d)
     (lower_bound d) (upper_bound d) (custom_int_data d) (custom_float_data d).

Definition arc_branch (arc source : Z) (required : bool) : t :=
  let d := default ARC in
  mk ARC (variable_index d) (bound_value d) (is_upper_bound d)
     (item_i d) (item_j d) (same_column d) arc source required (resource_index d)
     (lower_bound d) (upper_bound d) (custom_int_data d) (custom_float_data d).

Definition resource_branch (res_idx : Z) (lb ub : double) : t :=
  let d := default RESOURCE in
  mk RESOURCE (variable_index d) (bound_value d) (is_upper_bound d)
     (item_i d) (item_j d) (same_column d)
     (arc_index d) (source_node d) (arc_required d) res_idx
     lb ub (custom_int_data d) (custom_float_data d).

End BranchingDecision.

Abbreviation NodeId := Z (only parsing).

Module BPNode.

Definition INVALID_ID : NodeId := -1.

Record t := mk {
  id_ : NodeId;
  parent_id_ : NodeId;
  depth_ : Z;
  lower_bound_ : double;
  upper_bound_ : double;
  lp_value_ : double;
  status_ : NodeStatus;
  is_integer_ : bool;
  inherited_decisions_ : list BranchingDecision.t;
  local_decisions_ : list BranchingDecision.t;
  children_ : list NodeId;
  solution_ : list double;
  solution_columns_ : list Z
}.

(** [BPNode()]: the root node. *)
Definition root : t :=
  mk 0 INVALID_ID 0 NEG_INF INF INF PENDING false [] [] [] [] [].

(** [BPNode(id, parent_id, depth, decision)]: a child node. *)
Definition child (id parent_id : NodeId) (depth : Z) (decision : BranchingDecision.t) : t :=
  mk id parent_id depth NEG_INF INF INF PENDING false [] [decision] [] [] [].

(** Accessors. *)
Definition id (n : t) := id_ n.
Definition parent_id (n : t) := parent_id_ n.
Definition depth (n : t) := depth_ n.
Definition lower_bound (n : t) := lower_bound_ n.
Definition upper_bound (n : t) := upper_bound_ n.
Definition lp_value (n : t) := lp_value_ n.
Definition status (n : t) := status_ n.
Definition is_integer (n : t) := is_integer_ n.
Definition local_decisions (n : t) := local_decisions_ n.
Definition inherited_decisions (n : t) := inherited_decisions_ n.
Definition children (n : t) := children_ n.
Definition solution (n : t) := solution_ n.
Definition solution_columns (n : t) := solution_columns_ n.

Definition gap (n : t) : double :=
  if Double.eq (upper_bound_ n) INF || Double.eq (lower_bound_ n) NEG_INF then INF
  else if Double.eq (upper_bound_ n) 0%float
       then (if Double.eq (lower_bound_ n) 0%float then 0%float else INF)
       else ((upper_bound_ n - lower_bound_ n) / Double.abs (upper_bound_ n))%float.

Definition is_processed (n : t) : bool :=
  negb (bool_decide (status_ n = PENDING)) && negb (bool_decide (status_ n = PROCESSING)).

Definition is_pruned (n : t) : bool :=
  bool_decide (status_ n = PRUNED_BOUND)
  || bool_decide (status_ n = PRUNED_INFEASIBLE)
  || bool_decide (status_ n = FATHOMED).

Definition can_be_explored (n : t) : bool := bool_decide (status_ n = PENDING).

Definition all_decisions (n : t) : list BranchingDecision.t :=
  inherited_decisions_ n ++ local_decisions_ n.

Definition num_decisions (n : t) : Z :=
  Z.of_nat (length (inherited_decisions_ n)) + Z.of_nat (length (local_decisions_ n)).

Definition has_children (n : t) : bool :=
  match children_ n with [] => false | _ => true end.

Definition has_solution (n : t) : bool :=
  match solution_ n with [] => false | _ => true end.

(** Modifiers. *)
Definition set_id (id : NodeId) (n : t) : t :=
  mk id (parent_id_ n) (depth_ n) (lower_bound_ n) (upper_bound_ n) (lp_value_ n)
     (status_ n) (is_integer_ n) (inherited_decisions_ n) (local_decisions_ n)
     (children_ n) (solution_ n) (solution_columns_ n).

Definition set_lower_bound (lb : double) (n : t) : t :=
  mk (id_ n) (parent_id_ n) (depth_ n) lb (upper_bound_ n) (lp_value_ n)
     (status_ n) (is_integer_ n) (inherited_decisions_ n) (local_decisions_ n)
     (children_ n) (solution_ n) (solution_columns_ n).

Definition set_upper_bound (ub : double) (n : t) : t :=
  mk (id_ n) (parent_id_ n) (depth_ n) (lower_bound_ n) ub (lp_value_ n)
     (status_ n) (is_integer_ n) (inherited_decisions_ n) (local_decisions_ n)
     (children_ n) (solution_ n) (solution_columns_ n).

Definition set_lp_value (val : double) (n : t) : t :=
  mk (id_ n) (parent_id_ n) (depth_ n) (lower_bound_ n) (upper_bound_ n) val
     (status_ n) (is_integer_ n) (inherited_decisions_ n) (local_decisions_ n)
     (children_ n) (solution_ n) (solution_columns_ n).

Definition set_status (status : NodeStatus) (n : t) : t :=
  mk (id_ n) (parent_id_ n) (depth_ n) (lower_bound_ n) (upper_bound_ n) (lp_value_ n)
     status (is_integer_ n) (inherited_decisions_ n) (local_decisions_ n)
     (children_ n) (solution_ n) (solution_columns_ n).

Definition set_is_integer (is_int : bool) (n : t) : t :=
  mk (id_ n) (parent_id_ n) (depth_ n) (lower_bound_ n) (upper_bound_ n) (lp_value_ n)
     (status_ n) is_int (inherited_decisions_ n) (local_decisions_ n)
     (children_ n) (solution_ n) (solution_columns_ n).

Definition add_local_decision (decision : BranchingDecision.t) (n : t) : t :=
  mk (id_ n) (parent_id_ n) (depth_ n) (lower_bound_ n) (upper_bound_ n) (lp_value_ n)
     (status_ n) (is_integer_ n) (inherited_decisions_ n)
     (local_decisions_ n ++ [decision])
     (children_ n) (solution_ n) (solution_columns_ n).

Definition set_inherited_decisions (decisions : list BranchingDecision.t) (n : t) : t :=
  mk (id_ n) (parent_id_ n) (depth_ n) (lower_bound_ n) (upper_bound_ n) (lp_value_ n)
     (status_ n) (is_integer_ n) decisions (local_decisions_ n)
     (children_ n) (solution_ n) (solution_columns_ n).

Definition add_child (child_id : NodeId) (n : t) : t :=
  mk (id_ n) (parent_id_ n) (depth_ n) (lower_bound_ n) (upper_bound_ n) (lp_value_ n)
     (status_ n) (is_integer_ n) (inherited_decisions_ n) (local_decisions_ n)
     (children_ n ++ [child_id]) (solution_ n) (solution_columns_ n).

Definition set_solution (sol : list double) (n : t) : t :=
  mk (id_ n) (parent_id_ n) (depth_ n) (lower_bound_ n) (upper_bound_ n) (lp_value_ n)
     (status_ n) (is_integer_ n) (inherited_decisions_ n) (local_decisions_ n)
     (children_ n) sol (solution_columns_ n).

Definition set_solution_columns (cols : list Z) (n : t) : t :=
  mk (id_ n) (parent_id_ n) (depth_ n) (lower_bound_ n) (upper_bound_ n) (lp_value_ n)
     (status_ n) (is_integer_ n) (inherited_decisions_ n) (local_decisions_ n)
     (children_ n) (solution_ n) cols.

(** [try_prune_by_bound(global_upper)]: the result and the node afterwards. *)
Definition try_prune_by_bound (global_upper : double) (n : t) : bool * t :=
  if Double.ge (lower_bound_ n) (global_upper - EPS)%float
  then (true, set_status PRUNED_BOUND n)
  else (false, n).

End BPNode.

(** ** tree.hpp *)

Module TreeStats.

Record t := mk {
  nodes_created : Z;
  nodes_processed : Z;
  nodes_pruned_bound : Z;
  nodes_pruned_infeasible : Z;
  nodes_integer : Z;
  nodes_branched : Z;
  nodes_open : Z;
  max_depth : Z;
  best_lower_bound : double;
  best_upper_bound : double
}.

Definition init : t := mk 0 0 0 0 0 0 0 0 NEG_INF INF.

Definition gap (s : t) : double :=
  if Double.eq (best_upper_bound s) INF || Double.eq (best_lower_bound s) NEG_INF then INF
  else if Double.lt (Double.abs (best_upper_bound s)) 1e-10%float
       then (if Double.lt (Double.abs (best_lower_bound s)) 1e-10%float then 0%float else INF)
       else ((best_upper_bound s - best_lower_bound s) / Double.abs (best_upper_bound s))%float.

Definition set_created_open (created open : Z) (s : t) : t :=
  mk created (nodes_processed s) (nodes_pruned_bound s) (nodes_pruned_infeasible s)
     (nodes_integer s) (nodes_branched s) open (max_depth s)
     (best_lower_bound s) (best_upper_bound s).

Definition set_max_depth (d : Z) (s : t) : t :=
  mk (nodes_created s) (nodes_processed s) (nodes_pruned_bound s)
     (nodes_pruned_infeasible s) (nodes_integer s) (nodes_branched s) (nodes_open s) d
     (best_lower_bound s) (best_upper_bound s).

Definition set_nodes_processed (k : Z) (s : t) : t :=
  mk (nodes_created s) k (nodes_pruned_bound s) (nodes_pruned_infeasible s)
     (nodes_integer s) (nodes_branched s) (nodes_open s) (max_depth s)
     (best_lower_bound s) (best_upper_bound s).

Definition set_nodes_pruned_bound (k : Z) (s : t) : t :=
  mk (nodes_created s) (nodes_processed s) k (nodes_pruned_infeasible s)
     (nodes_integer s) (nodes_branched s) (nodes_open s) (max_depth s)
     (best_lower_bound s) (best_upper_bound s).

Definition set_nodes_pruned_infeasible (k : Z) (s : t) : t :=
  mk (nodes_created s) (nodes_processed s) (nodes_pruned_bound s) k
     (nodes_integer s) (nodes_branched s) (nodes_open s) (max_depth s)
     (best_lower_bound s) (best_upper_bound s).

Definition set_nodes_integer (k : Z) (s : t) : t :=
  mk (nodes_created s) (nodes_processed s) (nodes_pruned_bound s)
     (nodes_pruned_infeasible s) k (nodes_branched s) (nodes_open s) (max_depth s)
     (best_lower_bound s) (best_upper_bound s).

Definition set_nodes_branched (k : Z) (s : t) : t :=
  mk (nodes_created s) (nodes_processed s) (nodes_pruned_bound s)
     (nodes_pruned_infeasible s) (nodes_integer s) k (nodes_open s) (max_depth s)
     (best_lower_bound s) (best_upper_bound s).

Definition set_nodes_open (k : Z) (s : t) : t :=
  mk (nodes_created s) (nodes_processed s) (nodes_pruned_bound s)
     (nodes_pruned_infeasible s) (nodes_integer s) (nodes_branched s) k (max_depth s)
     (best_lower_bound s) (best_upper_bound s).

Definition set_best_upper_bound (ub : double) (s : t) : t :=
  mk (nodes_created s) (nodes_processed s) (nodes_pruned_bound s)
     (nodes_pruned_infeasible s) (nodes_integer s) (nodes_branched s) (nodes_open s)
     (max_depth s) (best_lower_bound s) ub.

End TreeStats.

Abbreviation NodePtr := Z (only parsing).

Module BPTree.

(** [nodes_] maps an identifier to the node registered under it; with the
    handles of this model it stands for both the pool's slots and the
    [unordered_map<NodeId, NodePtr>] over them. *)
Record t := mk {
  minimize_ : bool;
  nodes_ : gmap Z BPNode.t;
  root_ : option NodePtr;
  incumbent_ : option NodePtr;
  next_id_ : Z;
  global_lower_bound_ : double;
  global_upper_bound_ : double;
  stats_ : TreeStats.t
}.

Definition with_nodes (m : gmap Z BPNode.t) (tr : t) : t :=
  mk (minimize_ tr) m (root_ tr) (incumbent_ tr) (next_id_ tr)
     (global_lower_bound_ tr) (global_upper_bound_ tr) (stats_ tr).

Definition with_stats (s : TreeStats.t) (tr : t) : t :=
  mk (minimize_ tr) (nodes_ tr) (root_ tr) (incumbent_ tr) (next_id_ tr)
     (global_lower_bound_ tr) (global_upper_bound_ tr) s.

Definition with_next_id (k : Z) (tr : t) : t :=
  mk (minimize_ tr) (nodes_ tr) (root_ tr) (incumbent_ tr) k
     (global_lower_bound_ tr) (global_upper_bound_ tr) (stats_ tr).

Definition with_incumbent (p : option NodePtr) (tr : t) : t :=
  mk (minimize_ tr) (nodes_ tr) (root_ tr) p (next_id_ tr)
     (global_lower_bound_ tr) (global_upper_bound_ tr) (stats_ tr).

(** [BPTree(minimize)]: the pool hands out a default-constructed node, which
    gets the first identifier and is registered and counted. *)
Definition new (minimize : bool) : t :=
  mk minimize {[ 0 := BPNode.set_id 0 BPNode.root ]} (Some 0) None 1 NEG_INF INF
     (TreeStats.set_created_open 1 1 TreeStats.init).

Definition root (tr : t) : option NodePtr := root_ tr.

Definition node (tr : t) (id : NodeId) : option BPNode.t := nodes_ tr !! id.

Definition root_id (tr : t) : NodeId :=
  match root_ tr with
  | Some r => match nodes_ tr !! r with
              | Some n => BPNode.id n
              | None => BPNode.INVALID_ID
              end
  | None => BPNode.INVALID_ID
  end.

Definition has_node (tr : t) (id : NodeId) : bool := bool_decide (is_Some (nodes_ tr !! id)).

Definition num_nodes (tr : t) : Z := Z.of_nat (size (nodes_ tr)).

Definition create_child (tr : t) (parent : NodePtr) (decision : BranchingDecision.t)
  : option (NodePtr * t) :=
  p ← nodes_ tr !! parent;
  let child_id := next_id_ tr in
  let child0 := BPNode.child child_id (BPNode.id p) (BPNode.depth p + 1) decision in
  let inherited := BPNode.all_decisions p in
  let child1 := BPNode.set_inherited_decisions inherited child0 in
  let child2 := BPNode.set_lower_bound (BPNode.lower_bound p) child1 in
  let child3 := BPNode.set_upper_bound (BPNode.upper_bound p) child2 in
  let p' := BPNode.add_child child_id p in
  let nodes' := <[child_id := child3]> (<[parent := p']> (nodes_ tr)) in
  let s := stats_ tr in
  let s1 := TreeStats.set_created_open
              (TreeStats.nodes_created s + 1) (TreeStats.nodes_open s + 1) s in
  let s2 := if BPNode.depth child3 >? TreeStats.max_depth s1
            then TreeStats.set_max_depth (BPNode.depth child3) s1 else s1 in
  Some (child_id, with_stats s2 (with_nodes nodes' (with_next_id (child_id + 1) tr))).

(** The loop of [create_children]: one [create_child] per decision, in order. *)
Fixpoint create_children_loop (tr : t) (parent : NodePtr)
    (decisions : list BranchingDecision.t) (children : list NodePtr)
  : option (list NodePtr * t) :=
  match decisions with
  | [] => Some (children, tr)
  | decision :: rest =>
      '(c, tr') ← create_child tr parent decision;
      create_children_loop tr' parent rest (children ++ [c])
  end.

Definition create_children (tr : t) (parent : NodePtr)
    (decisions : list BranchingDecision.t) : option (list NodePtr * t) :=
  '(children, tr1) ← create_children_loop tr parent decisions [];
  p ← nodes_ tr1 !! parent;
  let nodes' := <[parent := BPNode.set_status BRANCHED p]> (nodes_ tr1) in
  let s := stats_ tr1 in
  let s1 := TreeStats.set_nodes_branched (TreeStats.nodes_branched s + 1) s in
  let s2 := TreeStats.set_nodes_open (TreeStats.nodes_open s1 - 1) s1 in
  Some (children, with_stats s2 (with_nodes nodes' tr1)).

Definition mark_processed (tr : t) (node : NodePtr) (new_status : NodeStatus) : option t :=
  n ← nodes_ tr !! node;
  let old_status := BPNode.status n in
  let nodes' := <[node := BPNode.set_status new_status n]> (nodes_ tr) in
  let s := stats_ tr in
  let s1 :=
    if bool_decide (old_status = PENDING) || bool_decide (old_status = PROCESSING)
    then
      let s' := TreeStats.set_nodes_processed (TreeStats.nodes_processed s + 1) s in
      if negb (bool_decide (new_status = BRANCHED))
      then TreeStats.set_nodes_open (TreeStats.nodes_open s' - 1) s'
      else s'
    else s in
  let s2 :=
    match new_status with
    | PRUNED_BOUND =>
        TreeStats.set_nodes_pruned_bound (TreeStats.nodes_pruned_bound s1 + 1) s1
    | PRUNED_INFEASIBLE =>
        TreeStats.set_nodes_pruned_infeasible (TreeStats.nodes_pruned_infeasible s1 + 1) s1
    | INTEGER =>
        TreeStats.set_nodes_integer (TreeStats.nodes_integer s1 + 1) s1
    | _ => s1
    end in
  Some (with_stats s2 (with_nodes nodes' tr)).

Definition global_lower_bound (tr : t) := global_lower_bound_ tr.
Definition global_upper_bound (tr : t) := global_upper_bound_ tr.

Definition set_global_lower_bound (lb : double) (tr : t) : t :=
  mk (minimize_ tr) (nodes_ tr) (root_ tr) (incumbent_ tr) (next_id_ tr)
     lb (global_upper_bound_ tr) (stats_ tr).

Definition set_global_upper_bound (ub : double) (tr : t) : t :=
  mk (minimize_ tr) (nodes_ tr) (root_ tr) (incumbent_ tr) (next_id_ tr)
     (global_lower_bound_ tr) ub (stats_ tr).

Definition is_minimizing (tr : t) := minimize_ tr.

(** [update_bounds(node)]: the result [improved] and the tree afterwards. *)
Definition update_bounds (tr : t) (node : NodePtr) : option (bool * t) :=
  n ← nodes_ tr !! node;
  if BPNode.is_integer n && Double.lt (BPNode.lp_value n) (global_upper_bound_ tr)
  then
    let tr1 := set_global_upper_bound (BPNode.lp_value n) tr in
    let tr2 := with_stats
                 (TreeStats.set_best_upper_bound (global_upper_bound_ tr1) (stats_ tr1)) tr1 in
    Some (true, tr2)
  else Some (false, tr).

Definition compute_lower_bound (tr : t) (open_node_ids : list NodeId) : double :=
  fold_left
    (fun lb id =>
       match nodes_ tr !! id with
       | Some n => if BPNode.can_be_explored n then Double.min lb (BPNode.lower_bound n) else lb
       | None => lb
       end)
    open_node_ids (global_upper_bound_ tr).

(** What one iteration of [prune_by_bound] does to the node it visits. *)
Definition prune_visit (global_upper : double) (n : BPNode.t) : bool * BPNode.t :=
  if BPNode.can_be_explored n
  then BPNode.try_prune_by_bound global_upper n
  else (false, n).

(** A counter that a walk over all registered nodes increments at the nodes
    that satisfy [P] (the walk's order does not matter to the sum). *)
Definition count_nodes (P : BPNode.t -> bool) (nodes : gmap Z BPNode.t) : Z :=
  map_fold (fun _ n count => if P n then count + 1 else count) 0 nodes.

(** [prune_by_bound()]: every registered node is visited once; a visit reads
    and writes the visited node and the counters only, and
    [global_upper_bound_] is not written, so the result does not depend on
    the order in which the [unordered_map] is walked. *)
Definition prune_by_bound (tr : t) : Z * t :=
  let g := global_upper_bound_ tr in
  let pruned := count_nodes (fun n => fst (prune_visit g n)) (nodes_ tr) in
  let nodes' := (fun n => snd (prune_visit g n)) <$> nodes_ tr in
  let s := stats_ tr in
  let s1 := TreeStats.set_nodes_pruned_bound (TreeStats.nodes_pruned_bound s + pruned) s in
  let s2 := TreeStats.set_nodes_open (TreeStats.nodes_open s1 - pruned) s1 in
  (pruned, with_stats s2 (with_nodes nodes' tr)).

(** [get_open_nodes()], in the order of [map_to_list] (the source's order is
    that of the hash table). *)
Definition get_open_nodes (tr : t) : list NodeId :=
  fst <$> filter (fun kn => BPNode.can_be_explored (snd kn) = true) (map_to_list (nodes_ tr)).

Definition is_complete (tr : t) : bool := TreeStats.nodes_open (stats_ tr) =? 0.

Definition gap (tr : t) : double :=
  if Double.eq (global_upper_bound_ tr) INF || Double.eq (global_lower_bound_ tr) NEG_INF
  then INF
  else if Double.lt (Double.abs (global_upper_bound_ tr)) 1e-10%float
       then (if Double.lt (Double.abs (global_lower_bound_ tr)) 1e-10%float
             then 0%float else INF)
       else ((global_upper_bound_ tr - global_lower_bound_ tr)
             / Double.abs (global_upper_bound_ tr))%float.

Definition stats (tr : t) := stats_ tr.

(** The [while] loop of [get_path_to_root]; [fuel] bounds the number of
    iterations, [None] is a loop that has not ended within it. *)
Fixpoint path_loop (fuel : nat) (nodes : gmap Z BPNode.t) (current : NodeId)
    (path : list NodeId) {struct fuel} : option (list NodeId) :=
  if current =? BPNode.INVALID_ID then Some path
  else
    match fuel with
    | O => None
    | S fuel' =>
        let path' := path ++ [current] in
        match nodes !! current with
        | None => Some path'
        | Some n => path_loop fuel' nodes (BPNode.parent_id n) path'
        end
    end.

Definition get_path_to_root (fuel : nat) (tr : t) (target_id : NodeId)
  : option (list NodeId) :=
  match path_loop fuel (nodes_ tr) target_id [] with
  | Some path => Some (rev path)
  | None => None
  end.

Definition incumbent (tr : t) := incumbent_ tr.

Definition set_incumbent (tr : t) (node : option NodePtr) : option t :=
  let tr1 := with_incumbent node tr in
  match node with
  | Some p =>
      n ← nodes_ tr !! p;
      let tr2 := set_global_upper_bound (BPNode.lp_value n) tr1 in
      Some (with_stats
              (TreeStats.set_best_upper_bound (global_upper_bound_ tr2) (stats_ tr2)) tr2)
  | None => Some tr1
  end.

(** A member function of [BPNode] called through a handle. *)
Definition on_node (f : BPNode.t -> BPNode.t) (tr : t) (p : NodePtr) : option t :=
  n ← nodes_ tr !! p;
  Some (with_nodes (<[p := f n]> (nodes_ tr)) tr).

End BPTree.

(** ** The public operations, as a driver issues them

    A [tree_call] is one call of a public member function of [BPTree], or of
    a member function of [BPNode] through a handle the tree gave out
    ([T_node]).  [run_call] performs it on a tree state; [run_calls]
    performs a sequence, each call checked first against a usage rule
    [allowed] (the rule that allows everything gives all call sequences). *)

Inductive node_call :=
| N_set_id (id : NodeId)
| N_set_lower_bound (lb : double)
| N_set_upper_bound (ub : double)
| N_set_lp_value (val : double)
| N_set_status (status : NodeStatus)
| N_set_is_integer (is_int : bool)
| N_add_local_decision (decision : BranchingDecision.t)
| N_set_inherited_decisions (decisions : list BranchingDecision.t)
| N_add_child (child_id : NodeId)
| N_try_prune_by_bound (global_upper : double)
| N_set_solution (sol : list double)
| N_set_solution_columns (cols : list Z).

Inductive tree_call :=
| T_create_child (parent : NodePtr) (decision : BranchingDecision.t)
| T_create_children (parent : NodePtr) (decisions : list BranchingDecision.t)
| T_mark_processed (node : NodePtr) (new_status : NodeStatus)
| T_set_global_lower_bound (lb : double)
| T_set_global_upper_bound (ub : double)
| T_update_bounds (node : NodePtr)
| T_prune_by_bound
| T_set_incumbent (node : option NodePtr)
| T_node (node : NodePtr) (call : node_call).

Definition apply_node_call (c : node_call) (n : BPNode.t) : BPNode.t :=
  match c with
  | N_set_id id => BPNode.set_id id n
  | N_set_lower_bound lb => BPNode.set_lower_bound lb n
  | N_set_upper_bound ub => BPNode.set_upper_bound ub n
  | N_set_lp_value val => BPNode.set_lp_value val n
  | N_set_status s => BPNode.set_status s n
  | N_set_is_integer b => BPNode.set_is_integer b n
  | N_add_local_decision d => BPNode.add_local_decision d n
  | N_set_inherited_decisions ds => BPNode.set_inherited_decisions ds n
  | N_add_child c => BPNode.add_child c n
  | N_try_prune_by_bound g => snd (BPNode.try_prune_by_bound g n)
  | N_set_solution sol => BPNode.set_solution sol n
  | N_set_solution_columns cols => BPNode.set_solution_columns cols n
  end.

Definition run_call (tr : BPTree.t) (c : tree_call) : option BPTree.t :=
  match c with
  | T_create_child parent decision => snd <$> BPTree.create_child tr parent decision
  | T_create_children parent decisions => snd <$> BPTree.create_children tr parent decisions
  | T_mark_processed node new_status => BPTree.mark_processed tr node new_status
  | T_set_global_lower_bound lb => Some (BPTree.set_global_lower_bound lb tr)
  | T_set_global_upper_bound ub => Some (BPTree.set_global_upper_bound ub tr)
  | T_update_bounds node => snd <$> BPTree.update_bounds tr node
  | T_prune_by_bound => Some (snd (BPTree.prune_by_bound tr))
  | T_set_incumbent node => BPTree.set_incumbent tr node
  | T_node node call => BPTree.on_node (apply_node_call call) tr node
  end.

Fixpoint run_calls (allowed : BPTree.t -> tree_call -> bool) (tr : BPTree.t)
    (calls : list tree_call) : option BPTree.t :=
  match calls with
  | [] => Some tr
  | c :: rest =>
      if allowed tr c
      then tr' ← run_call tr c; run_calls allowed tr' rest
      else None
  end.

(** Every call sequence. *)
Definition any_call (tr : BPTree.t) (c : tree_call) : bool := true.

Definition non_terminal (s : NodeStatus) : bool :=
  bool_decide (s = PENDING) || bool_decide (s = PROCESSING).

Definition terminal (s : NodeStatus) : bool := negb (non_terminal s).

Definition node_has (tr : BPTree.t) (p : NodePtr) (P : BPNode.t -> bool) : bool :=
  match BPTree.nodes_ tr !! p with
  | Some n => P n
  | None => false
  end.

(** The usage under which the counters follow the statuses: a status
    changes through the tree only; [create_children] branches a node that is
    not yet terminal; [mark_processed] takes a node that is not yet terminal
    to a terminal status other than [BRANCHED] (which [create_children]
    accounts for); [set_status] moves a node between [PENDING] and
    [PROCESSING] only. *)
Definition counted_call (tr : BPTree.t) (c : tree_call) : bool :=
  match c with
  | T_create_children parent _ =>
      node_has tr parent (fun n => non_terminal (BPNode.status n))
  | T_mark_processed node new_status =>
      node_has tr node (fun n => non_terminal (BPNode.status n))
      && terminal new_status && negb (bool_decide (new_status = BRANCHED))
  | T_node node (N_set_status s) =>
      node_has tr node (fun n => non_terminal (BPNode.status n)) && non_terminal s
  | T_node _ (N_try_prune_by_bound _) => false
  | _ => true
  end.

(** The usage under which inherited decisions stay those of the ancestors:
    identifiers and inherited decisions are assigned by the tree only, and a
    local decision is added to a node only while it has no child. *)
Definition inheriting_call (tr : BPTree.t) (c : tree_call) : bool :=
  match c with
  | T_node _ (N_set_id _) => false
  | T_node _ (N_set_inherited_decisions _) => false
  | T_node node (N_add_local_decision _) =>
      node_has tr node (fun n => negb (BPNode.has_children n))
  | _ => true
  end.

(** The usage under which [stats().best_upper_bound] follows the global
    upper bound: the bound is set through [update_bounds] and
    [set_incumbent] only. *)
Definition upper_bound_by_tree_call (tr : BPTree.t) (c : tree_call) : bool :=
  match c with
  | T_set_global_upper_bound _ => false
  | _ => true
  end.

(** Number of registered nodes whose status satisfies [P], by a full scan. *)
Definition count_status (P : NodeStatus -> bool) (tr : BPTree.t) : Z :=
  BPTree.count_nodes (fun n => P (BPNode.status n)) (BPTree.nodes_ tr).

Definition has_status (s : NodeStatus) : NodeStatus -> bool :=
  fun s' => bool_decide (s' = s).

(** Number of registered nodes in a terminal status, by a full scan: the
    sum of the counts of the five terminal statuses. *)
Definition terminal_nodes (tr : BPTree.t) : Z :=
  count_status (has_status BRANCHED) tr
  + count_status (has_status PRUNED_BOUND) tr
  + count_status (has_status PRUNED_INFEASIBLE) tr
  + count_status (has_status INTEGER) tr
  + count_status (has_status FATHOMED) tr.

(** The counters of [TreeStats] agree with a full scan of the nodes. *)
Record counters_agree (tr : BPTree.t) : Prop := {
  agree_created :
    TreeStats.nodes_created (BPTree.stats tr) = BPTree.num_nodes tr;
  agree_open :
    TreeStats.nodes_open (BPTree.stats tr) = count_status non_terminal tr;
  agree_branched :
    TreeStats.nodes_branched (BPTree.stats tr) = count_status (has_status BRANCHED) tr;
  agree_pruned_bound :
    TreeStats.nodes_pruned_bound (BPTree.stats tr)
    = count_status (has_status PRUNED_BOUND) tr;
  agree_pruned_infeasible :
    TreeStats.nodes_pruned_infeasible (BPTree.stats tr)
    = count_status (has_status PRUNED_INFEASIBLE) tr;
  agree_integer :
    TreeStats.nodes_integer (BPTree.stats tr) = count_status (has_status INTEGER) tr
}.

(** The registered nodes form a tree and inherit along it: the node without
    parent is registered under 0, has depth 0 and no inherited decisions;
    a node with a parent is one deeper than the parent and has the parent's
    inherited decisions followed by the parent's local ones.  With it:
    nodes are registered under their own identifier, a parent is
    registered, was created before its children and has recorded a child. *)
Record inherits (tr : BPTree.t) : Prop := {
  inh_ids :
    forall (k : NodeId) (n : BPNode.t),
      BPTree.nodes_ tr !! k = Some n -> 0 <= k < BPTree.next_id_ tr;
  inh_id :
    forall (k : NodeId) (n : BPNode.t),
      BPTree.nodes_ tr !! k = Some n -> BPNode.id n = k;
  inh_root :
    forall (k : NodeId) (n : BPNode.t),
      BPTree.nodes_ tr !! k = Some n ->
      BPNode.parent_id n = BPNode.INVALID_ID ->
      k = 0 /\ BPNode.depth n = 0 /\ BPNode.inherited_decisions n = [];
  inh_parent :
    forall (k : NodeId) (n : BPNode.t),
      BPTree.nodes_ tr !! k = Some n ->
      BPNode.parent_id n <> BPNode.INVALID_ID ->
      0 <= BPNode.parent_id n < k
      /\ exists p : BPNode.t,
           BPTree.nodes_ tr !! BPNode.parent_id n = Some p
           /\ BPNode.has_children p = true
           /\ BPNode.depth n = BPNode.depth p + 1
           /\ BPNode.inherited_decisions n
              = BPNode.inherited_decisions p ++ BPNode.local_decisions p
}.

(** Identifiers handed out so far are below [next_id_]. *)
Definition ids_below_next (tr : BPTree.t) : Prop :=
  forall (k : NodeId) (n : BPNode.t),
    BPTree.nodes_ tr !! k = Some n -> 0 <= k < BPTree.next_id_ tr.

(** The local decisions of the nodes of [path], concatenated in order. *)
Definition decisions_along (tr : BPTree.t) (path : list NodeId) : list BranchingDecision.t :=
  concat (map (fun id => match BPTree.nodes_ tr !! id with
                         | Some a => BPNode.local_decisions a
                         | None => []
                         end) path).

(** ** selection.hpp *)

(** The nodes the selectors' handles point to.  A selector reads a node
    through its handle at the time of each call, so every operation that
    reads nodes takes the store of that moment. *)
Definition store := NodePtr -> BPNode.t.

(** [static_cast<double>] of an integer (exact for 32-bit depths). *)
Definition double_of_Z (z : Z) : double :=
  if z <? 0 then (- PrimFloat.of_uint63 (Uint63.of_Z (- z)))%float
  else PrimFloat.of_uint63 (Uint63.of_Z z).

(** [std::priority_queue<BPNode*, std::vector<BPNode*>, Compare>].

    The standard fixes what [top()] is for a container that is a heap under
    [Compare] (an element that is not [Compare]-less than any other), not
    the layout of the container nor the order among equivalent elements.
    The model keeps the container in the order in which [pop()] delivers
    it; such a sequence is a heap.  [push] places the new handle by the keys
    the nodes have at the time of the call, behind the handles it is
    equivalent to, so a key that is modified while its node is queued leaves
    the container out of order, as it leaves the source's heap. *)
Module PriorityQueue.

Definition t := list NodePtr.

Section Compare.
Variable comp : BPNode.t -> BPNode.t -> bool.
Variable st : store.

Fixpoint push (x : NodePtr) (q : t) : t :=
  match q with
  | [] => [x]
  | y :: q' => if comp (st y) (st x) then x :: q else y :: push x q'
  end.

End Compare.

Definition top (q : t) : option NodePtr := head q.
Definition pop (q : t) : t := tail q.
Definition empty (q : t) : bool := match q with [] => true | _ => false end.
Definition size (q : t) : nat := length q.

End PriorityQueue.

(** The capability all selectors implement ([class NodeSelector]). *)
Module Selector.

Class NodeSelector (S : Type) := {
  add_node : store -> option NodePtr -> S -> S;
  select_next : store -> S -> option NodePtr * S;
  peek_next : store -> S -> option NodePtr;
  empty : S -> bool;
  size : S -> nat;
  prune : store -> S -> nat * S;
  on_bound_update : double -> S -> S;
  best_bound : store -> S -> double;
  get_open_node_ids : store -> S -> list NodeId;
  clear : S -> S
}.

(** [NodeSelector::add_nodes], the default implementation. *)
Definition add_nodes {S : Type} `{NodeSelector S} (st : store)
    (nodes : list (option NodePtr)) (s : S) : S :=
  fold_left (fun s node => add_node st node s) nodes s.

(** [select_next] called [fuel] times in a row, or until it returns
    [nullptr]: the handles returned, in order, and the selector afterwards. *)
Fixpoint select_all {S : Type} `{NodeSelector S} (fuel : nat) (st : store) (s : S)
  : list NodePtr * S :=
  match fuel with
  | O => ([], s)
  | Datatypes.S fuel' =>
      match select_next st s with
      | (Some node, s') =>
          let '(rest, s'') := select_all fuel' st s' in (node :: rest, s'')
      | (None, s') => ([], s')
      end
  end.

End Selector.

(** What the specification speaks of: the lower bounds of a sequence of
    handles, and the handles among them that are explorable. *)
Definition bounds_of (st : store) (held : list NodePtr) : list double :=
  map (fun p => BPNode.lower_bound (st p)) held.

Definition explorable (st : store) (held : list NodePtr) : list NodePtr :=
  filter (fun p => BPNode.can_be_explored (st p) = true) held.

(** [m] is the minimum of [l], and [+inf] when [l] is empty. *)
Definition is_min_of (m : double) (l : list double) : Prop :=
  (forall x, x ∈ l -> Double.le m x = true)
  /\ (l = [] -> m = INF)
  /\ (l <> [] -> m ∈ l).

(** No lower bound of the handles is a NaN (the specification takes bounds
    from the extended real line). *)
Definition bounds_not_nan (st : store) (held : list NodePtr) : Prop :=
  forall p, p ∈ held -> Double.is_nan (BPNode.lower_bound (st p)) = false.

(** The container of a priority queue is in heap order for the keys the
    nodes have in [st]: no handle is [comp]-less than one behind it. *)
Definition heap_ordered (comp : BPNode.t -> BPNode.t -> bool) (st : store)
    (q : list NodePtr) : Prop :=
  StronglySorted (fun a b => comp (st a) (st b) = false) q.

(** The member functions that [BestFirstSelector] and [DepthFirstSelector]
    define with the same body, written once over the comparator of the
    queue. *)
Module HeapSelector.

Section Compare.
Variable comp : BPNode.t -> BPNode.t -> bool.

Definition add_node (st : store) (node : option NodePtr) (queue_ : PriorityQueue.t)
  : PriorityQueue.t :=
  match node with
  | Some p => if BPNode.can_be_explored (st p) then PriorityQueue.push comp st p queue_
              else queue_
  | None => queue_
  end.

(** The first loop of [prune]: pop everything, keep the explorable handles
    in the order they were popped, count the others. *)
Fixpoint drain (st : store) (queue_ : PriorityQueue.t) (valid : list NodePtr)
    (removed : nat) : list NodePtr * nat :=
  match queue_ with
  | [] => (valid, removed)
  | node :: queue' =>
      if BPNode.can_be_explored (st node)
      then drain st queue' (valid ++ [node]) removed
      else drain st queue' valid (Datatypes.S removed)
  end.

Definition prune (st : store) (queue_ : PriorityQueue.t) : nat * PriorityQueue.t :=
  let '(valid, removed) := drain st queue_ [] O in
  (removed, fold_left (fun q node => PriorityQueue.push comp st node q) valid []).

Definition select_next (st : store) (queue_ : PriorityQueue.t)
  : option NodePtr * PriorityQueue.t :=
  let queue1 := snd (prune st queue_) in
  match PriorityQueue.top queue1 with
  | None => (None, queue1)
  | Some node => (Some node, PriorityQueue.pop queue1)
  end.

Definition peek_next (queue_ : PriorityQueue.t) : option NodePtr :=
  PriorityQueue.top queue_.

Definition get_open_node_ids (st : store) (queue_ : PriorityQueue.t) : list NodeId :=
  map (fun p => BPNode.id (st p)) queue_.

Definition clear (queue_ : PriorityQueue.t) : PriorityQueue.t := [].

End Compare.

End HeapSelector.

Module BestFirstSelector.

Record t := mk { queue_ : PriorityQueue.t }.

(** Min-heap: lower bound is better. *)
Definition CompareByBound (a b : BPNode.t) : bool :=
  Double.gt (BPNode.lower_bound a) (BPNode.lower_bound b).

Definition init : t := mk [].

Definition add_node (st : store) (node : option NodePtr) (s : t) : t :=
  mk (HeapSelector.add_node CompareByBound st node (queue_ s)).

Definition prune (st : store) (s : t) : nat * t :=
  let '(removed, q) := HeapSelector.prune CompareByBound st (queue_ s) in (removed, mk q).

Definition select_next (st : store) (s : t) : option NodePtr * t :=
  let '(node, q) := HeapSelector.select_next CompareByBound st (queue_ s) in (node, mk q).

Definition peek_next (s : t) : option NodePtr := HeapSelector.peek_next (queue_ s).
Definition empty (s : t) : bool := PriorityQueue.empty (queue_ s).
Definition size (s : t) : nat := PriorityQueue.size (queue_ s).

Definition best_bound (st : store) (s : t) : double :=
  match PriorityQueue.top (queue_ s) with
  | None => INF
  | Some node => BPNode.lower_bound (st node)
  end.

Definition get_open_node_ids (st : store) (s : t) : list NodeId :=
  HeapSelector.get_open_node_ids st (queue_ s).

Definition clear (s : t) : t := mk (HeapSelector.clear (queue_ s)).

End BestFirstSelector.

#[global] Instance BestFirst_NodeSelector : Selector.NodeSelector BestFirstSelector.t := {
  Selector.add_node := BestFirstSelector.add_node;
  Selector.select_next := BestFirstSelector.select_next;
  Selector.peek_next := fun _ => BestFirstSelector.peek_next;
  Selector.empty := BestFirstSelector.empty;
  Selector.size := BestFirstSelector.size;
  Selector.prune := BestFirstSelector.prune;
  Selector.on_bound_update := fun _ s => s;
  Selector.best_bound := BestFirstSelector.best_bound;
  Selector.get_open_node_ids := BestFirstSelector.get_open_node_ids;
  Selector.clear := BestFirstSelector.clear
}.

Module DepthFirstSelector.

Record t := mk { queue_ : PriorityQueue.t }.

(** Max-heap for depth: deeper is better; tiebreaker: lower bound. *)
Definition CompareByDepth (a b : BPNode.t) : bool :=
  if negb (BPNode.depth a =? BPNode.depth b)
  then BPNode.depth a <? BPNode.depth b
  else Double.gt (BPNode.lower_bound a) (BPNode.lower_bound b).

Definition init : t := mk [].

Definition add_node (st : store) (node : option NodePtr) (s : t) : t :=
  mk (HeapSelector.add_node CompareByDepth st node (queue_ s)).

Definition prune (st : store) (s : t) : nat * t :=
  let '(removed, q) := HeapSelector.prune CompareByDepth st (queue_ s) in (removed, mk q).

Definition select_next (st : store) (s : t) : option NodePtr * t :=
  let '(node, q) := HeapSelector.select_next CompareByDepth st (queue_ s) in (node, mk q).

Definition peek_next (s : t) : option NodePtr := HeapSelector.peek_next (queue_ s).
Definition empty (s : t) : bool := PriorityQueue.empty (queue_ s).
Definition size (s : t) : nat := PriorityQueue.size (queue_ s).

(** The scan of [best_bound] over a copy of the queue, popped until empty. *)
Fixpoint best_bound_loop (st : store) (copy : PriorityQueue.t) (best : double) : double :=
  match copy with
  | [] => best
  | node :: copy' => best_bound_loop st copy' (Double.min best (BPNode.lower_bound (st node)))
  end.

Definition best_bound (st : store) (s : t) : double :=
  if PriorityQueue.empty (queue_ s) then INF
  else best_bound_loop st (queue_ s) INF.

Definition get_open_node_ids (st : store) (s : t) : list NodeId :=
  HeapSelector.get_open_node_ids st (queue_ s).

Definition clear (s : t) : t := mk (HeapSelector.clear (queue_ s)).

End DepthFirstSelector.

#[global] Instance DepthFirst_NodeSelector : Selector.NodeSelector DepthFirstSelector.t := {
  Selector.add_node := DepthFirstSelector.add_node;
  Selector.select_next := DepthFirstSelector.select_next;
  Selector.peek_next := fun _ => DepthFirstSelector.peek_next;
  Selector.empty := DepthFirstSelector.empty;
  Selector.size := DepthFirstSelector.size;
  Selector.prune := DepthFirstSelector.prune;
  Selector.on_bound_update := fun _ s => s;
  Selector.best_bound := DepthFirstSelector.best_bound;
  Selector.get_open_node_ids := DepthFirstSelector.get_open_node_ids;
  Selector.clear := DepthFirstSelector.clear
}.

(** [std::min_element(first, last, comp)] as the index of the element it
    points to: the first element that no other element is [comp]-less than
    in the left-to-right scan. *)
Fixpoint min_element_loop {A : Type} (comp : A -> A -> bool) (l : list A)
    (i : nat) (smallest : A) (smallest_i : nat) : nat :=
  match l with
  | [] => smallest_i
  | x :: l' =>
      if comp x smallest then min_element_loop comp l' (Datatypes.S i) x i
      else min_element_loop comp l' (Datatypes.S i) smallest smallest_i
  end.

Definition min_element {A : Type} (comp : A -> A -> bool) (l : list A) : option nat :=
  match l with
  | [] => None
  | x :: l' => Some (min_element_loop comp l' 1%nat x O)
  end.

Module BestEstimateSelector.

Record t := mk {
  nodes_ : list NodePtr;
  estimate_weight_ : double;
  global_upper_bound_ : double;
  max_depth_ : Z
}.

Definition init (estimate_weight : double) : t := mk [] estimate_weight INF 1.

Definition add_node (st : store) (node : option NodePtr) (s : t) : t :=
  match node with
  | Some p =>
      if BPNode.can_be_explored (st p)
      then mk (nodes_ s ++ [p]) (estimate_weight_ s) (global_upper_bound_ s)
              (Z.max (max_depth_ s) (BPNode.depth (st p)))
      else s
  | None => s
  end.

Definition estimate (st : store) (s : t) (node : NodePtr) : double :=
  let lb := BPNode.lower_bound (st node) in
  if Double.eq (global_upper_bound_ s) INF
  then (lb - estimate_weight_ s * double_of_Z (BPNode.depth (st node)))%float
  else
    let depth_ratio :=
      (double_of_Z (BPNode.depth (st node)) / double_of_Z (Z.max 1 (max_depth_ s)))%float in
    let gap := (global_upper_bound_ s - lb)%float in
    (lb + estimate_weight_ s * (1 - depth_ratio) * gap)%float.

Definition prune (st : store) (s : t) : nat * t :=
  let kept := filter (fun n => BPNode.can_be_explored (st n) = true) (nodes_ s) in
  ((length (nodes_ s) - length kept)%nat,
   mk kept (estimate_weight_ s) (global_upper_bound_ s) (max_depth_ s)).

Definition peek_next (st : store) (s : t) : option NodePtr :=
  match min_element (fun a b => Double.lt (estimate st s a) (estimate st s b)) (nodes_ s) with
  | Some best_it => nodes_ s !! best_it
  | None => None
  end.

Definition select_next (st : store) (s : t) : option NodePtr * t :=
  let s1 := snd (prune st s) in
  match min_element (fun a b => Double.lt (estimate st s1 a) (estimate st s1 b)) (nodes_ s1) with
  | Some best_it =>
      (nodes_ s1 !! best_it,
       mk (delete best_it (nodes_ s1)) (estimate_weight_ s1) (global_upper_bound_ s1)
          (max_depth_ s1))
  | None => (None, s1)
  end.

Definition empty (s : t) : bool := match nodes_ s with [] => true | _ => false end.
Definition size (s : t) : nat := length (nodes_ s).

Definition on_bound_update (new_bound : double) (s : t) : t :=
  mk (nodes_ s) (estimate_weight_ s) new_bound (max_depth_ s).

Definition best_bound (st : store) (s : t) : double :=
  match nodes_ s with
  | [] => INF
  | _ => fold_left (fun best node => Double.min best (BPNode.lower_bound (st node)))
                   (nodes_ s) INF
  end.

Definition get_open_node_ids (st : store) (s : t) : list NodeId :=
  map (fun p => BPNode.id (st p)) (nodes_ s).

Definition clear (s : t) : t :=
  mk [] (estimate_weight_ s) (global_upper_bound_ s) (max_depth_ s).

End BestEstimateSelector.

#[global] Instance BestEstimate_NodeSelector : Selector.NodeSelector BestEstimateSelector.t := {
  Selector.add_node := BestEstimateSelector.add_node;
  Selector.select_next := BestEstimateSelector.select_next;
  Selector.peek_next := BestEstimateSelector.peek_next;
  Selector.empty := BestEstimateSelector.empty;
  Selector.size := BestEstimateSelector.size;
  Selector.prune := BestEstimateSelector.prune;
  Selector.on_bound_update := BestEstimateSelector.on_bound_update;
  Selector.best_bound := BestEstimateSelector.best_bound;
  Selector.get_open_node_ids := BestEstimateSelector.get_open_node_ids;
  Selector.clear := BestEstimateSelector.clear
}.

Module HybridSelector.

Record t := mk {
  best_first_ : BestFirstSelector.t;
  depth_first_ : DepthFirstSelector.t;
  dive_frequency_ : Z;
  dive_depth_ : Z;
  nodes_since_dive_ : Z;
  current_dive_depth_ : Z;
  diving_ : bool
}.

Definition init (dive_frequency dive_depth : Z) : t :=
  mk BestFirstSelector.init DepthFirstSelector.init dive_frequency dive_depth 0 0 false.

Definition add_node (st : store) (node : option NodePtr) (s : t) : t :=
  match node with
  | Some p =>
      if BPNode.can_be_explored (st p)
      then mk (BestFirstSelector.add_node st node (best_first_ s))
              (DepthFirstSelector.add_node st node (depth_first_ s))
              (dive_frequency_ s) (dive_depth_ s) (nodes_since_dive_ s)
              (current_dive_depth_ s) (diving_ s)
      else s
  | None => s
  end.

(** The override of [add_nodes]. *)
Definition add_nodes (st : store) (nodes : list (option NodePtr)) (s : t) : t :=
  fold_left
    (fun s node =>
       match node with
       | Some p =>
           if BPNode.can_be_explored (st p)
           then mk (BestFirstSelector.add_node st node (best_first_ s))
                   (DepthFirstSelector.add_node st node (depth_first_ s))
                   (dive_frequency_ s) (dive_depth_ s) (nodes_since_dive_ s)
                   (current_dive_depth_ s) (diving_ s)
           else s
       | None => s
       end)
    nodes s.

Definition select_next (st : store) (s : t) : option NodePtr * t :=
  (* Decide whether to dive *)
  let start_dive := negb (diving_ s) && (dive_frequency_ s <=? nodes_since_dive_ s) in
  let diving := if start_dive then true else diving_ s in
  let depth0 := if start_dive then 0 else current_dive_depth_ s in
  let from_best_first (df : DepthFirstSelector.t) (depth : Z) :=
    (* Depth-first is empty or not diving: serve from best-first *)
    let df' := snd (DepthFirstSelector.prune st df) in
    let '(node, bf') := BestFirstSelector.select_next st (best_first_ s) in
    (node, mk bf' df' (dive_frequency_ s) (dive_depth_ s) (nodes_since_dive_ s + 1)
              depth false) in
  if diving
  then
    match DepthFirstSelector.select_next st (depth_first_ s) with
    | (Some node, df') =>
        let depth1 := depth0 + 1 in
        let stop := dive_depth_ s <=? depth1 in
        let bf' := snd (BestFirstSelector.prune st (best_first_ s)) in
        (Some node,
         mk bf' df' (dive_frequency_ s) (dive_depth_ s)
            (if stop then 0 else nodes_since_dive_ s) depth1 (if stop then false else true))
    | (None, df') => from_best_first df' depth0
    end
  else from_best_first (depth_first_ s) depth0.

Definition peek_next (s : t) : option NodePtr :=
  if diving_ s then DepthFirstSelector.peek_next (depth_first_ s)
  else BestFirstSelector.peek_next (best_first_ s).

Definition empty (s : t) : bool := BestFirstSelector.empty (best_first_ s).
Definition size (s : t) : nat := BestFirstSelector.size (best_first_ s).

Definition prune (st : store) (s : t) : nat * t :=
  let '(removed1, bf') := BestFirstSelector.prune st (best_first_ s) in
  let '(removed2, df') := DepthFirstSelector.prune st (depth_first_ s) in
  (Nat.max removed1 removed2,
   mk bf' df' (dive_frequency_ s) (dive_depth_ s) (nodes_since_dive_ s)
      (current_dive_depth_ s) (diving_ s)).

Definition best_bound (st : store) (s : t) : double :=
  BestFirstSelector.best_bound st (best_first_ s).

Definition get_open_node_ids (st : store) (s : t) : list NodeId :=
  BestFirstSelector.get_open_node_ids st (best_first_ s).

Definition clear (s : t) : t :=
  mk (BestFirstSelector.clear (best_first_ s)) (DepthFirstSelector.clear (depth_first_ s))
     (dive_frequency_ s) (dive_depth_ s) 0 0 false.

End HybridSelector.

#[global] Instance Hybrid_NodeSelector : Selector.NodeSelector HybridSelector.t := {
  Selector.add_node := HybridSelector.add_node;
  Selector.select_next := HybridSelector.select_next;
  Selector.peek_next := fun _ => HybridSelector.peek_next;
  Selector.empty := HybridSelector.empty;
  Selector.size := HybridSelector.size;
  Selector.prune := HybridSelector.prune;
  Selector.on_bound_update := fun _ s => s;
  Selector.best_bound := HybridSelector.best_bound;
  Selector.get_open_node_ids := HybridSelector.get_open_node_ids;
  Selector.clear := HybridSelector.clear
}.

(** ** node_pool.hpp *)

(** [size_t] arithmetic: unsigned 64-bit, wrapping. *)
Definition size_t_wrap (z : Z) : Z := z mod 2 ^ 64.

Module NodePool.

Definition DEFAULT_CHUNK_SIZE : Z := 1024.

Section Pool.

(** The pooled type [T]: [T_default] is the value of the slots of a new
    chunk ([std::make_unique<T[]>] value-initialises them), [sizeof_T] is
    [sizeof(T)]. *)
Variable T : Type.
Variable T_default : T.
Variable sizeof_T : Z.

Record t := mk {
  chunk_size_ : Z;
  next_in_chunk_ : Z;
  total_allocated_ : Z;
  chunks_ : list (list T)
}.

(** A [T*] into the pool: the number of the chunk and the index in it. *)
Definition ptr : Type := Z * Z.

Definition allocate_chunk (p : t) : t :=
  mk (chunk_size_ p) 0 (total_allocated_ p)
     (chunks_ p ++ [replicate (Z.to_nat (chunk_size_ p)) T_default]).

(** [NodePool(chunk_size)] *)
Definition new (chunk_size : Z) : t := allocate_chunk (mk chunk_size 0 0 []).

(** [allocate()]: the pointer returned and the pool afterwards. *)
Definition allocate (p : t) : ptr * t :=
  let p1 := if chunk_size_ p <=? next_in_chunk_ p then allocate_chunk p else p in
  let node := (Z.of_nat (length (chunks_ p1)) - 1, next_in_chunk_ p1) in
  (node,
   mk (chunk_size_ p1) (size_t_wrap (next_in_chunk_ p1 + 1))
      (size_t_wrap (total_allocated_ p1 + 1)) (chunks_ p1)).

Definition size (p : t) : Z := total_allocated_ p.

Definition num_chunks (p : t) : Z := Z.of_nat (length (chunks_ p)).

Definition memory_usage (p : t) : Z :=
  size_t_wrap (size_t_wrap (Z.of_nat (length (chunks_ p)) * chunk_size_ p) * sizeof_T).

Definition clear (p : t) : t := allocate_chunk (mk (chunk_size_ p) 0 0 []).

(** The slot a pointer designates, if it lies within a chunk of the pool. *)
Definition slot (p : t) (node : ptr) : option T :=
  if (fst node <? 0) || (snd node <? 0) then None
  else chunk ← chunks_ p !! Z.to_nat (fst node); chunk !! Z.to_nat (snd node).

(** [allocate()] called [n] times in a row: the pointers returned, in
    order, and the pool afterwards. *)
Fixpoint allocate_n (n : nat) (p : t) : list ptr * t :=
  match n with
  | O => ([], p)
  | S n' =>
      let '(node, p1) := allocate p in
      let '(rest, p2) := allocate_n n' p1 in
      (node :: rest, p2)
  end.

End Pool.

Arguments chunk_size_ {T}.
Arguments next_in_chunk_ {T}.
Arguments total_allocated_ {T}.
Arguments chunks_ {T}.
Arguments allocate_chunk {T}.
Arguments new {T}.
Arguments allocate {T}.
Arguments size {T}.
Arguments num_chunks {T}.
Arguments memory_usage {T}.
Arguments clear {T}.
Arguments slot {T}.
Arguments allocate_n {T}.

End NodePool.

(** ** The names of the enumerators (node.hpp)

    The [default] branch of the two [switch] statements is taken by no
    enumerator. *)

Definition node_status_to_string (status : NodeStatus) : string :=
  match status with
  | PENDING => "PENDING"
  | PROCESSING => "PROCESSING"
  | BRANCHED => "BRANCHED"
  | PRUNED_BOUND => "PRUNED_BOUND"
  | PRUNED_INFEASIBLE => "PRUNED_INFEASIBLE"
  | INTEGER => "INTEGER"
  | FATHOMED => "FATHOMED"
  end.

Definition branch_type_to_string (type : BranchType) : string :=
  match type with
  | VARIABLE => "VARIABLE"
  | RYAN_FOSTER => "RYAN_FOSTER"
  | ARC => "ARC"
  | RESOURCE => "RESOURCE"
  | CUSTOM => "CUSTOM"
  end.

(** ** The selector factory (selection.hpp)

    A [std::unique_ptr<NodeSelector>] owns a selector of one of the four
    classes; a call through it goes to the member function of that class. *)

Inductive unique_ptr_NodeSelector :=
| make_BestFirstSelector (s : BestFirstSelector.t)
| make_DepthFirstSelector (s : DepthFirstSelector.t)
| make_BestEstimateSelector (s : BestEstimateSelector.t)
| make_HybridSelector (s : HybridSelector.t).

Definition create_selector (name : string) : unique_ptr_NodeSelector :=
  if String.eqb name "best_first" || String.eqb name "BestFirst"
  then make_BestFirstSelector BestFirstSelector.init
  else if String.eqb name "depth_first" || String.eqb name "DepthFirst"
  then make_DepthFirstSelector DepthFirstSelector.init
  else if String.eqb name "best_estimate" || String.eqb name "BestEstimate"
  then make_BestEstimateSelector (BestEstimateSelector.init 0.5%float)
  else if String.eqb name "hybrid" || String.eqb name "Hybrid"
  then make_HybridSelector (HybridSelector.init 5 10)
  else make_BestFirstSelector BestFirstSelector.init.

Module VirtualSelector.

Definition add_node (st : store) (node : option NodePtr) (s : unique_ptr_NodeSelector)
  : unique_ptr_NodeSelector :=
  match s with
  | make_BestFirstSelector s => make_BestFirstSelector (Selector.add_node st node s)
  | make_DepthFirstSelector s => make_DepthFirstSelector (Selector.add_node st node s)
  | make_BestEstimateSelector s => make_BestEstimateSelector (Selector.add_node st node s)
  | make_HybridSelector s => make_HybridSelector (Selector.add_node st node s)
  end.

Definition add_nodes (st : store) (nodes : list (option NodePtr))
    (s : unique_ptr_NodeSelector) : unique_ptr_NodeSelector :=
  match s with
  | make_BestFirstSelector s => make_BestFirstSelector (Selector.add_nodes st nodes s)
  | make_DepthFirstSelector s => make_DepthFirstSelector (Selector.add_nodes st nodes s)
  | make_BestEstimateSelector s => make_BestEstimateSelector (Selector.add_nodes st nodes s)
  | make_HybridSelector s => make_HybridSelector (HybridSelector.add_nodes st nodes s)
  end.

Definition select_next (st : store) (s : unique_ptr_NodeSelector)
  : option NodePtr * unique_ptr_NodeSelector :=
  match s with
  | make_BestFirstSelector s =>
      let '(node, s') := Selector.select_next st s in (node, make_BestFirstSelector s')
  | make_DepthFirstSelector s =>
      let '(node, s') := Selector.select_next st s in (node, make_DepthFirstSelector s')
  | make_BestEstimateSelector s =>
      let '(node, s') := Selector.select_next st s in (node, make_BestEstimateSelector s')
  | make_HybridSelector s =>
      let '(node, s') := Selector.select_next st s in (node, make_HybridSelector s')
  end.

Definition peek_next (st : store) (s : unique_ptr_NodeSelector) : option NodePtr :=
  match s with
  | make_BestFirstSelector s => Selector.peek_next st s
  | make_DepthFirstSelector s => Selector.peek_next st s
  | make_BestEstimateSelector s => Selector.peek_next st s
  | make_HybridSelector s => Selector.peek_next st s
  end.

Definition empty (s : unique_ptr_NodeSelector) : bool :=
  match s with
  | make_BestFirstSelector s => Selector.empty s
  | make_DepthFirstSelector s => Selector.empty s
  | make_BestEstimateSelector s => Selector.empty s
  | make_HybridSelector s => Selector.empty s
  end.

Definition size (s : unique_ptr_NodeSelector) : nat :=
  match s with
  | make_BestFirstSelector s => Selector.size s
  | make_DepthFirstSelector s => Selector.size s
  | make_BestEstimateSelector s => Selector.size s
  | make_HybridSelector s => Selector.size s
  end.

Definition prune (st : store) (s : unique_ptr_NodeSelector)
  : nat * unique_ptr_NodeSelector :=
  match s with
  | make_BestFirstSelector s =>
      let '(removed, s') := Selector.prune st s in (removed, make_BestFirstSelector s')
  | make_DepthFirstSelector s =>
      let '(removed, s') := Selector.prune st s in (removed, make_DepthFirstSelector s')
  | make_BestEstimateSelector s =>
      let '(removed, s') := Selector.prune st s in (removed, make_BestEstimateSelector s')
  | make_HybridSelector s =>
      let '(removed, s') := Selector.prune st s in (removed, make_HybridSelector s')
  end.

Definition on_bound_update (new_bound : double) (s : unique_ptr_NodeSelector)
  : unique_ptr_NodeSelector :=
  match s with
  | make_BestFirstSelector s => make_BestFirstSelector (Selector.on_bound_update new_bound s)
  | make_DepthFirstSelector s => make_DepthFirstSelector (Selector.on_bound_update new_bound s)
  | make_BestEstimateSelector s =>
      make_BestEstimateSelector (Selector.on_bound_update new_bound s)
  | make_HybridSelector s => make_HybridSelector (Selector.on_bound_update new_bound s)
  end.

Definition best_bound (st : store) (s : unique_ptr_NodeSelector) : double :=
  match s with
  | make_BestFirstSelector s => Selector.best_bound st s
  | make_DepthFirstSelector s => Selector.best_bound st s
  | make_BestEstimateSelector s => Selector.best_bound st s
  | make_HybridSelector s => Selector.best_bound st s
  end.

Definition get_open_node_ids (st : store) (s : unique_ptr_NodeSelector) : list NodeId :=
  match s with
  | make_BestFirstSelector s => Selector.get_open_node_ids st s
  | make_DepthFirstSelector s => Selector.get_open_node_ids st s
  | make_BestEstimateSelector s => Selector.get_open_node_ids st s
  | make_HybridSelector s => Selector.get_open_node_ids st s
  end.

Definition clear (s : unique_ptr_NodeSelector) : unique_ptr_NodeSelector :=
  match s with
  | make_BestFirstSelector s => make_BestFirstSelector (Selector.clear s)
  | make_DepthFirstSelector s => make_DepthFirstSelector (Selector.clear s)
  | make_BestEstimateSelector s => make_BestEstimateSelector (Selector.clear s)
  | make_HybridSelector s => make_HybridSelector (Selector.clear s)
  end.

End VirtualSelector.

#[global] Instance Virtual_NodeSelector : Selector.NodeSelector unique_ptr_NodeSelector := {
  Selector.add_node := VirtualSelector.add_node;
  Selector.select_next := VirtualSelector.select_next;
  Selector.peek_next := VirtualSelector.peek_next;
  Selector.empty := VirtualSelector.empty;
  Selector.size := VirtualSelector.size;
  Selector.prune := VirtualSelector.prune;
  Selector.on_bound_update := VirtualSelector.on_bound_update;
  Selector.best_bound := VirtualSelector.best_bound;
  Selector.get_open_node_ids := VirtualSelector.get_open_node_ids;
  Selector.clear := VirtualSelector.clear
}.

(** ** A selector in the loop of a driver

    The driver asks the selector for a node, takes the node in hand, which
    gives it a status other than [PENDING] ([set_status] or
    [mark_processed]), and asks again. *)

(** The nodes after [set_status(status)] on the node behind [p]. *)
Definition take (status : NodeStatus) (p : NodePtr) (st : store) : store :=
  fun q => if q =? p then BPNode.set_status status (st q) else st q.

(** [select_next], each node returned being taken in hand before the next
    call; at most [fuel] calls, or until [select_next] returns null: the
    handles returned, in order, and the selector afterwards. *)
Fixpoint select_and_take {S : Type} `{Selector.NodeSelector S} (status : NodeStatus)
    (fuel : nat) (st : store) (s : S) : list NodePtr * S :=
  match fuel with
  | O => ([], s)
  | Datatypes.S fuel' =>
      match Selector.select_next st s with
      | (Some node, s') =>
          let '(rest, s'') := select_and_take status fuel' (take status node st) s' in
          (node :: rest, s'')
      | (None, s') => ([], s')
      end
  end.


(** ** Vocabulary of the proofs *)

(** The value a counter gains at a node: 1 if the condition holds. *)
Definition indicator (b : bool) : Z := if b then 1 else 0.

#[global] Arguments indicator : simpl never.
#[global] Arguments non_terminal : simpl never.
#[global] Arguments terminal : simpl never.
#[global] Arguments has_status : simpl never.

(** The node [create_child] registers: constructed, then given the parent's
    decisions and bounds. *)
Definition new_child (tr : BPTree.t) (p : BPNode.t) (decision : BranchingDecision.t)
  : BPNode.t :=
  BPNode.set_upper_bound (BPNode.upper_bound p)
    (BPNode.set_lower_bound (BPNode.lower_bound p)
       (BPNode.set_inherited_decisions (BPNode.all_decisions p)
          (BPNode.child (BPTree.next_id_ tr) (BPNode.id p) (BPNode.depth p + 1) decision))).

(** Every node registered before is still registered, with its status. *)
Definition keeps_status (tr tr' : BPTree.t) : Prop :=
  forall (k : NodeId) (n : BPNode.t),
    BPTree.nodes_ tr !! k = Some n ->
    exists n' : BPNode.t,
      BPTree.nodes_ tr' !! k = Some n' /\ BPNode.status n' = BPNode.status n.

(** [n'] is [n] with the same identity, depth and inherited decisions, and,
    if [n] has a child, the same local decisions and still a child. *)
Definition keeps_decisions (n n' : BPNode.t) : Prop :=
  BPNode.id n' = BPNode.id n
  /\ BPNode.parent_id n' = BPNode.parent_id n
  /\ BPNode.depth n' = BPNode.depth n
  /\ BPNode.inherited_decisions n' = BPNode.inherited_decisions n
  /\ (BPNode.has_children n = true ->
      BPNode.has_children n' = true
      /\ BPNode.local_decisions n' = BPNode.local_decisions n).

Definition decisions_kept (m m' : gmap Z BPNode.t) : Prop :=
  forall k : NodeId,
    match m !! k, m' !! k with
    | Some n, Some n' => keeps_decisions n n'
    | None, None => True
    | _, _ => False
    end.

(** The contract of [best_bound] for a selector [S] whose handles are
    [held s]: it is the minimum lower bound over all handles held, in the
    states [ok]; and right after [prune] it is the minimum over the
    explorable handles. *)
Definition best_bound_spec {S : Type} `{Selector.NodeSelector S} (held : S -> list NodePtr)
    (ok : store -> S -> Prop) : Prop :=
  forall (st : store) (s : S),
    bounds_not_nan st (held s) ->
    (ok st s -> is_min_of (Selector.best_bound st s) (bounds_of st (held s)))
    /\ is_min_of (Selector.best_bound st (snd (Selector.prune st s)))
         (bounds_of st (explorable st (held s))).

(** [select_next] over and over, on the queue alone. *)
Fixpoint heap_select_all (comp : BPNode.t -> BPNode.t -> bool) (st : store)
    (fuel : nat) (q : PriorityQueue.t)
  : list NodePtr * PriorityQueue.t :=
  match fuel with
  | O => ([], q)
  | S fuel' =>
      match HeapSelector.select_next comp st q with
      | (Some node, q') =>
          let '(rest, q'') := heap_select_all comp st fuel' q' in (node :: rest, q'')
      | (None, q') => ([], q')
      end
  end.



(** [std::is_heap(c.begin(), c.end(), comp)] for the keys the nodes have in
    [st]: no element is [comp]-greater than its parent in the implicit
    binary tree of the container. *)
Definition is_heap (comp : BPNode.t -> BPNode.t -> bool) (st : store)
    (c : list NodePtr) : Prop :=
  forall (i : nat) (parent child : NodePtr),
    (0 < i)%nat ->
    c !! ((i - 1) / 2)%nat = Some parent ->
    c !! i = Some child ->
    comp (st parent) (st child) = false.
(** ** Vocabulary of the further properties *)

(** The state of a pool of chunk size [c] after [k] allocations: the chunks
    are full but the last, which has [next_in_chunk_] slots in use. *)
Definition pool_after {T : Type} (T_default : T) (c k : Z) (p : NodePool.t T) : Prop :=
  NodePool.chunk_size_ p = c
  /\ NodePool.total_allocated_ p = k
  /\ (Z.of_nat (length (NodePool.chunks_ p)) - 1) * c + NodePool.next_in_chunk_ p = k
  /\ 1 <= Z.of_nat (length (NodePool.chunks_ p))
  /\ 0 <= NodePool.next_in_chunk_ p <= c
  /\ (k = 0 \/ 1 <= NodePool.next_in_chunk_ p)
  /\ Forall (fun chunk => chunk = replicate (Z.to_nat c) T_default) (NodePool.chunks_ p).

(** What every sequence of calls keeps true of the registry of nodes and of
    the statistics that follow it: the registered identifiers are
    0, ..., [next_id_] - 1, as many as [nodes_created] says; the root handle
    is the node registered under 0; [max_depth] is the depth of the deepest
    node; [best_lower_bound] has its initial value. *)
Record well_formed (tr : BPTree.t) : Prop := {
  wf_ids :
    forall k : NodeId, is_Some (BPTree.nodes_ tr !! k) <-> 0 <= k < BPTree.next_id_ tr;
  wf_size : BPTree.num_nodes tr = BPTree.next_id_ tr;
  wf_created : TreeStats.nodes_created (BPTree.stats tr) = BPTree.next_id_ tr;
  wf_root : BPTree.root tr = Some 0;
  wf_depth_le :
    forall (k : NodeId) (n : BPNode.t),
      BPTree.nodes_ tr !! k = Some n ->
      BPNode.depth n <= TreeStats.max_depth (BPTree.stats tr);
  wf_depth_max :
    exists (k : NodeId) (n : BPNode.t),
      BPTree.nodes_ tr !! k = Some n
      /\ BPNode.depth n = TreeStats.max_depth (BPTree.stats tr);
  wf_best_lower : TreeStats.best_lower_bound (BPTree.stats tr) = NEG_INF
}.

(** [n'] is a later state of the node [n]: same parent and depth, and the
    children and local decisions of [n] followed by those added since. *)
Definition node_grows (n n' : BPNode.t) : Prop :=
  BPNode.parent_id n' = BPNode.parent_id n
  /\ BPNode.depth n' = BPNode.depth n
  /\ BPNode.children n `prefix_of` BPNode.children n'
  /\ BPNode.local_decisions n `prefix_of` BPNode.local_decisions n'.

(** Every node of [tr] is a node of [tr'], in a later state. *)
Definition tree_grows (tr tr' : BPTree.t) : Prop :=
  forall (k : NodeId) (n : BPNode.t),
    BPTree.nodes_ tr !! k = Some n ->
    exists n' : BPNode.t, BPTree.nodes_ tr' !! k = Some n' /\ node_grows n n'.

(** The [n] identifiers from [k] on. *)
Definition ids_from (k : NodeId) (n : nat) : list NodeId :=
  (fun i : nat => k + Z.of_nat i) <$> seq 0 n.

(** The node [create_child] makes for a parent [p] and a decision, under
    the identifier [c]. *)
Definition child_of (c : NodeId) (p : BPNode.t) (decision : BranchingDecision.t)
  : BPNode.t :=
  BPNode.mk c (BPNode.id p) (BPNode.depth p + 1)
    (BPNode.lower_bound p) (BPNode.upper_bound p) INF PENDING false
    (BPNode.all_decisions p) [decision] [] [] [].

(** [add_child] for each identifier of [cs], in order. *)
Definition add_children (cs : list NodeId) (p : BPNode.t) : BPNode.t :=
  fold_left (fun n c => BPNode.add_child c n) cs p.

(** The pointers of [nodes] that are not null. *)
Definition handles (nodes : list (option NodePtr)) : list NodePtr := omap id nodes.


(** ** Example states

    Concrete nodes, trees and stores used by the examples below; several are
    the fixtures of [tests/cpp/test_node.cpp] and [tests/cpp/test_tree.cpp]. *)

(** [test_node_bounds]: bounds 90 and 100. *)
Definition ex_node_90_100 : BPNode.t :=
  BPNode.set_upper_bound 100%float (BPNode.set_lower_bound 90%float BPNode.root).

(** Both bounds zero. *)
Definition ex_node_0_0 : BPNode.t :=
  BPNode.set_upper_bound 0%float (BPNode.set_lower_bound 0%float BPNode.root).

(** [test_prune_by_bound] of test_node.cpp: a pending node with lower bound 100. *)
Definition ex_node_lb_100 : BPNode.t := BPNode.set_lower_bound 100%float BPNode.root.

(** A node that already holds an integer solution, with lower bound 100. *)
Definition ex_node_integer : BPNode.t := BPNode.set_status INTEGER ex_node_lb_100.

(** [test_incumbent]: the root gets an integer solution of value 100. *)
Definition ex_root_integer : BPNode.t :=
  BPNode.set_is_integer true (BPNode.set_lp_value 100%float (BPNode.set_id 0 BPNode.root)).

Definition ex_tree_root_integer : BPTree.t :=
  BPTree.with_nodes {[ 0 := ex_root_integer ]} (BPTree.new true).

Definition ex_d1 : BranchingDecision.t := BranchingDecision.variable_branch 0 1%float true.
Definition ex_d2 : BranchingDecision.t := BranchingDecision.ryan_foster 1 2 true.
Definition ex_d3 : BranchingDecision.t := BranchingDecision.variable_branch 0 2%float false.

(** A pending node of a given depth and lower bound, and the same node once
    it is being processed. *)
Definition ex_pending (depth : Z) (lb : double) : BPNode.t :=
  BPNode.mk 0 BPNode.INVALID_ID depth lb INF INF PENDING false [] [] [] [] [].

Definition ex_processing (depth : Z) (lb : double) : BPNode.t :=
  BPNode.set_status PROCESSING (ex_pending depth lb).

(** Scenario E4: three pending nodes with lower bounds 70, 50 and 60, under
    the handles 1, 2 and 3. *)
Definition ex_store_E4 : store :=
  fun p => if p =? 1 then ex_pending 1 70%float
           else if p =? 2 then ex_pending 1 50%float
           else ex_pending 1 60%float.

(** Scenario E5: nodes (depth 1, bound 10), (depth 2, bound 30) and
    (depth 2, bound 20), under the handles 1, 2 and 3. *)
Definition ex_store_E5 : store :=
  fun p => if p =? 1 then ex_pending 1 10%float
           else if p =? 2 then ex_pending 2 30%float
           else ex_pending 2 20%float.

(** One pending node of lower bound 10 under every handle, and the same
    store once the node is being processed. *)
Definition ex_store_pending : store := fun _ => ex_pending 1 10%float.
Definition ex_store_processing : store := fun _ => ex_processing 1 10%float.

(** Scenario E3 ([test_prune_by_bound] of test_tree.cpp), followed by the
    second child being processed and fathomed. *)
Definition ex_calls_E3 : list tree_call :=
  [T_create_children 0 [ex_d1; ex_d3];
   T_node 1 (N_set_lower_bound 100%float);
   T_node 2 (N_set_lower_bound 50%float);
   T_set_global_upper_bound 75%float;
   T_prune_by_bound;
   T_node 2 (N_set_status PROCESSING);
   T_mark_processed 2 FATHOMED].

(** Scenario E2 ([test_inherited_decisions]) continued: a child of the root,
    a grandchild, a further local decision on the grandchild while it is a
    leaf, and then a child of the grandchild. *)
Definition ex_calls_E2 : list tree_call :=
  [T_create_child 0 ex_d1;
   T_create_child 1 ex_d2;
   T_node 2 (N_add_local_decision ex_d3);
   T_create_child 2 ex_d1].

(** ** Further example states *)

(** The tree of scenario E3 before pruning: the root branched into the
    nodes 1 (lower bound 100) and 2 (lower bound 50), global upper bound
    75. *)
Definition ex_calls_E3_bounds : list tree_call :=
  [T_create_children 0 [ex_d1; ex_d3];
   T_node 1 (N_set_lower_bound 100%float);
   T_node 2 (N_set_lower_bound 50%float);
   T_set_global_upper_bound 75%float].

Definition ex_tree_E3 : BPTree.t :=
  Eval vm_compute in
    match run_calls any_call (BPTree.new true) ex_calls_E3_bounds with
    | Some tr => tr
    | None => BPTree.new true
    end.

(** A hybrid selector that dives at once ([dive_frequency] 0), filled with
    the nodes of scenario E5. *)
Definition ex_hybrid_E5 : HybridSelector.t :=
  Selector.add_nodes ex_store_E5 [Some 1; Some 2; Some 3] (HybridSelector.init 0 10).


(** * Properties *)

(** ** Order facts about doubles

    Derived from the specification of the primitive comparisons
    ([ltb_spec], [leb_spec], [eqb_spec]) over [SFcompare]. *)

Ltac sf_norm :=
  repeat match goal with
  | |- context [PosDef.Pos.compare_cont Eq ?a ?b] =>
      change (PosDef.Pos.compare_cont Eq a b) with (Pos.compare a b) in *
  | H : context [PosDef.Pos.compare_cont Eq ?a ?b] |- _ =>
      change (PosDef.Pos.compare_cont Eq a b) with (Pos.compare a b) in *
  end.

Ltac sf_cmp :=
  sf_norm;
  repeat match goal with
  | |- context [Z.compare ?a ?b] => destruct (Z.compare_spec a b)
  | H : context [Z.compare ?a ?b] |- _ => destruct (Z.compare_spec a b)
  end;
  repeat match goal with
  | |- context [Pos.compare ?a ?b] => destruct (Pos.compare_spec a b)
  | H : context [Pos.compare ?a ?b] |- _ => destruct (Pos.compare_spec a b)
  end; simpl in *; try congruence; try lia.

Ltac sf_cases x := destruct x as [[]|[]| |[] ? ?].

Lemma SFcompare_lt_trans x y z :
  SFcompare x y = Some Lt -> SFcompare y z = Some Lt -> SFcompare x z = Some Lt.
Proof.
  sf_cases x; sf_cases y; sf_cases z; simpl; try congruence; intros; sf_cmp.
Qed.

Lemma SFcompare_antisym x y c :
  SFcompare x y = Some c -> SFcompare y x = Some (CompOpp c).
Proof.
  sf_cases x; sf_cases y; simpl; try congruence; intros H;
    injection H as <-; try reflexivity; sf_cmp.
Qed.

Lemma SFcompare_total x y :
  x <> S754_nan -> y <> S754_nan -> exists c, SFcompare x y = Some c.
Proof.
  sf_cases x; sf_cases y; simpl; try congruence; eauto.
Qed.

Lemma SFcompare_le_trans x y z c1 c2 :
  SFcompare x y = Some c1 -> c1 <> Gt -> SFcompare y z = Some c2 -> c2 <> Gt ->
  exists c3, SFcompare x z = Some c3 /\ c3 <> Gt.
Proof.
  sf_cases x; sf_cases y; sf_cases z; simpl; try congruence;
    intros H1 N1 H2 N2; injection H1 as <-; injection H2 as <-;
    (eexists; split; [reflexivity|]); sf_cmp.
Qed.

Lemma SFcompare_refl x : x <> S754_nan -> SFcompare x x = Some Eq.
Proof.
  sf_cases x; simpl; try congruence; intros; sf_norm;
    rewrite ?Z.compare_refl, ?Pos.compare_refl; reflexivity.
Qed.

Module DoubleFacts.

Lemma is_nan_spec x : Double.is_nan x = false <-> Prim2SF x <> S754_nan.
Proof.
  unfold Double.is_nan, PrimFloat.is_nan. rewrite FloatAxioms.eqb_spec. unfold SFeqb. split.
  - intros H E. rewrite E in H. discriminate.
  - intros H. rewrite SFcompare_refl by exact H. reflexivity.
Qed.

Lemma lt_spec a b : Double.lt a b = true <-> SFcompare (Prim2SF a) (Prim2SF b) = Some Lt.
Proof.
  unfold Double.lt. rewrite FloatAxioms.ltb_spec. unfold SFltb.
  destruct (SFcompare _ _) as [[]|]; split; congruence.
Qed.

Lemma le_spec a b :
  Double.le a b = true <->
  exists c, SFcompare (Prim2SF a) (Prim2SF b) = Some c /\ c <> Gt.
Proof.
  unfold Double.le. rewrite FloatAxioms.leb_spec. unfold SFleb.
  destruct (SFcompare _ _) as [[]|]; split;
    try (intros _; eexists; split; [reflexivity | congruence]);
    try congruence; intros (c & E & N); congruence.
Qed.

Lemma lt_trans a b c :
  Double.lt a b = true -> Double.lt b c = true -> Double.lt a c = true.
Proof. rewrite !lt_spec. apply SFcompare_lt_trans. Qed.

Lemma lt_asym a b : Double.lt a b = true -> Double.lt b a = false.
Proof.
  rewrite lt_spec. intros H. apply SFcompare_antisym in H.
  destruct (Double.lt b a) eqn:E; [|reflexivity].
  apply lt_spec in E. simpl in H. congruence.
Qed.

Lemma lt_irrefl a : Double.lt a a = false.
Proof.
  destruct (Double.lt a a) eqn:E; [|reflexivity].
  pose proof (lt_asym _ _ E). congruence.
Qed.

Lemma lt_le a b : Double.lt a b = true -> Double.le a b = true.
Proof.
  rewrite lt_spec, le_spec. intros H. exists Lt. split; [exact H | congruence].
Qed.

Lemma not_lt_le a b :
  Double.is_nan a = false -> Double.is_nan b = false ->
  Double.lt b a = false -> Double.le a b = true.
Proof.
  rewrite !is_nan_spec. intros Ha Hb H.
  destruct (SFcompare_total _ _ Ha Hb) as [c Hc].
  apply le_spec. exists c. split; [exact Hc|].
  intros ->. apply SFcompare_antisym in Hc. simpl in Hc.
  apply lt_spec in Hc. congruence.
Qed.

Lemma le_refl a : Double.is_nan a = false -> Double.le a a = true.
Proof.
  rewrite is_nan_spec. intros H. apply le_spec. exists Eq.
  split; [apply SFcompare_refl; exact H | congruence].
Qed.

Lemma le_trans a b c :
  Double.le a b = true -> Double.le b c = true -> Double.le a c = true.
Proof.
  rewrite !le_spec. intros (c1 & H1 & N1) (c2 & H2 & N2).
  eapply SFcompare_le_trans; eauto.
Qed.

(** [gt] and [ge] are [lt] and [le] with the arguments exchanged. *)
Lemma gt_lt a b : Double.gt a b = Double.lt b a.
Proof. reflexivity. Qed.

Lemma ge_le a b : Double.ge a b = Double.le b a.
Proof. reflexivity. Qed.

Lemma INF_not_nan : Double.is_nan INF = false.
Proof. reflexivity. Qed.

(** [std::min] of two doubles that are not NaN is below both and is one of
    them. *)
Lemma min_le_l a b :
  Double.is_nan a = false -> Double.is_nan b = false ->
  Double.le (Double.min a b) a = true.
Proof.
  intros Ha Hb. unfold Double.min. destruct (Double.lt b a) eqn:E.
  - apply lt_le, E.
  - apply le_refl, Ha.
Qed.

Lemma min_le_r a b :
  Double.is_nan a = false -> Double.is_nan b = false ->
  Double.le (Double.min a b) b = true.
Proof.
  intros Ha Hb. unfold Double.min. destruct (Double.lt b a) eqn:E.
  - apply le_refl, Hb.
  - apply not_lt_le; assumption.
Qed.

Lemma min_cases a b : Double.min a b = a \/ Double.min a b = b.
Proof. unfold Double.min. destruct (Double.lt b a); auto. Qed.

Lemma min_not_nan a b :
  Double.is_nan a = false -> Double.is_nan b = false ->
  Double.is_nan (Double.min a b) = false.
Proof. intros Ha Hb. destruct (min_cases a b) as [-> | ->]; assumption. Qed.

(** Equality with a constant, read on the specification side. *)
Lemma eq_spec a b : Double.eq a b = SFeqb (Prim2SF a) (Prim2SF b).
Proof. apply FloatAxioms.eqb_spec. Qed.

Lemma eq_zero_not_INF a : Double.eq a 0%float = true -> Double.eq a INF = false.
Proof.
  rewrite !eq_spec. change (Prim2SF 0%float) with (S754_zero false).
  change (Prim2SF INF) with (S754_infinity false).
  unfold SFeqb. sf_cases (Prim2SF a); simpl; congruence.
Qed.

Lemma eq_zero_not_NEG_INF a : Double.eq a 0%float = true -> Double.eq a NEG_INF = false.
Proof.
  rewrite !eq_spec. change (Prim2SF 0%float) with (S754_zero false).
  change (Prim2SF NEG_INF) with (S754_infinity true).
  unfold SFeqb. sf_cases (Prim2SF a); simpl; congruence.
Qed.

Lemma finite_not_INF a : Double.is_finite a = true -> Double.eq a INF = false.
Proof.
  unfold Double.is_finite, PrimFloat.is_finite, PrimFloat.is_infinity.
  rewrite negb_true_iff, orb_false_iff. intros [_ H]. revert H.
  rewrite !eq_spec, FloatAxioms.abs_spec. change (Prim2SF infinity) with (S754_infinity false).
  change (Prim2SF INF) with (S754_infinity false).
  unfold SFeqb. sf_cases (Prim2SF a); simpl; congruence.
Qed.

Lemma finite_not_NEG_INF a : Double.is_finite a = true -> Double.eq a NEG_INF = false.
Proof.
  unfold Double.is_finite, PrimFloat.is_finite, PrimFloat.is_infinity.
  rewrite negb_true_iff, orb_false_iff. intros [_ H]. revert H.
  rewrite !eq_spec, FloatAxioms.abs_spec. change (Prim2SF infinity) with (S754_infinity false).
  change (Prim2SF NEG_INF) with (S754_infinity true).
  unfold SFeqb. sf_cases (Prim2SF a); simpl; congruence.
Qed.

End DoubleFacts.

(** ** Nodes *)

(** C9.  [gap()] of a node: [(upper - lower) / |upper|] when both bounds are
    finite and the upper bound is not zero; [+inf] when the upper bound is
    [+inf] or the lower bound is [-inf]; and for an upper bound equal to
    zero, [0] when the lower bound is zero too and [+inf] otherwise.
    Equality with a constant is the [==] of doubles. *)
Theorem gap_by_cases (n : BPNode.t) :
  (Double.is_finite (BPNode.upper_bound n) = true ->
   Double.is_finite (BPNode.lower_bound n) = true ->
   Double.eq (BPNode.upper_bound n) 0%float = false ->
   BPNode.gap n
   = ((BPNode.upper_bound n - BPNode.lower_bound n)
      / Double.abs (BPNode.upper_bound n))%float)
  /\ (Double.eq (BPNode.upper_bound n) INF = true
      \/ Double.eq (BPNode.lower_bound n) NEG_INF = true ->
      BPNode.gap n = INF)
  /\ (Double.eq (BPNode.upper_bound n) 0%float = true ->
      BPNode.gap n = if Double.eq (BPNode.lower_bound n) 0%float then 0%float else INF).
Proof.
  unfold BPNode.gap, BPNode.upper_bound, BPNode.lower_bound.
  split; [|split].
  - intros Hu Hl Hz.
    rewrite (DoubleFacts.finite_not_INF _ Hu), (DoubleFacts.finite_not_NEG_INF _ Hl), Hz.
    reflexivity.
  - intros [H | H]; rewrite H; [reflexivity|].
    rewrite orb_true_r. reflexivity.
  - intros Hz. rewrite (DoubleFacts.eq_zero_not_INF _ Hz), Hz. simpl.
    destruct (Double.eq (BPNode.lower_bound_ n) NEG_INF) eqn:E; [|reflexivity].
    destruct (Double.eq (BPNode.lower_bound_ n) 0%float) eqn:E0; [|reflexivity].
    rewrite (DoubleFacts.eq_zero_not_NEG_INF _ E0) in E. discriminate.
Qed.

(** The three cases of C9 on the node of [test_node_bounds] (gap 0.1 up to
    rounding), on a fresh root (bounds [-inf], [+inf]) and on a node with
    both bounds zero. *)
Lemma gap_by_cases_witness :
  BPNode.gap ex_node_90_100 = ((100 - 90) / Double.abs 100)%float
  /\ BPNode.gap BPNode.root = INF
  /\ BPNode.gap ex_node_0_0 = 0%float.
Proof.
  split; [|split].
  - apply (proj1 (gap_by_cases ex_node_90_100)); reflexivity.
  - apply (proj1 (proj2 (gap_by_cases BPNode.root))). left. reflexivity.
  - apply (proj2 (proj2 (gap_by_cases ex_node_0_0))). reflexivity.
Defined.

(** C3, as stated, fails: a node that is already terminal is not left alone.
    The node holds an integer solution and has lower bound 100; with global
    upper bound 100 the call returns true and overwrites the status. *)
Lemma try_prune_terminal_counterexample :
  ~ (forall (g : double) (n : BPNode.t),
       non_terminal (BPNode.status n) = false ->
       BPNode.try_prune_by_bound g n = (false, n)).
Proof.
  intros H. specialize (H 100%float ex_node_integer eq_refl).
  vm_compute in H. discriminate H.
Qed.

(** C3, amended.  [try_prune_by_bound(g)] sets the status to [PRUNED_BOUND]
    and returns true exactly when [lower_bound >= g - 1e-6], whatever the
    status of the node; otherwise it returns false and leaves the node as it
    is.  Only [BPTree::prune_by_bound] restricts the call, to the nodes that
    are [PENDING]: every other registered node is left as it is. *)
Theorem try_prune_by_bound_spec (g : double) (n : BPNode.t) :
  (Double.ge (BPNode.lower_bound n) (g - EPS)%float = true ->
   BPNode.try_prune_by_bound g n = (true, BPNode.set_status PRUNED_BOUND n))
  /\ (Double.ge (BPNode.lower_bound n) (g - EPS)%float = false ->
      BPNode.try_prune_by_bound g n = (false, n))
  /\ (forall (tr : BPTree.t) (k : NodeId),
        BPTree.nodes_ tr !! k = Some n ->
        BPTree.nodes_ (snd (BPTree.prune_by_bound tr)) !! k
        = Some (if BPNode.can_be_explored n
                then snd (BPNode.try_prune_by_bound (BPTree.global_upper_bound tr) n)
                else n)).
Proof.
  unfold BPNode.try_prune_by_bound, BPNode.lower_bound.
  split; [|split].
  - intros ->. reflexivity.
  - intros ->. reflexivity.
  - intros tr k Hk. cbn. rewrite lookup_fmap, Hk. cbn.
    unfold BPTree.prune_visit, BPNode.try_prune_by_bound, BPTree.global_upper_bound.
    destruct (BPNode.can_be_explored n); reflexivity.
Qed.

(** The amended C3 on the fixture of [test_prune_by_bound]: the pending node
    with lower bound 100 is kept for global upper bound 150 and pruned for
    100, and so is the node that already holds an integer solution. *)
Lemma try_prune_by_bound_spec_witness :
  BPNode.try_prune_by_bound 150%float ex_node_lb_100 = (false, ex_node_lb_100)
  /\ BPNode.try_prune_by_bound 100%float ex_node_lb_100
     = (true, BPNode.set_status PRUNED_BOUND ex_node_lb_100)
  /\ BPNode.try_prune_by_bound 100%float ex_node_integer
     = (true, BPNode.set_status PRUNED_BOUND ex_node_integer).
Proof.
  split; [|split].
  - apply (proj1 (proj2 (try_prune_by_bound_spec 150%float ex_node_lb_100))). reflexivity.
  - apply (proj1 (try_prune_by_bound_spec 100%float ex_node_lb_100)). reflexivity.
  - apply (proj1 (try_prune_by_bound_spec 100%float ex_node_integer)). reflexivity.
Defined.

(** ** The tree: bounds, incumbent, paths *)

(** C8.  [update_bounds(node)] returns true exactly when the node is integer
    and its [lp_value] is strictly below the global upper bound; it then
    sets the global upper bound and [stats.best_upper_bound] to that value;
    when it returns false the tree is left as it was. *)
Theorem update_bounds_spec (tr : BPTree.t) (node : NodePtr) (n : BPNode.t) :
  BPTree.nodes_ tr !! node = Some n ->
  exists (improved : bool) (tr' : BPTree.t),
    BPTree.update_bounds tr node = Some (improved, tr')
    /\ (improved = true <->
        BPNode.is_integer n = true
        /\ Double.lt (BPNode.lp_value n) (BPTree.global_upper_bound tr) = true)
    /\ (improved = true ->
        BPTree.global_upper_bound tr' = BPNode.lp_value n
        /\ TreeStats.best_upper_bound (BPTree.stats tr') = BPNode.lp_value n)
    /\ (improved = false -> tr' = tr).
Proof.
  intros Hn. unfold BPTree.update_bounds, BPTree.global_upper_bound. rewrite Hn. cbn.
  destruct (BPNode.is_integer n) eqn:Hi; cbn.
  - destruct (Double.lt (BPNode.lp_value n) (BPTree.global_upper_bound_ tr)) eqn:Hlt.
    + eexists true, _. split; [reflexivity|]. repeat split; intros; auto; discriminate.
    + eexists false, _. split; [reflexivity|].
      repeat split; intros; auto; try discriminate.
      destruct H; discriminate.
  - eexists false, _. split; [reflexivity|].
    repeat split; intros; auto; try discriminate.
    destruct H; discriminate.
Qed.

(** The example tree is the state [test_incumbent] reaches before it sets
    the incumbent. *)
Example ex_tree_root_integer_reached :
  run_calls any_call (BPTree.new true)
    [T_node 0 (N_set_lp_value 100%float); T_node 0 (N_set_is_integer true)]
  = Some ex_tree_root_integer.
Proof. vm_compute. reflexivity. Qed.

(** C8 on the state of [test_incumbent]: the root carries an integer
    solution of value 100 and the global upper bound is still [+inf]; the
    bound improves to 100. *)
Lemma update_bounds_spec_witness :
  BPTree.nodes_ ex_tree_root_integer !! 0 = Some ex_root_integer
  /\ exists tr' : BPTree.t,
      BPTree.update_bounds ex_tree_root_integer 0 = Some (true, tr')
      /\ BPTree.global_upper_bound tr' = 100%float
      /\ TreeStats.best_upper_bound (BPTree.stats tr') = 100%float.
Proof.
  split; [reflexivity|].
  destruct (update_bounds_spec ex_tree_root_integer 0 ex_root_integer eq_refl)
    as (improved & tr' & E & Hiff & Hset & _).
  assert (Hi : improved = true) by (apply Hiff; split; reflexivity).
  subst improved. destruct (Hset eq_refl) as [Hg Hs].
  exists tr'. split; [exact E|]. split; [exact Hg | exact Hs].
Defined.

(** C10.  [set_incumbent(nullptr)] makes the incumbent null and changes
    nothing else; the bound is assigned only for a node, from its
    [lp_value]. *)
Theorem set_incumbent_null (tr : BPTree.t) :
  (exists tr' : BPTree.t,
     BPTree.set_incumbent tr None = Some tr'
     /\ BPTree.incumbent tr' = None
     /\ BPTree.global_upper_bound tr' = BPTree.global_upper_bound tr
     /\ BPTree.stats tr' = BPTree.stats tr
     /\ BPTree.global_lower_bound tr' = BPTree.global_lower_bound tr
     /\ BPTree.nodes_ tr' = BPTree.nodes_ tr
     /\ BPTree.root tr' = BPTree.root tr
     /\ BPTree.next_id_ tr' = BPTree.next_id_ tr
     /\ BPTree.is_minimizing tr' = BPTree.is_minimizing tr)
  /\ (forall (p : NodePtr) (n : BPNode.t),
        BPTree.nodes_ tr !! p = Some n ->
        exists tr' : BPTree.t,
          BPTree.set_incumbent tr (Some p) = Some tr'
          /\ BPTree.incumbent tr' = Some p
          /\ BPTree.global_upper_bound tr' = BPNode.lp_value n
          /\ TreeStats.best_upper_bound (BPTree.stats tr') = BPNode.lp_value n).
Proof.
  split.
  - eexists. split; [reflexivity|]. repeat split.
  - intros p n Hn. unfold BPTree.set_incumbent. rewrite Hn. cbn.
    eexists. split; [reflexivity|]. repeat split.
Qed.

(** C10 next to scenario E6: on the tree whose root carries an integer
    solution of value 100, a null incumbent leaves the global upper bound at
    [+inf], and the root as incumbent sets both bounds to 100. *)
Lemma set_incumbent_null_witness :
  (exists tr' : BPTree.t,
     BPTree.set_incumbent ex_tree_root_integer None = Some tr'
     /\ BPTree.incumbent tr' = None
     /\ BPTree.global_upper_bound tr' = INF)
  /\ (exists tr' : BPTree.t,
        BPTree.set_incumbent ex_tree_root_integer (Some 0) = Some tr'
        /\ BPTree.incumbent tr' = Some 0
        /\ BPTree.global_upper_bound tr' = 100%float
        /\ TreeStats.best_upper_bound (BPTree.stats tr') = 100%float).
Proof.
  split.
  - destruct (proj1 (set_incumbent_null ex_tree_root_integer))
      as (tr' & E & Hi & Hg & _).
    exists tr'. split; [exact E|]. split; [exact Hi|]. rewrite Hg. reflexivity.
  - destruct (proj2 (set_incumbent_null ex_tree_root_integer) 0 ex_root_integer eq_refl)
      as (tr' & E & Hi & Hg & Hs).
    exists tr'. split; [exact E|]. split; [exact Hi|]. split; [exact Hg | exact Hs].
Defined.

(** C4, as stated, fails: for an identifier that is not registered and is
    not [INVALID_ID] the loop pushes the identifier before it looks it up,
    so the result is never empty.  Here: identifier 999 in a new tree. *)
Lemma path_of_unknown_id_counterexample :
  ~ (forall (tr : BPTree.t) (id : NodeId),
       BPTree.nodes_ tr !! id = None ->
       exists fuel : nat, BPTree.get_path_to_root fuel tr id = Some []).
Proof.
  intros H. destruct (H (BPTree.new true) 999 eq_refl) as [fuel Hf].
  destruct fuel as [|fuel]; vm_compute in Hf; discriminate Hf.
Qed.

(** C4, amended.  For an identifier that is not registered,
    [get_path_to_root] returns the sequence that holds just that
    identifier; it returns the empty sequence only for [INVALID_ID]. *)
Theorem path_of_unknown_id (tr : BPTree.t) (id : NodeId) :
  BPTree.nodes_ tr !! id = None ->
  (id = BPNode.INVALID_ID ->
   forall fuel : nat, BPTree.get_path_to_root fuel tr id = Some [])
  /\ (id <> BPNode.INVALID_ID ->
      forall fuel : nat, BPTree.get_path_to_root (S fuel) tr id = Some [id]).
Proof.
  intros Hid. unfold BPTree.get_path_to_root. split.
  - intros -> fuel. destruct fuel; reflexivity.
  - intros Hne fuel. cbn.
    destruct (id =? BPNode.INVALID_ID) eqn:E; [apply Z.eqb_eq in E; contradiction|].
    rewrite Hid. reflexivity.
Qed.

(** The amended C4 on a new tree: identifier 999 gives [[999]], and
    [INVALID_ID] gives the empty sequence. *)
Lemma path_of_unknown_id_witness :
  BPTree.nodes_ (BPTree.new true) !! 999 = None
  /\ BPTree.get_path_to_root 1 (BPTree.new true) 999 = Some [999]
  /\ BPTree.get_path_to_root 0 (BPTree.new true) BPNode.INVALID_ID = Some [].
Proof.
  split; [reflexivity|]. split.
  - apply (proj2 (path_of_unknown_id (BPTree.new true) 999 eq_refl)). discriminate.
  - apply (proj1 (path_of_unknown_id (BPTree.new true) BPNode.INVALID_ID eq_refl)).
    reflexivity.
Defined.

(** ** Selectors *)

(** *** The priority queue and the functions shared by the heap selectors *)

Lemma StronglySorted_weaken {A : Type} (R R' : A -> A -> Prop) (l : list A) :
  (forall a b, a ∈ l -> b ∈ l -> R a b -> R' a b) ->
  StronglySorted R l -> StronglySorted R' l.
Proof.
  intros Himp Hs. induction Hs as [|a l Hs IH Hall]; constructor.
  - apply IH. intros x y Hx Hy. apply Himp; apply elem_of_cons; auto.
  - rewrite Forall_forall in *. intros b Hb.
    apply Himp; [apply elem_of_cons; auto | apply elem_of_cons; auto | auto].
Qed.


Lemma StronglySorted_lookup {A : Type} (R : A -> A -> Prop) (l : list A)
    (i j : nat) (a b : A) :
  StronglySorted R l -> (i < j)%nat -> l !! i = Some a -> l !! j = Some b -> R a b.
Proof.
  intros Hs. revert i j. induction Hs as [|x l Hs IH Hall]; intros i j Hij Ha Hb.
  - discriminate Ha.
  - destruct j as [|j]; [lia|]. cbn in Hb. destruct i as [|i].
    + cbn in Ha. injection Ha as <-. rewrite Forall_forall in Hall.
      apply Hall. eapply list_elem_of_lookup_2. exact Hb.
    + cbn in Ha. apply (IH i j); [lia | assumption | assumption].
Qed.

(** The container the model keeps is a heap in the sense of [std::is_heap]. *)
Lemma heap_ordered_is_heap (comp : BPNode.t -> BPNode.t -> bool) (st : store)
    (q : PriorityQueue.t) :
  heap_ordered comp st q -> is_heap comp st q.
Proof.
  intros Ho i parent child Hi Hp Hc.
  apply (StronglySorted_lookup _ q ((i - 1) / 2) i parent child Ho); [|exact Hp | exact Hc].
  apply Nat.Div0.div_lt_upper_bound; lia.
Qed.

Section HeapSelectorFacts.

Variable comp : BPNode.t -> BPNode.t -> bool.
Hypothesis comp_asym : forall a b, comp a b = true -> comp b a = false.
Hypothesis comp_trans : forall a b c, comp a b = true -> comp b c = true -> comp a c = true.
Variable st : store.

Lemma push_elem (x : NodePtr) (q : PriorityQueue.t) (p : NodePtr) :
  p ∈ PriorityQueue.push comp st x q <-> p = x \/ p ∈ q.
Proof using Type.
  induction q as [|y q IH]; cbn.
  - rewrite list_elem_of_singleton. rewrite elem_of_nil. tauto.
  - destruct (comp (st y) (st x)).
    + rewrite !elem_of_cons. tauto.
    + rewrite !elem_of_cons, IH. tauto.
Qed.

Lemma push_ordered (x : NodePtr) (q : PriorityQueue.t) :
  heap_ordered comp st q -> heap_ordered comp st (PriorityQueue.push comp st x q).
Proof using comp_asym comp_trans.
  unfold heap_ordered. induction 1 as [|y q Hs IH Hall]; cbn.
  - repeat constructor.
  - destruct (comp (st y) (st x)) eqn:E.
    + constructor; [constructor; assumption|].
      constructor; [apply comp_asym, E|].
      rewrite Forall_forall in *. intros z Hz.
      destruct (comp (st x) (st z)) eqn:Exz; [|reflexivity].
      specialize (Hall z Hz). rewrite (comp_trans _ _ _ E Exz) in Hall. discriminate.
    + constructor; [exact IH|].
      rewrite Forall_forall in *. intros z Hz.
      apply push_elem in Hz as [-> | Hz]; auto.
Qed.

Lemma push_all_elem (valid : list NodePtr) (q : PriorityQueue.t) (p : NodePtr) :
  p ∈ fold_left (fun q node => PriorityQueue.push comp st node q) valid q
  <-> p ∈ valid \/ p ∈ q.
Proof using Type.
  revert q. induction valid as [|x valid IH]; intros q; cbn.
  - rewrite elem_of_nil. tauto.
  - rewrite IH, push_elem, elem_of_cons. tauto.
Qed.

Lemma push_all_ordered (valid : list NodePtr) (q : PriorityQueue.t) :
  heap_ordered comp st q ->
  heap_ordered comp st (fold_left (fun q node => PriorityQueue.push comp st node q) valid q).
Proof using comp_asym comp_trans.
  revert q. induction valid as [|x valid IH]; intros q Hq; cbn; [exact Hq|].
  apply IH, push_ordered, Hq.
Qed.

Lemma explorable_cons (x : NodePtr) (q : list NodePtr) :
  explorable st (x :: q)
  = if BPNode.can_be_explored (st x) then x :: explorable st q else explorable st q.
Proof using Type.
  unfold explorable. rewrite filter_cons.
  destruct (BPNode.can_be_explored (st x)).
  - rewrite decide_True by reflexivity. reflexivity.
  - rewrite decide_False by discriminate. reflexivity.
Qed.

Lemma drain_valid (q : PriorityQueue.t) (valid : list NodePtr) (removed : nat) :
  fst (HeapSelector.drain st q valid removed) = valid ++ explorable st q.
Proof using Type.
  revert valid removed. induction q as [|x q IH]; intros valid removed.
  - cbn. rewrite app_nil_r. reflexivity.
  - rewrite explorable_cons. simpl HeapSelector.drain.
    destruct (BPNode.can_be_explored (st x)).
    + rewrite IH, <- app_assoc. reflexivity.
    + apply IH.
Qed.

Lemma prune_queue (q : PriorityQueue.t) :
  snd (HeapSelector.prune comp st q)
  = fold_left (fun q node => PriorityQueue.push comp st node q) (explorable st q) [].
Proof using Type.
  unfold HeapSelector.prune.
  pose proof (drain_valid q [] O) as H.
  destruct (HeapSelector.drain st q [] 0) as [valid removed]. cbn in *.
  rewrite H. reflexivity.
Qed.

(** After [prune] the queue holds the explorable handles it held before, in
    heap order. *)
Lemma prune_elem (q : PriorityQueue.t) (p : NodePtr) :
  p ∈ snd (HeapSelector.prune comp st q) <-> p ∈ explorable st q.
Proof using Type.
  rewrite prune_queue, push_all_elem, elem_of_nil. tauto.
Qed.

Lemma prune_ordered (q : PriorityQueue.t) :
  heap_ordered comp st (snd (HeapSelector.prune comp st q)).
Proof using comp_asym comp_trans.
  rewrite prune_queue. apply push_all_ordered. constructor.
Qed.

Lemma explorable_elem (q : list NodePtr) (p : NodePtr) :
  p ∈ explorable st q <-> p ∈ q /\ BPNode.can_be_explored (st p) = true.
Proof using Type.
  unfold explorable. rewrite list_elem_of_filter. tauto.
Qed.

Lemma explorable_all (q : list NodePtr) :
  (forall p, p ∈ q -> BPNode.can_be_explored (st p) = true) -> explorable st q = q.
Proof using Type.
  intros H. induction q as [|x q IH]; [reflexivity|].
  rewrite explorable_cons, (H x) by left.
  f_equal. apply IH. intros p Hp. apply H. right. exact Hp.
Qed.



End HeapSelectorFacts.

(** *** The two comparators are strict orders *)

Lemma CompareByBound_asym (a b : BPNode.t) :
  BestFirstSelector.CompareByBound a b = true ->
  BestFirstSelector.CompareByBound b a = false.
Proof. unfold BestFirstSelector.CompareByBound, Double.gt. apply DoubleFacts.lt_asym. Qed.

Lemma CompareByBound_trans (a b c : BPNode.t) :
  BestFirstSelector.CompareByBound a b = true ->
  BestFirstSelector.CompareByBound b c = true ->
  BestFirstSelector.CompareByBound a c = true.
Proof.
  unfold BestFirstSelector.CompareByBound, Double.gt. intros H1 H2.
  exact (DoubleFacts.lt_trans _ _ _ H2 H1).
Qed.

Lemma CompareByDepth_asym (a b : BPNode.t) :
  DepthFirstSelector.CompareByDepth a b = true ->
  DepthFirstSelector.CompareByDepth b a = false.
Proof.
  unfold DepthFirstSelector.CompareByDepth, Double.gt.
  destruct (Z.eqb_spec (BPNode.depth a) (BPNode.depth b)) as [E | E]; cbn.
  - rewrite E, Z.eqb_refl. cbn. apply DoubleFacts.lt_asym.
  - destruct (Z.eqb_spec (BPNode.depth b) (BPNode.depth a)) as [E' | E']; cbn;
      [congruence|].
    rewrite !Z.ltb_lt, Z.ltb_ge. lia.
Qed.

Lemma CompareByDepth_trans (a b c : BPNode.t) :
  DepthFirstSelector.CompareByDepth a b = true ->
  DepthFirstSelector.CompareByDepth b c = true ->
  DepthFirstSelector.CompareByDepth a c = true.
Proof.
  unfold DepthFirstSelector.CompareByDepth, Double.gt.
  destruct (Z.eqb_spec (BPNode.depth a) (BPNode.depth b)) as [E1 | E1];
    destruct (Z.eqb_spec (BPNode.depth b) (BPNode.depth c)) as [E2 | E2];
    destruct (Z.eqb_spec (BPNode.depth a) (BPNode.depth c)) as [E3 | E3];
    cbn; rewrite ?Z.ltb_lt; intros H1 H2; try lia; try congruence.
  exact (DoubleFacts.lt_trans _ _ _ H2 H1).
Qed.

(** What it means for two nodes not to be out of order. *)
Lemma CompareByBound_false (a b : BPNode.t) :
  Double.is_nan (BPNode.lower_bound a) = false ->
  Double.is_nan (BPNode.lower_bound b) = false ->
  BestFirstSelector.CompareByBound a b = false ->
  Double.le (BPNode.lower_bound a) (BPNode.lower_bound b) = true.
Proof.
  unfold BestFirstSelector.CompareByBound, Double.gt. intros Ha Hb H.
  apply DoubleFacts.not_lt_le; assumption.
Qed.


Lemma CompareByDepth_false_weak (a b : BPNode.t) :
  DepthFirstSelector.CompareByDepth a b = false ->
  BPNode.depth a > BPNode.depth b
  \/ (BPNode.depth a = BPNode.depth b
      /\ Double.lt (BPNode.lower_bound b) (BPNode.lower_bound a) = false).
Proof.
  unfold DepthFirstSelector.CompareByDepth, Double.gt.
  destruct (Z.eqb_spec (BPNode.depth a) (BPNode.depth b)) as [E | E]; cbn.
  - intros H. right. split; [exact E | exact H].
  - rewrite Z.ltb_ge. lia.
Qed.

(** *** Repeated selection through the selector interface *)

Lemma best_first_select_all (fuel : nat) (st : store) (s : BestFirstSelector.t) :
  Selector.select_all fuel st s
  = (fst (heap_select_all BestFirstSelector.CompareByBound st fuel
            (BestFirstSelector.queue_ s)),
     BestFirstSelector.mk
       (snd (heap_select_all BestFirstSelector.CompareByBound st fuel
               (BestFirstSelector.queue_ s)))).
Proof.
  revert s. induction fuel as [|fuel IH]; intros [q]; [reflexivity|].
  cbn [Selector.select_all heap_select_all Selector.select_next BestFirst_NodeSelector].
  unfold BestFirstSelector.select_next. cbn [BestFirstSelector.queue_].
  destruct (HeapSelector.select_next _ st q) as [[node|] q1]; [|reflexivity].
  rewrite IH. cbn [BestFirstSelector.queue_].
  destruct (heap_select_all _ st fuel q1). reflexivity.
Qed.

Lemma depth_first_select_all (fuel : nat) (st : store) (s : DepthFirstSelector.t) :
  Selector.select_all fuel st s
  = (fst (heap_select_all DepthFirstSelector.CompareByDepth st fuel
            (DepthFirstSelector.queue_ s)),
     DepthFirstSelector.mk
       (snd (heap_select_all DepthFirstSelector.CompareByDepth st fuel
               (DepthFirstSelector.queue_ s)))).
Proof.
  revert s. induction fuel as [|fuel IH]; intros [q]; [reflexivity|].
  cbn [Selector.select_all heap_select_all Selector.select_next DepthFirst_NodeSelector].
  unfold DepthFirstSelector.select_next. cbn [DepthFirstSelector.queue_].
  destruct (HeapSelector.select_next _ st q) as [[node|] q1]; [|reflexivity].
  rewrite IH. cbn [DepthFirstSelector.queue_].
  destruct (heap_select_all _ st fuel q1). reflexivity.
Qed.





(** *** [best_bound] *)

Lemma INF_le_eq (x : double) : Double.le INF x = true -> x = INF.
Proof.
  rewrite DoubleFacts.le_spec. change (Prim2SF INF) with (S754_infinity false).
  intros (c & Hc & Hne). apply Prim2SF_inj.
  change (Prim2SF INF) with (S754_infinity false).
  revert Hc. sf_cases (Prim2SF x); cbn; intros Hc; congruence.
Qed.

Lemma is_min_of_equiv (st : store) (m : double) (q1 q2 : list NodePtr) :
  (forall p, p ∈ q1 <-> p ∈ q2) ->
  is_min_of m (bounds_of st q1) -> is_min_of m (bounds_of st q2).
Proof.
  unfold is_min_of, bounds_of. intros Heq (Hle & Hnil & Hin).
  assert (Hb : forall x, x ∈ map (fun p => BPNode.lower_bound (st p)) q1
                    <-> x ∈ map (fun p => BPNode.lower_bound (st p)) q2).
  { intros x. rewrite !list_elem_of_fmap. split; intros (p & -> & Hp); exists p;
      (split; [reflexivity | apply Heq, Hp]). }
  split; [|split].
  - intros x Hx. apply Hle, Hb, Hx.
  - intros E. apply Hnil. destruct q2; [|discriminate].
    destruct q1 as [|p q1]; [reflexivity|].
    exfalso. apply (elem_of_nil p), Heq. left.
  - intros Hne. apply Hb, Hin. intros E. apply Hne.
    destruct q1; [|discriminate].
    destruct q2 as [|p q2]; [reflexivity|].
    exfalso. apply (elem_of_nil p), Heq. left.
Qed.

Section Scan.

Variable st : store.

(** The scan of [DepthFirstSelector::best_bound] and of
    [BestEstimateSelector::best_bound]: [std::min] folded over the handles. *)
Lemma best_bound_loop_fold (q : list NodePtr) (best : double) :
  DepthFirstSelector.best_bound_loop st q best
  = fold_left (fun best node => Double.min best (BPNode.lower_bound (st node))) q best.
Proof. revert best. induction q as [|x q IH]; intros best; cbn; [reflexivity | apply IH]. Qed.

Lemma scan_min (q : list NodePtr) (best : double) :
  bounds_not_nan st q -> Double.is_nan best = false ->
  let r := fold_left (fun best node => Double.min best (BPNode.lower_bound (st node)))
             q best in
  Double.is_nan r = false
  /\ Double.le r best = true
  /\ (forall p, p ∈ q -> Double.le r (BPNode.lower_bound (st p)) = true)
  /\ (r = best \/ r ∈ bounds_of st q).
Proof.
  revert best. induction q as [|x q IH]; intros best Hq Hb; cbn.
  - split; [exact Hb|]. split; [apply DoubleFacts.le_refl, Hb|].
    split; [|left; reflexivity].
    intros p Hp. apply elem_of_nil in Hp. contradiction.
  - assert (Hx : Double.is_nan (BPNode.lower_bound (st x)) = false) by (apply Hq; left).
    assert (Hq' : bounds_not_nan st q) by (intros p Hp; apply Hq; right; exact Hp).
    pose proof (DoubleFacts.min_not_nan _ _ Hb Hx) as Hm.
    destruct (IH _ Hq' Hm) as (Hr & Hle & Hall & Hin).
    split; [exact Hr|]. split; [|split].
    + eapply DoubleFacts.le_trans; [exact Hle|]. apply DoubleFacts.min_le_l; assumption.
    + intros p Hp. apply elem_of_cons in Hp as [-> | Hp]; [|apply Hall, Hp].
      eapply DoubleFacts.le_trans; [exact Hle|]. apply DoubleFacts.min_le_r; assumption.
    + destruct Hin as [Hin | Hin].
      * destruct (DoubleFacts.min_cases best (BPNode.lower_bound (st x))) as [E | E].
        -- left. congruence.
        -- right. rewrite Hin, E. left.
      * right. right. exact Hin.
Qed.

Lemma scan_is_min (q : list NodePtr) :
  bounds_not_nan st q ->
  is_min_of
    (match q with
     | [] => INF
     | _ => fold_left (fun best node => Double.min best (BPNode.lower_bound (st node))) q INF
     end)
    (bounds_of st q).
Proof.
  intros Hq. destruct q as [|x q].
  - split; [|split]; [| reflexivity | intros H; contradiction].
    intros y Hy. apply elem_of_nil in Hy. contradiction.
  - destruct (scan_min (x :: q) INF Hq DoubleFacts.INF_not_nan) as (_ & _ & Hall & Hin).
    split; [|split]; [| discriminate |].
    + intros y Hy. apply list_elem_of_fmap in Hy as (p & -> & Hp). apply Hall, Hp.
    + intros _. destruct Hin as [Hin | Hin]; [|exact Hin].
      rewrite Hin. specialize (Hall x ltac:(left)). rewrite Hin in Hall.
      apply INF_le_eq in Hall. rewrite <- Hall at 1. left.
Qed.

(** The top of a queue in heap order carries the least lower bound. *)
Lemma top_is_min (q : PriorityQueue.t) :
  bounds_not_nan st q ->
  heap_ordered BestFirstSelector.CompareByBound st q ->
  is_min_of
    (match PriorityQueue.top q with
     | None => INF
     | Some node => BPNode.lower_bound (st node)
     end)
    (bounds_of st q).
Proof.
  intros Hq Ho. destruct q as [|x q]; cbn.
  - split; [|split]; [| reflexivity | intros H; contradiction].
    intros y Hy. apply elem_of_nil in Hy. contradiction.
  - apply StronglySorted_inv in Ho as [_ Hall]. rewrite Forall_forall in Hall.
    split; [|split]; [| discriminate | intros _; left].
    intros y Hy. apply elem_of_cons in Hy as [-> | Hy].
    + apply DoubleFacts.le_refl, Hq. left.
    + apply list_elem_of_fmap in Hy as (p & -> & Hp).
      apply CompareByBound_false; [apply Hq; left | apply Hq; right; exact Hp | auto].
Qed.

End Scan.

(** The handles of [explorable st q] are handles of [q]. *)
Lemma bounds_not_nan_explorable (st : store) (q : list NodePtr) :
  bounds_not_nan st q -> bounds_not_nan st (explorable st q).
Proof. intros H p Hp. apply explorable_elem in Hp as [Hp _]. apply H, Hp. Qed.

Lemma best_first_prune_queue (st : store) (s : BestFirstSelector.t) :
  BestFirstSelector.queue_ (snd (BestFirstSelector.prune st s))
  = snd (HeapSelector.prune BestFirstSelector.CompareByBound st (BestFirstSelector.queue_ s)).
Proof.
  unfold BestFirstSelector.prune.
  destruct (HeapSelector.prune _ st _) as [removed q]. reflexivity.
Qed.

Lemma depth_first_prune_queue (st : store) (s : DepthFirstSelector.t) :
  DepthFirstSelector.queue_ (snd (DepthFirstSelector.prune st s))
  = snd (HeapSelector.prune DepthFirstSelector.CompareByDepth st
           (DepthFirstSelector.queue_ s)).
Proof.
  unfold DepthFirstSelector.prune.
  destruct (HeapSelector.prune _ st _) as [removed q]. reflexivity.
Qed.

(** C5, as stated, fails for both selectors it names: a handle whose node
    has stopped being explorable still counts.  One pending node with lower
    bound 10 is added; the node is then being processed; no explorable
    handle is held, yet [best_bound] is 10 and not [+inf]. *)
Lemma best_bound_stale_counterexample :
  ~ (forall (st0 st1 : store) (nodes : list (option NodePtr)),
       is_min_of
         (Selector.best_bound st1 (Selector.add_nodes st0 nodes BestFirstSelector.init))
         (bounds_of st1
            (explorable st1
               (BestFirstSelector.queue_ (Selector.add_nodes st0 nodes BestFirstSelector.init)))))
  /\ ~ (forall (st0 st1 : store) (nodes : list (option NodePtr)),
          is_min_of
            (Selector.best_bound st1 (Selector.add_nodes st0 nodes DepthFirstSelector.init))
            (bounds_of st1
               (explorable st1
                  (DepthFirstSelector.queue_
                     (Selector.add_nodes st0 nodes DepthFirstSelector.init))))).
Proof.
  split; intros H;
    destruct (H ex_store_pending ex_store_processing [Some 1]) as (_ & Hnil & _);
    specialize (Hnil eq_refl);
    pose proof (f_equal (fun x => Double.lt x INF) Hnil) as E;
    vm_compute in E; discriminate E.
Qed.

(** C5, amended.  [best_bound()] is the minimum lower bound over all the
    handles the selector holds, explorable or not, and [+inf] when it holds
    none: for the depth-first and the best-estimate selector always (they
    scan every handle); for the best-first selector, and the hybrid one that
    asks its best-first store, when the queue is in heap order for the
    present bounds (it reads the top).  Right after [prune()], which leaves
    the explorable handles in heap order, it is the minimum over the
    explorable handles, for each of the four.  Bounds are not NaN. *)
Theorem best_bound_min_over_held :
  best_bound_spec DepthFirstSelector.queue_ (fun _ _ => True)
  /\ best_bound_spec BestEstimateSelector.nodes_ (fun _ _ => True)
  /\ best_bound_spec BestFirstSelector.queue_
       (fun st s => heap_ordered BestFirstSelector.CompareByBound st
                      (BestFirstSelector.queue_ s))
  /\ best_bound_spec (fun s => BestFirstSelector.queue_ (HybridSelector.best_first_ s))
       (fun st s => heap_ordered BestFirstSelector.CompareByBound st
                      (BestFirstSelector.queue_ (HybridSelector.best_first_ s))).
Proof.
  assert (Hdf : forall st q, bounds_not_nan st q ->
            is_min_of (DepthFirstSelector.best_bound st (DepthFirstSelector.mk q))
              (bounds_of st q)).
  { intros st q Hq. pose proof (scan_is_min st q Hq) as H.
    unfold DepthFirstSelector.best_bound. cbn [DepthFirstSelector.queue_].
    rewrite best_bound_loop_fold. destruct q; exact H. }
  assert (Hbf : forall st s, bounds_not_nan st (BestFirstSelector.queue_ s) ->
            is_min_of (BestFirstSelector.best_bound st (snd (BestFirstSelector.prune st s)))
              (bounds_of st (explorable st (BestFirstSelector.queue_ s)))).
  { intros st s Hq. unfold BestFirstSelector.best_bound.
    rewrite best_first_prune_queue.
    eapply is_min_of_equiv; [apply prune_elem|].
    apply top_is_min.
    - intros p Hp. apply prune_elem, explorable_elem in Hp as [Hp _]. apply Hq, Hp.
    - apply prune_ordered; [exact CompareByBound_asym | exact CompareByBound_trans]. }
  split; [|split; [|split]].
  - intros st [q] Hq. cbn [DepthFirstSelector.queue_] in *. split.
    + intros _. apply Hdf, Hq.
    + cbn [Selector.best_bound Selector.prune DepthFirst_NodeSelector].
      pose proof (depth_first_prune_queue st (DepthFirstSelector.mk q)) as Hp.
      destruct (snd (DepthFirstSelector.prune st (DepthFirstSelector.mk q))) as [q'].
      cbn [DepthFirstSelector.queue_] in Hp. subst q'.
      eapply is_min_of_equiv; [apply prune_elem|].
      apply Hdf. intros p Hp. apply prune_elem, explorable_elem in Hp as [Hp _].
      apply Hq, Hp.
  - intros st s Hq. split.
    + intros _. apply scan_is_min, Hq.
    + cbn [Selector.best_bound Selector.prune BestEstimate_NodeSelector BestEstimateSelector.prune snd].
      unfold BestEstimateSelector.best_bound. cbn [BestEstimateSelector.nodes_].
      apply (scan_is_min st (explorable st (BestEstimateSelector.nodes_ s))).
      apply bounds_not_nan_explorable, Hq.
  - intros st s Hq. split.
    + intros Ho. apply top_is_min; assumption.
    + apply Hbf, Hq.
  - intros st s Hq. split.
    + intros Ho. apply top_is_min; assumption.
    + cbn [Selector.best_bound Selector.prune Hybrid_NodeSelector].
      unfold HybridSelector.prune, HybridSelector.best_bound.
      pose proof (Hbf st (HybridSelector.best_first_ s) Hq) as H.
      destruct (BestFirstSelector.prune st (HybridSelector.best_first_ s)) as [r1 bf'].
      destruct (DepthFirstSelector.prune st (HybridSelector.depth_first_ s)) as [r2 df'].
      exact H.
Qed.

(** The amended C5 on the depth-first selector of scenario E5 (minimum 10
    over the bounds 20, 30, 10 it holds), and on the best-first selector of
    the counterexample: it holds one handle, of a node that is being
    processed, and its best bound is that node's lower bound; after
    [prune()] it is [+inf]. *)
Lemma best_bound_min_over_held_witness :
  (DepthFirstSelector.queue_
     (Selector.add_nodes ex_store_E5 [Some 1; Some 2; Some 3] DepthFirstSelector.init)
   = [3; 2; 1]
   /\ is_min_of
        (Selector.best_bound ex_store_E5
           (Selector.add_nodes ex_store_E5 [Some 1; Some 2; Some 3]
              DepthFirstSelector.init))
        (bounds_of ex_store_E5
           (DepthFirstSelector.queue_
              (Selector.add_nodes ex_store_E5 [Some 1; Some 2; Some 3]
                 DepthFirstSelector.init))))
  /\ (BestFirstSelector.queue_
        (Selector.add_nodes ex_store_pending [Some 1] BestFirstSelector.init)
      = [1]
      /\ BPNode.can_be_explored (ex_store_processing 1) = false
      /\ is_min_of
           (Selector.best_bound ex_store_processing
              (Selector.add_nodes ex_store_pending [Some 1] BestFirstSelector.init))
           (bounds_of ex_store_processing
              (BestFirstSelector.queue_
                 (Selector.add_nodes ex_store_pending [Some 1] BestFirstSelector.init))))
  /\ is_min_of
       (Selector.best_bound ex_store_processing
          (snd (Selector.prune ex_store_processing
                  (Selector.add_nodes ex_store_pending [Some 1] BestFirstSelector.init))))
       (bounds_of ex_store_processing
          (explorable ex_store_processing
             (BestFirstSelector.queue_
                (Selector.add_nodes ex_store_pending [Some 1] BestFirstSelector.init)))).
Proof.
  destruct best_bound_min_over_held as (Hdf & _ & Hbf & _).
  assert (H5 : forall q, bounds_not_nan ex_store_E5 q).
  { intros q p _. unfold ex_store_E5.
    destruct (p =? 1); [reflexivity|]. destruct (p =? 2); reflexivity. }
  assert (Hp : forall q, bounds_not_nan ex_store_processing q).
  { intros q p _. reflexivity. }
  split; [|split].
  - split; [reflexivity|]. apply (Hdf _ _ (H5 _)). exact I.
  - split; [reflexivity|]. split; [reflexivity|].
    apply (Hbf _ _ (Hp _)). repeat constructor.
  - apply (Hbf _ _ (Hp _)).
Defined.

(** *** When a best-first queue is in heap order *)

(** [add_node] keeps a queue in heap order, for the store it is given. *)
Lemma add_node_heap_ordered (comp : BPNode.t -> BPNode.t -> bool) (st : store)
    (node : option NodePtr) (q : PriorityQueue.t) :
  (forall a b, comp a b = true -> comp b a = false) ->
  (forall a b c, comp a b = true -> comp b c = true -> comp a c = true) ->
  heap_ordered comp st q ->
  heap_ordered comp st (HeapSelector.add_node comp st node q).
Proof.
  intros Hasym Htrans Hq. unfold HeapSelector.add_node.
  destruct node as [p|]; [|exact Hq].
  destruct (BPNode.can_be_explored (st p)); [|exact Hq].
  apply push_ordered; assumption.
Qed.

(** The heap order of a best-first queue depends on the lower bounds only:
    it survives every change to the nodes that leaves the bounds alone. *)
Lemma heap_ordered_same_bounds (st st' : store) (q : PriorityQueue.t) :
  (forall p, p ∈ q -> BPNode.lower_bound (st' p) = BPNode.lower_bound (st p)) ->
  heap_ordered BestFirstSelector.CompareByBound st q ->
  heap_ordered BestFirstSelector.CompareByBound st' q.
Proof.
  intros Hb. apply StronglySorted_weaken. intros a b Ha Hb'.
  unfold BestFirstSelector.CompareByBound. rewrite !Hb by assumption. auto.
Qed.

(** A best-first selector filled by [add_nodes]: as long as no lower bound
    has changed since, whatever happened to the statuses, [best_bound] is
    the minimum lower bound over the handles held. *)
Lemma best_first_best_bound_after_adds (st0 st1 : store) (nodes : list (option NodePtr)) :
  (forall p, BPNode.lower_bound (st1 p) = BPNode.lower_bound (st0 p)) ->
  (forall p, Double.is_nan (BPNode.lower_bound (st0 p)) = false) ->
  is_min_of
    (Selector.best_bound st1 (Selector.add_nodes st0 nodes BestFirstSelector.init))
    (bounds_of st1
       (BestFirstSelector.queue_ (Selector.add_nodes st0 nodes BestFirstSelector.init))).
Proof.
  intros Hb Hnan.
  assert (Ho : forall (s : BestFirstSelector.t),
            heap_ordered BestFirstSelector.CompareByBound st0 (BestFirstSelector.queue_ s) ->
            heap_ordered BestFirstSelector.CompareByBound st0
              (BestFirstSelector.queue_ (Selector.add_nodes st0 nodes s))).
  { unfold Selector.add_nodes. induction nodes as [|node nodes IH]; intros s Hs; cbn.
    - exact Hs.
    - apply IH. cbn.
      apply add_node_heap_ordered;
        [exact CompareByBound_asym | exact CompareByBound_trans | exact Hs]. }
  apply top_is_min.
  - intros p _. rewrite Hb. apply Hnan.
  - apply (heap_ordered_same_bounds st0); [intros p _; apply Hb|].
    apply Ho. constructor.
Qed.

(** ** The statistics of the tree *)

(** *** Counting nodes *)

(** Evaluate the indicators of closed conditions. *)
Ltac eval_indicators :=
  repeat match goal with
  | |- context [indicator ?b] =>
      let v := eval vm_compute in (indicator b) in
      progress change (indicator b) with v
  end.

Lemma count_nodes_empty (P : BPNode.t -> bool) : BPTree.count_nodes P ∅ = 0.
Proof. unfold BPTree.count_nodes. apply map_fold_empty. Qed.

Lemma count_nodes_insert_fresh (P : BPNode.t -> bool) (m : gmap Z BPNode.t)
    (k : NodeId) (n : BPNode.t) :
  m !! k = None ->
  BPTree.count_nodes P (<[k := n]> m) = BPTree.count_nodes P m + indicator (P n).
Proof.
  intros Hk. unfold BPTree.count_nodes.
  rewrite map_fold_insert_L; [| |exact Hk].
  - unfold indicator. destruct (P n); lia.
  - intros j1 j2 z1 z2 y _ _ _. destruct (P z1), (P z2); lia.
Qed.

Lemma count_nodes_insert (P : BPNode.t -> bool) (m : gmap Z BPNode.t)
    (k : NodeId) (n0 n : BPNode.t) :
  m !! k = Some n0 ->
  BPTree.count_nodes P (<[k := n]> m)
  = BPTree.count_nodes P m - indicator (P n0) + indicator (P n).
Proof.
  intros Hk.
  rewrite <- (insert_delete_id m k n0) at 2 by exact Hk.
  rewrite <- (insert_delete_eq m k n).
  rewrite !count_nodes_insert_fresh by apply lookup_delete_eq. lia.
Qed.

Lemma count_nodes_fmap (P : BPNode.t -> bool) (f : BPNode.t -> BPNode.t)
    (m : gmap Z BPNode.t) :
  BPTree.count_nodes P (f <$> m) = BPTree.count_nodes (fun n => P (f n)) m.
Proof. unfold BPTree.count_nodes. rewrite map_fold_fmap. reflexivity. Qed.

Lemma count_nodes_size (m : gmap Z BPNode.t) :
  BPTree.count_nodes (fun _ => true) m = Z.of_nat (size m).
Proof.
  induction m as [|k n m Hk IH] using map_ind.
  - rewrite count_nodes_empty, map_size_empty. reflexivity.
  - rewrite count_nodes_insert_fresh, map_size_insert_None, IH by exact Hk.
    unfold indicator. lia.
Qed.

(** A count splits along a second predicate. *)
Lemma count_nodes_split (P Q : BPNode.t -> bool) (m : gmap Z BPNode.t) :
  BPTree.count_nodes P m
  = BPTree.count_nodes (fun n => P n && Q n) m
    + BPTree.count_nodes (fun n => P n && negb (Q n)) m.
Proof.
  induction m as [|k n m Hk IH] using map_ind.
  - rewrite !count_nodes_empty. reflexivity.
  - rewrite !count_nodes_insert_fresh, IH by exact Hk.
    unfold indicator. destruct (P n), (Q n); cbn; lia.
Qed.

Lemma count_nodes_ext (P Q : BPNode.t -> bool) (m : gmap Z BPNode.t) :
  (forall n, P n = Q n) -> BPTree.count_nodes P m = BPTree.count_nodes Q m.
Proof.
  intros H. induction m as [|k n m Hk IH] using map_ind.
  - rewrite !count_nodes_empty. reflexivity.
  - rewrite !count_nodes_insert_fresh, IH, H by exact Hk. reflexivity.
Qed.

(** Every node is in exactly one status: not yet terminal, or one of the five
    terminal ones. *)
Lemma count_status_partition (tr : BPTree.t) :
  BPTree.num_nodes tr = count_status non_terminal tr + terminal_nodes tr.
Proof.
  unfold BPTree.num_nodes, terminal_nodes, count_status.
  rewrite <- count_nodes_size.
  induction (BPTree.nodes_ tr) as [|k n m Hk IH] using map_ind.
  - rewrite !count_nodes_empty. reflexivity.
  - rewrite !count_nodes_insert_fresh, IH by exact Hk.
    destruct (BPNode.status n); eval_indicators; lia.
Qed.

(** The effect of the two ways the tree writes nodes on a count by status:
    a node is replaced under its identifier, or added under a new one. *)
Lemma count_status_replace (P : NodeStatus -> bool) (tr : BPTree.t) (k : NodeId)
    (n0 n : BPNode.t) :
  BPTree.nodes_ tr !! k = Some n0 ->
  count_status P (BPTree.with_nodes (<[k := n]> (BPTree.nodes_ tr)) tr)
  = count_status P tr - indicator (P (BPNode.status n0)) + indicator (P (BPNode.status n)).
Proof.
  intros Hk. unfold count_status. cbn.
  exact (count_nodes_insert (fun n => P (BPNode.status n)) _ _ _ _ Hk).
Qed.

Lemma num_nodes_replace (tr : BPTree.t) (k : NodeId) (n0 n : BPNode.t) :
  BPTree.nodes_ tr !! k = Some n0 ->
  BPTree.num_nodes (BPTree.with_nodes (<[k := n]> (BPTree.nodes_ tr)) tr)
  = BPTree.num_nodes tr.
Proof.
  intros Hk. unfold BPTree.num_nodes. cbn.
  rewrite map_size_insert_Some by (eexists; exact Hk). reflexivity.
Qed.

(** *** What [create_child] does to the tree *)

Lemma create_child_inv (tr : BPTree.t) (parent : NodePtr) (d : BranchingDecision.t)
    (c : NodePtr) (tr' : BPTree.t) :
  BPTree.create_child tr parent d = Some (c, tr') ->
  exists p : BPNode.t,
    BPTree.nodes_ tr !! parent = Some p
    /\ c = BPTree.next_id_ tr
    /\ BPTree.nodes_ tr'
       = <[BPTree.next_id_ tr := new_child tr p d]>
           (<[parent := BPNode.add_child (BPTree.next_id_ tr) p]> (BPTree.nodes_ tr))
    /\ BPTree.next_id_ tr' = BPTree.next_id_ tr + 1
    /\ TreeStats.nodes_created (BPTree.stats tr')
       = TreeStats.nodes_created (BPTree.stats tr) + 1
    /\ TreeStats.nodes_open (BPTree.stats tr') = TreeStats.nodes_open (BPTree.stats tr) + 1
    /\ TreeStats.nodes_branched (BPTree.stats tr')
       = TreeStats.nodes_branched (BPTree.stats tr)
    /\ TreeStats.nodes_pruned_bound (BPTree.stats tr')
       = TreeStats.nodes_pruned_bound (BPTree.stats tr)
    /\ TreeStats.nodes_pruned_infeasible (BPTree.stats tr')
       = TreeStats.nodes_pruned_infeasible (BPTree.stats tr)
    /\ TreeStats.nodes_integer (BPTree.stats tr')
       = TreeStats.nodes_integer (BPTree.stats tr).
Proof.
  unfold BPTree.create_child. intros H.
  destruct (BPTree.nodes_ tr !! parent) as [p|] eqn:Hp; [|discriminate H].
  cbn in H. injection H as <- <-. exists p.
  split; [reflexivity|]. split; [reflexivity|]. split; [reflexivity|].
  split; [reflexivity|].
  unfold BPTree.stats. cbn.
  destruct (_ >? _); cbn; repeat split; reflexivity.
Qed.

Lemma ids_below_next_fresh (tr : BPTree.t) :
  ids_below_next tr -> BPTree.nodes_ tr !! BPTree.next_id_ tr = None.
Proof.
  intros H. destruct (BPTree.nodes_ tr !! BPTree.next_id_ tr) as [n|] eqn:E; [|reflexivity].
  apply H in E. lia.
Qed.

Lemma keeps_status_refl (tr : BPTree.t) : keeps_status tr tr.
Proof. intros k n H. eauto. Qed.

Lemma keeps_status_trans (tr1 tr2 tr3 : BPTree.t) :
  keeps_status tr1 tr2 -> keeps_status tr2 tr3 -> keeps_status tr1 tr3.
Proof.
  intros H12 H23 k n H. destruct (H12 k n H) as (n2 & H2 & E2).
  destruct (H23 k n2 H2) as (n3 & H3 & E3). exists n3. split; [exact H3 | congruence].
Qed.

Lemma create_child_counts (tr : BPTree.t) (parent : NodePtr) (d : BranchingDecision.t)
    (c : NodePtr) (tr' : BPTree.t) :
  ids_below_next tr ->
  BPTree.create_child tr parent d = Some (c, tr') ->
  ids_below_next tr'
  /\ keeps_status tr tr'
  /\ BPTree.num_nodes tr' = BPTree.num_nodes tr + 1
  /\ forall P : NodeStatus -> bool,
       count_status P tr' = count_status P tr + indicator (P PENDING).
Proof.
  intros Hids H. pose proof (ids_below_next_fresh tr Hids) as Hfresh.
  apply create_child_inv in H
    as (p & Hp & -> & Hnodes & Hnext & _).
  assert (Hne : parent <> BPTree.next_id_ tr) by (apply Hids in Hp; lia).
  assert (Hfresh' : <[parent := BPNode.add_child (BPTree.next_id_ tr) p]>
                      (BPTree.nodes_ tr) !! BPTree.next_id_ tr = None).
  { rewrite lookup_insert_ne by exact Hne. exact Hfresh. }
  split; [|split; [|split]].
  - intros k n. rewrite Hnodes, Hnext.
    destruct (decide (k = BPTree.next_id_ tr)) as [-> | Hk].
    + intros _. apply Hids in Hp. lia.
    + rewrite lookup_insert_ne by congruence.
      destruct (decide (k = parent)) as [-> | Hk'].
      * intros _. apply Hids in Hp. lia.
      * rewrite lookup_insert_ne by congruence. intros E. apply Hids in E. lia.
  - intros k n Hk. rewrite Hnodes.
    assert (k <> BPTree.next_id_ tr) by (apply Hids in Hk; lia).
    rewrite lookup_insert_ne by congruence.
    destruct (decide (k = parent)) as [-> | Hk'].
    + rewrite lookup_insert_eq. eexists. split; [reflexivity|].
      rewrite Hp in Hk. injection Hk as <-. reflexivity.
    + rewrite lookup_insert_ne by congruence. eauto.
  - unfold BPTree.num_nodes. rewrite Hnodes.
    rewrite map_size_insert_None by exact Hfresh'.
    rewrite map_size_insert_Some by (eexists; exact Hp). lia.
  - intros P. unfold count_status. rewrite Hnodes.
    rewrite (count_nodes_insert_fresh (fun n => P (BPNode.status n))) by exact Hfresh'.
    rewrite (count_nodes_insert (fun n => P (BPNode.status n)) _ _ _ _ Hp).
    change (BPNode.status (BPNode.add_child (BPTree.next_id_ tr) p)) with (BPNode.status p).
    change (BPNode.status (new_child tr p d)) with PENDING. lia.
Qed.

Lemma create_child_counted (tr : BPTree.t) (parent : NodePtr) (d : BranchingDecision.t)
    (c : NodePtr) (tr' : BPTree.t) :
  ids_below_next tr -> counters_agree tr ->
  BPTree.create_child tr parent d = Some (c, tr') ->
  ids_below_next tr' /\ counters_agree tr' /\ keeps_status tr tr'.
Proof.
  intros Hids [Hc Ho Hb Hpb Hpi Hi] H.
  destruct (create_child_counts _ _ _ _ _ Hids H) as (Hids' & Hkeep & Hnum & Hcount).
  apply create_child_inv in H
    as (p & Hp & _ & _ & _ & Ec & Eo & Eb & Epb & Epi & Ei).
  split; [exact Hids'|]. split; [|exact Hkeep].
  constructor; rewrite ?Ec, ?Eo, ?Eb, ?Epb, ?Epi, ?Ei, ?Hnum, ?Hcount;
    eval_indicators; lia.
Qed.

Lemma create_children_loop_counted (decisions : list BranchingDecision.t)
    (tr : BPTree.t) (parent : NodePtr) (acc children : list NodePtr) (tr' : BPTree.t) :
  ids_below_next tr -> counters_agree tr ->
  BPTree.create_children_loop tr parent decisions acc = Some (children, tr') ->
  ids_below_next tr' /\ counters_agree tr' /\ keeps_status tr tr'.
Proof.
  revert tr acc. induction decisions as [|d ds IH]; intros tr acc Hids Hag H; cbn in H.
  - injection H as <- <-. auto using keeps_status_refl.
  - destruct (BPTree.create_child tr parent d) as [[c tr1]|] eqn:E; [|discriminate H].
    cbn in H.
    destruct (create_child_counted _ _ _ _ _ Hids Hag E) as (Hids1 & Hag1 & Hk1).
    destruct (IH _ _ Hids1 Hag1 H) as (Hids' & Hag' & Hk').
    eauto using keeps_status_trans.
Qed.

(** *** Each counted call keeps the counters in agreement *)

Lemma ids_below_next_replace (tr : BPTree.t) (k : NodeId) (n0 n : BPNode.t)
    (s : TreeStats.t) :
  ids_below_next tr -> BPTree.nodes_ tr !! k = Some n0 ->
  ids_below_next (BPTree.with_stats s (BPTree.with_nodes (<[k := n]> (BPTree.nodes_ tr)) tr)).
Proof.
  intros Hids Hk j m. cbn. destruct (decide (j = k)) as [-> | Hj].
  - intros _. apply Hids in Hk. exact Hk.
  - rewrite lookup_insert_ne by congruence. apply Hids.
Qed.

Lemma node_has_inv (tr : BPTree.t) (p : NodePtr) (P : BPNode.t -> bool) :
  node_has tr p P = true -> exists n, BPTree.nodes_ tr !! p = Some n /\ P n = true.
Proof.
  unfold node_has. destruct (BPTree.nodes_ tr !! p) as [n|]; [eauto | discriminate].
Qed.

(** Closes a goal [counters_agree tr'] where [tr'] is [tr] with the node
    [n0] under [k] replaced and the counters adjusted. *)
Ltac eval_decides :=
  repeat match goal with
  | |- context [@bool_decide ?P ?d] =>
      let v := eval vm_compute in (@bool_decide P d) in
      match v with
      | true => progress change (@bool_decide P d) with true
      | false => progress change (@bool_decide P d) with false
      end
  end.

Ltac agree_after_replace Hag Hn Es :=
  let Hc := fresh "Hc" in let Ho := fresh "Ho" in let Hb := fresh "Hb" in
  let Hpb := fresh "Hpb" in let Hpi := fresh "Hpi" in let Hi := fresh "Hi" in
  destruct Hag as [Hc Ho Hb Hpb Hpi Hi];
  constructor;
  unfold BPTree.stats, BPTree.num_nodes, count_status in *; cbn in *;
  rewrite ?(count_nodes_insert _ _ _ _ _ Hn);
  rewrite ?map_size_insert_Some by (eexists; exact Hn);
  unfold BPNode.status in *; cbn [BPNode.status_ BPNode.set_status]; rewrite ?Es;
  eval_decides; cbn; eval_indicators; lia.

Lemma mark_processed_counted (tr : BPTree.t) (node : NodePtr) (s : NodeStatus)
    (tr' : BPTree.t) :
  ids_below_next tr -> counters_agree tr ->
  counted_call tr (T_mark_processed node s) = true ->
  BPTree.mark_processed tr node s = Some tr' ->
  ids_below_next tr' /\ counters_agree tr'.
Proof.
  intros Hids Hag Hg H. cbn in Hg.
  apply andb_true_iff in Hg as [Hg Hnb]. apply andb_true_iff in Hg as [Hg Ht].
  apply node_has_inv in Hg as (n & Hn & Hnt).
  unfold BPTree.mark_processed in H. rewrite Hn in H. cbn in H. injection H as <-.
  split; [eapply ids_below_next_replace; eassumption|].
  unfold BPNode.status in *.
  destruct (BPNode.status_ n) eqn:Es; try discriminate Hnt;
    destruct s; try discriminate Ht; try discriminate Hnb;
    agree_after_replace Hag Hn Es.
Qed.

Lemma create_children_counted (tr : BPTree.t) (parent : NodePtr)
    (decisions : list BranchingDecision.t) (children : list NodePtr) (tr' : BPTree.t) :
  ids_below_next tr -> counters_agree tr ->
  counted_call tr (T_create_children parent decisions) = true ->
  BPTree.create_children tr parent decisions = Some (children, tr') ->
  ids_below_next tr' /\ counters_agree tr'.
Proof.
  intros Hids Hag Hg H. cbn in Hg. apply node_has_inv in Hg as (n & Hn & Hnt).
  unfold BPTree.create_children in H.
  destruct (BPTree.create_children_loop tr parent decisions []) as [[cs tr1]|] eqn:E;
    [|discriminate H].
  cbn in H.
  destruct (create_children_loop_counted _ _ _ _ _ _ Hids Hag E) as (Hids1 & Hag1 & Hk).
  destruct (Hk _ _ Hn) as (n1 & Hn1 & Es).
  rewrite Hn1 in H. cbn in H. injection H as <- <-.
  split; [eapply ids_below_next_replace; eassumption|].
  unfold BPNode.status in *. rewrite <- Es in Hnt.
  destruct (BPNode.status_ n1) eqn:Es1; try discriminate Hnt;
    agree_after_replace Hag1 Hn1 Es1.
Qed.

(** What a visit of [prune_by_bound] does to the status of a node. *)
Lemma prune_visit_status (g : double) (n : BPNode.t) :
  (fst (BPTree.prune_visit g n) = true ->
   BPNode.status n = PENDING /\ BPNode.status (snd (BPTree.prune_visit g n)) = PRUNED_BOUND)
  /\ (fst (BPTree.prune_visit g n) = false -> snd (BPTree.prune_visit g n) = n).
Proof.
  unfold BPTree.prune_visit, BPNode.try_prune_by_bound, BPNode.can_be_explored,
    BPNode.status.
  destruct (bool_decide (BPNode.status_ n = PENDING)) eqn:E.
  - apply bool_decide_eq_true in E.
    destruct (Double.ge _ _); cbn; split; intros; try discriminate; auto.
  - cbn. split; intros; [discriminate | reflexivity].
Qed.

Lemma prune_by_bound_counts (P : NodeStatus -> bool) (tr : BPTree.t) :
  count_status P (snd (BPTree.prune_by_bound tr))
  = count_status P tr
    + (indicator (P PRUNED_BOUND) - indicator (P PENDING)) * fst (BPTree.prune_by_bound tr).
Proof.
  unfold count_status. cbn. rewrite count_nodes_fmap.
  generalize (BPTree.global_upper_bound_ tr). intros g.
  induction (BPTree.nodes_ tr) as [|k n m Hk IH] using map_ind.
  - rewrite !count_nodes_empty. lia.
  - rewrite !count_nodes_insert_fresh, IH by exact Hk.
    destruct (prune_visit_status g n) as [Ht Hf].
    destruct (fst (BPTree.prune_visit g n)) eqn:E.
    + destruct (Ht eq_refl) as [-> ->]. change (indicator true) with 1. lia.
    + rewrite (Hf eq_refl). change (indicator false) with 0. lia.
Qed.

Lemma prune_by_bound_counted (tr : BPTree.t) :
  ids_below_next tr -> counters_agree tr ->
  ids_below_next (snd (BPTree.prune_by_bound tr))
  /\ counters_agree (snd (BPTree.prune_by_bound tr)).
Proof.
  intros Hids Hag. split.
  - intros k n. cbn. rewrite lookup_fmap.
    destruct (BPTree.nodes_ tr !! k) as [n0|] eqn:E; [|discriminate].
    intros _. apply Hids in E. exact E.
  - destruct Hag as [Hc Ho Hb Hpb Hpi Hi].
    constructor; rewrite ?prune_by_bound_counts; eval_indicators;
      unfold BPTree.stats, BPTree.num_nodes in *; cbn;
      rewrite ?map_size_fmap; lia.
Qed.

Lemma on_node_counted (tr : BPTree.t) (node : NodePtr) (call : node_call)
    (tr' : BPTree.t) :
  ids_below_next tr -> counters_agree tr ->
  counted_call tr (T_node node call) = true ->
  BPTree.on_node (apply_node_call call) tr node = Some tr' ->
  ids_below_next tr' /\ counters_agree tr'.
Proof.
  intros Hids Hag Hg H. unfold BPTree.on_node in H.
  destruct (BPTree.nodes_ tr !! node) as [n|] eqn:Hn; [|discriminate H].
  cbn in H. injection H as <-.
  split; [exact (ids_below_next_replace tr node n _ (BPTree.stats_ tr) Hids Hn)|].
  assert (Es : BPNode.status_ n = BPNode.status_ n) by reflexivity.
  destruct call; try discriminate Hg;
    try (agree_after_replace Hag Hn Es).
  cbn in Hg. apply andb_true_iff in Hg as [Hg Hs].
  unfold node_has in Hg. rewrite Hn in Hg. unfold BPNode.status in Hg. clear Es.
  destruct (BPNode.status_ n) eqn:Es; try discriminate Hg;
    destruct status; try discriminate Hs;
    agree_after_replace Hag Hn Es.
Qed.

Lemma same_nodes_counted (tr tr' : BPTree.t) :
  BPTree.nodes_ tr' = BPTree.nodes_ tr ->
  BPTree.next_id_ tr' = BPTree.next_id_ tr ->
  TreeStats.nodes_created (BPTree.stats tr') = TreeStats.nodes_created (BPTree.stats tr) ->
  TreeStats.nodes_open (BPTree.stats tr') = TreeStats.nodes_open (BPTree.stats tr) ->
  TreeStats.nodes_branched (BPTree.stats tr')
  = TreeStats.nodes_branched (BPTree.stats tr) ->
  TreeStats.nodes_pruned_bound (BPTree.stats tr')
  = TreeStats.nodes_pruned_bound (BPTree.stats tr) ->
  TreeStats.nodes_pruned_infeasible (BPTree.stats tr')
  = TreeStats.nodes_pruned_infeasible (BPTree.stats tr) ->
  TreeStats.nodes_integer (BPTree.stats tr') = TreeStats.nodes_integer (BPTree.stats tr) ->
  ids_below_next tr -> counters_agree tr ->
  ids_below_next tr' /\ counters_agree tr'.
Proof.
  intros En Ei E1 E2 E3 E4 E5 E6 Hids [Hc Ho Hb Hpb Hpi Hi]. split.
  - intros k n. rewrite En, Ei. apply Hids.
  - constructor; unfold count_status, BPTree.num_nodes in *; rewrite En; congruence.
Qed.

Lemma counted_call_step (tr : BPTree.t) (c : tree_call) (tr' : BPTree.t) :
  ids_below_next tr -> counters_agree tr ->
  counted_call tr c = true -> run_call tr c = Some tr' ->
  ids_below_next tr' /\ counters_agree tr'.
Proof.
  intros Hids Hag Hg H. destruct c as [p d | p ds | p s | lb | ub | p | | p | p call];
    cbn [run_call] in H.
  - destruct (BPTree.create_child tr p d) as [[c tr1]|] eqn:E; [|discriminate H].
    cbn in H. injection H as <-.
    destruct (create_child_counted _ _ _ _ _ Hids Hag E) as (? & ? & _). auto.
  - destruct (BPTree.create_children tr p ds) as [[cs tr1]|] eqn:E; [|discriminate H].
    cbn in H. injection H as <-. eapply create_children_counted; eassumption.
  - eapply mark_processed_counted; eassumption.
  - injection H as <-. apply (same_nodes_counted tr); auto.
  - injection H as <-. apply (same_nodes_counted tr); auto.
  - unfold BPTree.update_bounds in H.
    destruct (BPTree.nodes_ tr !! p) as [n|]; [|discriminate H]. cbn in H.
    destruct (_ && _); cbn in H; injection H as <-; [|auto].
    apply (same_nodes_counted tr); auto.
  - injection H as <-. apply prune_by_bound_counted; assumption.
  - unfold BPTree.set_incumbent in H. destruct p as [p|].
    + destruct (BPTree.nodes_ tr !! p) as [n|]; [|discriminate H]. cbn in H.
      injection H as <-. apply (same_nodes_counted tr); auto.
    + injection H as <-. apply (same_nodes_counted tr); auto.
  - eapply on_node_counted; eassumption.
Qed.

Lemma run_calls_counted (calls : list tree_call) (tr tr' : BPTree.t) :
  ids_below_next tr -> counters_agree tr ->
  run_calls counted_call tr calls = Some tr' ->
  ids_below_next tr' /\ counters_agree tr'.
Proof.
  revert tr. induction calls as [|c calls IH]; intros tr Hids Hag H; cbn in H.
  - injection H as <-. auto.
  - destruct (counted_call tr c) eqn:Hg; [|discriminate H].
    destruct (run_call tr c) as [tr1|] eqn:E; [|discriminate H]. cbn in H.
    destruct (counted_call_step _ _ _ Hids Hag Hg E) as [Hids1 Hag1].
    eapply IH; eassumption.
Qed.

Lemma new_tree_counted (minimize : bool) :
  ids_below_next (BPTree.new minimize) /\ counters_agree (BPTree.new minimize).
Proof.
  split.
  - intros k n. cbn. intros H. apply lookup_singleton_Some in H as [<- _]. lia.
  - constructor; vm_compute; reflexivity.
Qed.

(** C2, as stated, fails: the counters follow the calls, not the statuses.
    [mark_processed] with [PROCESSING] takes the root out of [nodes_open]
    though it is in no terminal status: the sum is 0 and one node was
    created. *)
Lemma counters_counterexample :
  ~ (forall (calls : list tree_call) (tr : BPTree.t),
       run_calls any_call (BPTree.new true) calls = Some tr ->
       TreeStats.nodes_open (BPTree.stats tr) + terminal_nodes tr
       = TreeStats.nodes_created (BPTree.stats tr)).
Proof.
  intros H. specialize (H [T_mark_processed 0 PROCESSING] _ eq_refl).
  vm_compute in H. discriminate H.
Qed.

(** Further call sequences that leave the sum of C2 off the number of nodes
    created (1 for a new tree): [mark_processed] with [BRANCHED] makes the
    root terminal and leaves it in [nodes_open]; [set_status] and
    [try_prune_by_bound] called on the node do not touch the counters;
    [create_children] on a root that is already terminal takes it out of
    [nodes_open] a second time. *)
Example counters_out_of_step :
  forall (calls : list tree_call) (sum : Z),
    (calls, sum) ∈ [([T_mark_processed 0 BRANCHED], 2);
                    ([T_node 0 (N_set_status INTEGER)], 2);
                    ([T_node 0 (N_try_prune_by_bound NEG_INF)], 2);
                    ([T_create_children 0 []; T_create_children 0 []], 0)] ->
    exists tr : BPTree.t,
      run_calls any_call (BPTree.new true) calls = Some tr
      /\ TreeStats.nodes_created (BPTree.stats tr) = 1
      /\ TreeStats.nodes_open (BPTree.stats tr) + terminal_nodes tr = sum.
Proof.
  intros calls sum H. repeat (apply elem_of_cons in H as [H | H]);
    [injection H as -> -> .. | apply elem_of_nil in H; contradiction];
    (eexists; split; [vm_compute; reflexivity|]; split; vm_compute; reflexivity).
Qed.

(** There is no counter for [FATHOMED]: once a node is fathomed, the five
    counters of [TreeStats] alone sum to less than [nodes_created]. *)
Example counters_without_fathomed :
  exists tr : BPTree.t,
    run_calls counted_call (BPTree.new true) [T_mark_processed 0 FATHOMED] = Some tr
    /\ TreeStats.nodes_created (BPTree.stats tr) = 1
    /\ TreeStats.nodes_open (BPTree.stats tr)
       + TreeStats.nodes_branched (BPTree.stats tr)
       + TreeStats.nodes_pruned_bound (BPTree.stats tr)
       + TreeStats.nodes_pruned_infeasible (BPTree.stats tr)
       + TreeStats.nodes_integer (BPTree.stats tr) = 0
    /\ TreeStats.nodes_open (BPTree.stats tr) + terminal_nodes tr = 1.
Proof. eexists. repeat split; vm_compute; reflexivity. Qed.

(** C2, amended.  In every state reached from a new tree by calls in which a
    status changes through the tree only ([create_children] on a node that
    is not yet terminal; [mark_processed] of a node that is not yet terminal
    to [PRUNED_BOUND], [PRUNED_INFEASIBLE], [INTEGER] or [FATHOMED];
    [prune_by_bound]; [set_status] between [PENDING] and [PROCESSING]),
    [nodes_open] plus the number of nodes in the five terminal statuses is
    [nodes_created]; and the counters agree with a full scan: [nodes_open]
    counts the nodes that are [PENDING] or [PROCESSING], and the counters of
    [BRANCHED], [PRUNED_BOUND], [PRUNED_INFEASIBLE] and [INTEGER] count the
    nodes in these statuses, so that with the number of [FATHOMED] nodes,
    for which there is no counter, they sum to [nodes_created] too. *)
Theorem counters_agree_when_counted (minimize : bool) (calls : list tree_call)
    (tr : BPTree.t) :
  run_calls counted_call (BPTree.new minimize) calls = Some tr ->
  TreeStats.nodes_open (BPTree.stats tr) + terminal_nodes tr
  = TreeStats.nodes_created (BPTree.stats tr)
  /\ counters_agree tr
  /\ TreeStats.nodes_open (BPTree.stats tr)
     + TreeStats.nodes_branched (BPTree.stats tr)
     + TreeStats.nodes_pruned_bound (BPTree.stats tr)
     + TreeStats.nodes_pruned_infeasible (BPTree.stats tr)
     + TreeStats.nodes_integer (BPTree.stats tr)
     + count_status (has_status FATHOMED) tr
     = TreeStats.nodes_created (BPTree.stats tr).
Proof.
  intros H. destruct (new_tree_counted minimize) as [Hids Hag].
  destruct (run_calls_counted _ _ _ Hids Hag H) as [_ Hag'].
  pose proof (count_status_partition tr) as Hpart.
  split; [|split; [exact Hag'|]];
    destruct Hag' as [Hc Ho Hb Hpb Hpi Hi]; unfold terminal_nodes in *; lia.
Qed.

(** The amended C2 on scenario E3 continued: the root is branched into two
    children, the first is pruned by bound, the second is processed and then
    marked [FATHOMED].  No node is open, three are terminal, three were
    created. *)
Lemma counters_agree_when_counted_witness :
  exists tr : BPTree.t,
    run_calls counted_call (BPTree.new true) ex_calls_E3 = Some tr
    /\ TreeStats.nodes_open (BPTree.stats tr) = 0
    /\ count_status (has_status FATHOMED) tr = 1
    /\ terminal_nodes tr = 3
    /\ TreeStats.nodes_open (BPTree.stats tr) + terminal_nodes tr
       = TreeStats.nodes_created (BPTree.stats tr).
Proof.
  eexists. split; [vm_compute; reflexivity|].
  split; [reflexivity|]. split; [vm_compute; reflexivity|].
  split; [vm_compute; reflexivity|].
  refine (proj1 (counters_agree_when_counted true ex_calls_E3 _ _)).
  vm_compute. reflexivity.
Defined.

(** ** Inherited decisions *)

(** *** Calls that keep the decisions of the nodes *)

Lemma keeps_decisions_refl (n : BPNode.t) : keeps_decisions n n.
Proof. repeat split; auto. Qed.

Lemma decisions_kept_refl (m : gmap Z BPNode.t) : decisions_kept m m.
Proof. intros k. destruct (m !! k); [apply keeps_decisions_refl | exact I]. Qed.

Lemma decisions_kept_replace (m : gmap Z BPNode.t) (k : NodeId) (n n' : BPNode.t) :
  m !! k = Some n -> keeps_decisions n n' -> decisions_kept m (<[k := n']> m).
Proof.
  intros Hk Hn j. destruct (decide (j = k)) as [-> | Hj].
  - rewrite Hk, lookup_insert_eq. exact Hn.
  - rewrite lookup_insert_ne by congruence.
    destruct (m !! j); [apply keeps_decisions_refl | exact I].
Qed.

Lemma decisions_kept_fmap (m : gmap Z BPNode.t) (f : BPNode.t -> BPNode.t) :
  (forall n, keeps_decisions n (f n)) -> decisions_kept m (f <$> m).
Proof.
  intros Hf k. rewrite lookup_fmap. destruct (m !! k); cbn; [apply Hf | exact I].
Qed.

Lemma decisions_kept_inv (m m' : gmap Z BPNode.t) (k : NodeId) (n' : BPNode.t) :
  decisions_kept m m' -> m' !! k = Some n' ->
  exists n, m !! k = Some n /\ keeps_decisions n n'.
Proof.
  intros H Hk. specialize (H k). rewrite Hk in H.
  destruct (m !! k) as [n|]; [eauto | contradiction].
Qed.

Lemma decisions_kept_fwd (m m' : gmap Z BPNode.t) (k : NodeId) (n : BPNode.t) :
  decisions_kept m m' -> m !! k = Some n ->
  exists n', m' !! k = Some n' /\ keeps_decisions n n'.
Proof.
  intros H Hk. specialize (H k). rewrite Hk in H.
  destruct (m' !! k) as [n'|]; [eauto | contradiction].
Qed.

Lemma inherits_kept (tr tr' : BPTree.t) :
  inherits tr ->
  decisions_kept (BPTree.nodes_ tr) (BPTree.nodes_ tr') ->
  BPTree.next_id_ tr' = BPTree.next_id_ tr ->
  inherits tr'.
Proof.
  intros [Hids Hid Hroot Hpar] Hk Hnext. constructor.
  - intros k n' Hn'. destruct (decisions_kept_inv _ _ _ _ Hk Hn') as (n & Hn & _).
    rewrite Hnext. eauto.
  - intros k n' Hn'.
    destruct (decisions_kept_inv _ _ _ _ Hk Hn') as (n & Hn & Ei & _).
    rewrite Ei. eauto.
  - intros k n' Hn' Hp.
    destruct (decisions_kept_inv _ _ _ _ Hk Hn') as (n & Hn & _ & Ep & Ed & Einh & _).
    rewrite Einh, Ed. apply (Hroot k n Hn). congruence.
  - intros k n' Hn' Hp.
    destruct (decisions_kept_inv _ _ _ _ Hk Hn') as (n & Hn & _ & Ep & Ed & Einh & _).
    rewrite Ep in *. destruct (Hpar k n Hn Hp) as (Hlt & p & Hpn & Hch & Edp & E).
    split; [exact Hlt|].
    destruct (decisions_kept_fwd _ _ _ _ Hk Hpn)
      as (p' & Hp' & _ & _ & Ed' & Einh' & Hloc).
    destruct (Hloc Hch) as [Hch' Eloc].
    exists p'. split; [exact Hp'|]. split; [exact Hch'|]. split; congruence.
Qed.

Lemma has_children_add_child (c : NodeId) (n : BPNode.t) :
  BPNode.has_children (BPNode.add_child c n) = true.
Proof. unfold BPNode.has_children. cbn. destruct (BPNode.children_ n); reflexivity. Qed.

(** Every node call of the inheriting usage keeps the decisions. *)
Lemma apply_node_call_keeps (tr : BPTree.t) (node : NodePtr) (call : node_call)
    (n : BPNode.t) :
  BPTree.nodes_ tr !! node = Some n ->
  inheriting_call tr (T_node node call) = true ->
  keeps_decisions n (apply_node_call call n).
Proof.
  intros Hn Hg. destruct call; cbn in Hg; try discriminate Hg;
    try (repeat split; auto; fail).
  - unfold node_has in Hg. rewrite Hn in Hg. apply negb_true_iff in Hg.
    repeat split; auto; congruence.
  - cbn [apply_node_call]. repeat split; auto using has_children_add_child.
  - cbn. unfold BPNode.try_prune_by_bound. destruct (Double.ge _ _); repeat split; auto.
Qed.

Lemma prune_visit_keeps (g : double) (n : BPNode.t) :
  keeps_decisions n (snd (BPTree.prune_visit g n)).
Proof.
  unfold BPTree.prune_visit, BPNode.try_prune_by_bound.
  destruct (BPNode.can_be_explored n); [|apply keeps_decisions_refl].
  destruct (Double.ge _ _); repeat split; auto.
Qed.

(** *** [create_child] establishes the inheritance of the new node *)

Lemma create_child_inherits (tr : BPTree.t) (parent : NodePtr) (d : BranchingDecision.t)
    (c : NodePtr) (tr' : BPTree.t) :
  inherits tr ->
  BPTree.create_child tr parent d = Some (c, tr') ->
  inherits tr'.
Proof.
  intros Hinv H.
  apply create_child_inv in H as (p & Hp & -> & Hnodes & Hnext & _).
  set (cid := BPTree.next_id_ tr) in *.
  set (p' := BPNode.add_child cid p) in *.
  assert (Hkp : keeps_decisions p p').
  { unfold p'. repeat split; auto using has_children_add_child. }
  assert (H1 : inherits (BPTree.with_nodes (<[parent := p']> (BPTree.nodes_ tr)) tr)).
  { apply (inherits_kept tr); [exact Hinv | | reflexivity].
    cbn. apply decisions_kept_replace with (n := p); assumption. }
  destruct H1 as [Hids1 Hid1 Hroot1 Hpar1]. cbn in Hids1, Hid1, Hroot1, Hpar1.
  pose proof (inh_ids tr Hinv _ _ Hp) as Hplt. fold cid in Hplt.
  pose proof (inh_id tr Hinv _ _ Hp) as Hpid.
  assert (Hp' : <[parent := p']> (BPTree.nodes_ tr) !! parent = Some p')
    by apply lookup_insert_eq.
  constructor; rewrite Hnodes, ?Hnext.
  - intros k n Hn. destruct (decide (k = cid)) as [-> | Hk]; [lia|].
    rewrite lookup_insert_ne in Hn by congruence. apply Hids1 in Hn. lia.
  - intros k n Hn. destruct (decide (k = cid)) as [-> | Hk].
    + rewrite lookup_insert_eq in Hn. injection Hn as <-. reflexivity.
    + rewrite lookup_insert_ne in Hn by congruence. eauto.
  - intros k n Hn Hroot. destruct (decide (k = cid)) as [-> | Hk].
    + rewrite lookup_insert_eq in Hn. injection Hn as <-.
      exfalso. revert Hroot. unfold new_child, BPNode.parent_id, BPNode.INVALID_ID. cbn.
      fold (BPNode.id p). rewrite Hpid. lia.
    + rewrite lookup_insert_ne in Hn by congruence. eauto.
  - intros k n Hn Hnr. destruct (decide (k = cid)) as [-> | Hk].
    + rewrite lookup_insert_eq in Hn. injection Hn as <-.
      change (BPNode.parent_id (new_child tr p d)) with (BPNode.id p). rewrite Hpid.
      split; [lia|]. exists p'.
      rewrite lookup_insert_ne by lia.
      split; [exact Hp'|]. split; [apply has_children_add_child|].
      split; reflexivity.
    + rewrite lookup_insert_ne in Hn by congruence.
      destruct (Hpar1 k n Hn Hnr) as (Hlt & q & Hq & Hch & E).
      pose proof (Hids1 k n Hn) as Hklt.
      split; [exact Hlt|]. exists q.
      rewrite lookup_insert_ne by (fold cid in Hklt; lia). auto.
Qed.

Lemma create_children_loop_inherits (decisions : list BranchingDecision.t)
    (tr : BPTree.t) (parent : NodePtr) (acc children : list NodePtr) (tr' : BPTree.t) :
  inherits tr ->
  BPTree.create_children_loop tr parent decisions acc = Some (children, tr') ->
  inherits tr'.
Proof.
  revert tr acc. induction decisions as [|d ds IH]; intros tr acc Hinv H; cbn in H.
  - injection H as <- <-. exact Hinv.
  - destruct (BPTree.create_child tr parent d) as [[c tr1]|] eqn:E; [|discriminate H].
    cbn in H. eapply IH; [|exact H]. eapply create_child_inherits; eassumption.
Qed.

Lemma inherits_replace (tr : BPTree.t) (k : NodeId) (n n' : BPNode.t) (s : TreeStats.t) :
  inherits tr -> BPTree.nodes_ tr !! k = Some n -> keeps_decisions n n' ->
  inherits (BPTree.with_stats s (BPTree.with_nodes (<[k := n']> (BPTree.nodes_ tr)) tr)).
Proof.
  intros Hinv Hk Hn. apply (inherits_kept tr); [exact Hinv | | reflexivity].
  cbn. apply decisions_kept_replace with (n := n); assumption.
Qed.

Lemma inherits_same_nodes (tr tr' : BPTree.t) :
  inherits tr -> BPTree.nodes_ tr' = BPTree.nodes_ tr ->
  BPTree.next_id_ tr' = BPTree.next_id_ tr -> inherits tr'.
Proof.
  intros Hinv En Ei. apply (inherits_kept tr); [exact Hinv | | exact Ei].
  rewrite En. apply decisions_kept_refl.
Qed.

Lemma inheriting_call_step (tr : BPTree.t) (c : tree_call) (tr' : BPTree.t) :
  inherits tr -> inheriting_call tr c = true -> run_call tr c = Some tr' -> inherits tr'.
Proof.
  intros Hinv Hg H. destruct c as [p d | p ds | p s | lb | ub | p | | p | p call];
    cbn [run_call] in H.
  - destruct (BPTree.create_child tr p d) as [[c tr1]|] eqn:E; [|discriminate H].
    cbn in H. injection H as <-. eapply create_child_inherits; eassumption.
  - unfold BPTree.create_children in H.
    destruct (BPTree.create_children_loop tr p ds []) as [[cs tr1]|] eqn:E;
      [|discriminate H].
    cbn in H. destruct (BPTree.nodes_ tr1 !! p) as [n|] eqn:Hn; [|discriminate H].
    cbn in H. injection H as <-.
    apply inherits_replace with (n := n);
      [eapply create_children_loop_inherits; eassumption | exact Hn |].
    repeat split; auto.
  - unfold BPTree.mark_processed in H.
    destruct (BPTree.nodes_ tr !! p) as [n|] eqn:Hn; [|discriminate H].
    cbn in H. injection H as <-.
    apply inherits_replace with (n := n); [exact Hinv | exact Hn |].
    repeat split; auto.
  - injection H as <-. apply (inherits_same_nodes tr); auto.
  - injection H as <-. apply (inherits_same_nodes tr); auto.
  - unfold BPTree.update_bounds in H.
    destruct (BPTree.nodes_ tr !! p) as [n|]; [|discriminate H]. cbn in H.
    destruct (_ && _); cbn in H; injection H as <-; [|exact Hinv].
    apply (inherits_same_nodes tr); auto.
  - injection H as <-. apply (inherits_kept tr); [exact Hinv | | reflexivity].
    cbn. apply decisions_kept_fmap. intros n. apply prune_visit_keeps.
  - unfold BPTree.set_incumbent in H. destruct p as [p|].
    + destruct (BPTree.nodes_ tr !! p) as [n|]; [|discriminate H]. cbn in H.
      injection H as <-. apply (inherits_same_nodes tr); auto.
    + injection H as <-. apply (inherits_same_nodes tr); auto.
  - unfold BPTree.on_node in H.
    destruct (BPTree.nodes_ tr !! p) as [n|] eqn:Hn; [|discriminate H].
    cbn in H. injection H as <-.
    apply (inherits_replace tr p n _ (BPTree.stats_ tr) Hinv Hn).
    eapply apply_node_call_keeps; eassumption.
Qed.

Lemma run_calls_inherits (calls : list tree_call) (tr tr' : BPTree.t) :
  inherits tr -> run_calls inheriting_call tr calls = Some tr' -> inherits tr'.
Proof.
  revert tr. induction calls as [|c calls IH]; intros tr Hinv H; cbn in H.
  - injection H as <-. exact Hinv.
  - destruct (inheriting_call tr c) eqn:Hg; [|discriminate H].
    destruct (run_call tr c) as [tr1|] eqn:E; [|discriminate H]. cbn in H.
    eapply IH; [|exact H]. eapply inheriting_call_step; eassumption.
Qed.

Lemma new_tree_inherits (minimize : bool) : inherits (BPTree.new minimize).
Proof.
  constructor; intros k n H; cbn in H;
    apply lookup_singleton_Some in H as [<- <-].
  - cbn. lia.
  - reflexivity.
  - repeat split.
  - intros Hne. exfalso. apply Hne. reflexivity.
Qed.

(** *** The path to the root and the decisions along it *)

Lemma path_loop_acc (fuel : nat) (nodes : gmap Z BPNode.t) (k : NodeId)
    (acc : list NodeId) :
  BPTree.path_loop fuel nodes k acc
  = match BPTree.path_loop fuel nodes k [] with
    | Some up => Some (acc ++ up)
    | None => None
    end.
Proof.
  revert k acc. induction fuel as [|fuel IH]; intros k acc; cbn.
  - destruct (k =? BPNode.INVALID_ID); [rewrite app_nil_r|]; reflexivity.
  - destruct (k =? BPNode.INVALID_ID); [rewrite app_nil_r; reflexivity|].
    destruct (nodes !! k) as [n|]; [|reflexivity].
    rewrite (IH _ (acc ++ [k])), (IH _ [k]).
    destruct (BPTree.path_loop fuel nodes (BPNode.parent_id n) []) as [up|];
      [|reflexivity].
    rewrite <- app_assoc. reflexivity.
Qed.

Lemma decisions_along_app (tr : BPTree.t) (l1 l2 : list NodeId) :
  decisions_along tr (l1 ++ l2) = decisions_along tr l1 ++ decisions_along tr l2.
Proof. unfold decisions_along. rewrite map_app, concat_app. reflexivity. Qed.

(** In a tree that satisfies [inherits], the loop of [get_path_to_root]
    ends for every registered node, within as many iterations as the
    identifier plus one, and the local decisions along the path are the
    node's inherited decisions followed by its local ones. *)
Lemma path_decisions (tr : BPTree.t) (fuel : nat) (k : NodeId) (n : BPNode.t) :
  inherits tr ->
  BPTree.nodes_ tr !! k = Some n ->
  (Z.to_nat k < fuel)%nat ->
  exists path : list NodeId,
    BPTree.get_path_to_root fuel tr k = Some path
    /\ decisions_along tr path
       = BPNode.inherited_decisions n ++ BPNode.local_decisions n.
Proof.
  intros Hinv. unfold BPTree.get_path_to_root.
  revert k n. induction fuel as [|fuel IH]; intros k n Hn Hlt; [lia|].
  pose proof (inh_ids tr Hinv k n Hn) as Hk.
  cbn [BPTree.path_loop].
  destruct (Z.eqb_spec k BPNode.INVALID_ID) as [E | _];
    [unfold BPNode.INVALID_ID in E; lia|].
  rewrite Hn, path_loop_acc. cbn [app].
  destruct (Z.eq_dec (BPNode.parent_id n) BPNode.INVALID_ID) as [Er | Hnr].
  - rewrite Er.
    assert (Hend : BPTree.path_loop fuel (BPTree.nodes_ tr) BPNode.INVALID_ID [] = Some [])
      by (destruct fuel; reflexivity).
    rewrite Hend. eexists. split; [reflexivity|].
    cbn. unfold decisions_along. cbn. rewrite Hn, app_nil_r.
    destruct (inh_root tr Hinv k n Hn Er) as (_ & _ & ->). reflexivity.
  - destruct (inh_parent tr Hinv k n Hn Hnr) as (Hp & p & Hpn & _ & _ & E).
    destruct (IH _ p Hpn ltac:(lia)) as (path & Hpath & Hdec).
    destruct (BPTree.path_loop fuel (BPTree.nodes_ tr) (BPNode.parent_id n) [])
      as [up|]; [|discriminate Hpath].
    injection Hpath as <-.
    eexists. split; [reflexivity|].
    cbn [rev]. rewrite decisions_along_app, Hdec, E.
    unfold decisions_along. cbn. rewrite Hn, app_nil_r. reflexivity.
Qed.

(** C1, as stated, fails: the inherited decisions are a copy taken when the
    child is created.  The root gets a child and then, still pending, a
    local decision; the child's inherited decisions stay empty while the
    root's decisions are no longer. *)
Lemma inherited_decisions_counterexample :
  ~ (forall (calls : list tree_call) (tr : BPTree.t),
       run_calls any_call (BPTree.new true) calls = Some tr ->
       forall (k : NodeId) (n : BPNode.t),
         BPTree.nodes_ tr !! k = Some n ->
         BPNode.parent_id n <> BPNode.INVALID_ID ->
         exists p : BPNode.t,
           BPTree.nodes_ tr !! BPNode.parent_id n = Some p
           /\ BPNode.inherited_decisions n
              = BPNode.inherited_decisions p ++ BPNode.local_decisions p).
Proof.
  intros H.
  edestruct (H [T_create_child 0 ex_d1; T_node 0 (N_add_local_decision ex_d2)]
               _ eq_refl 1) as (p & Hp & E).
  - vm_compute. reflexivity.
  - vm_compute. discriminate.
  - vm_compute in Hp. injection Hp as <-. vm_compute in E. discriminate E.
Qed.

(** C1, amended.  A node created by [create_child] or [create_children]
    gets its parent's inherited decisions followed by the parent's local
    ones, and this stays so, and equal to the local decisions of the
    ancestors from the root down to the parent (the nodes of
    [get_path_to_root] of the parent), in every state reached by calls that
    leave identifiers and inherited decisions to the tree and add a local
    decision only to a node that has no child yet. *)
Theorem inherited_decisions_of_ancestors (minimize : bool) (calls : list tree_call)
    (tr : BPTree.t) :
  run_calls inheriting_call (BPTree.new minimize) calls = Some tr ->
  forall (k : NodeId) (n : BPNode.t),
    BPTree.nodes_ tr !! k = Some n ->
    BPNode.parent_id n <> BPNode.INVALID_ID ->
    exists (p : BPNode.t) (path : list NodeId),
      BPTree.nodes_ tr !! BPNode.parent_id n = Some p
      /\ BPNode.inherited_decisions n
         = BPNode.inherited_decisions p ++ BPNode.local_decisions p
      /\ BPTree.get_path_to_root (S (Z.to_nat (BPNode.parent_id n))) tr (BPNode.parent_id n)
         = Some path
      /\ BPNode.inherited_decisions n = decisions_along tr path.
Proof.
  intros H k n Hn Hnr.
  pose proof (run_calls_inherits _ _ _ (new_tree_inherits minimize) H) as Hinv.
  destruct (inh_parent tr Hinv k n Hn Hnr) as (_ & p & Hp & _ & _ & E).
  destruct (path_decisions tr (S (Z.to_nat (BPNode.parent_id n))) _ p Hinv Hp ltac:(lia))
    as (path & Hpath & Hdec).
  exists p, path. repeat split; auto. congruence.
Qed.

(** The amended C1 on scenario E2 continued: the node created last inherits
    the three decisions of its ancestors 0, 1 and 2, in that order. *)
Lemma inherited_decisions_of_ancestors_witness :
  exists (tr : BPTree.t) (n p : BPNode.t),
    run_calls inheriting_call (BPTree.new true) ex_calls_E2 = Some tr
    /\ BPTree.nodes_ tr !! 3 = Some n
    /\ BPNode.parent_id n = 2
    /\ BPTree.nodes_ tr !! 2 = Some p
    /\ BPNode.inherited_decisions n = [ex_d1; ex_d2; ex_d3]
    /\ BPNode.inherited_decisions n
       = BPNode.inherited_decisions p ++ BPNode.local_decisions p
    /\ BPTree.get_path_to_root 3 tr 2 = Some [0; 1; 2]
    /\ BPNode.inherited_decisions n = decisions_along tr [0; 1; 2].
Proof.
  eexists _, _, _. split; [vm_compute; reflexivity|].
  split; [vm_compute; reflexivity|]. split; [reflexivity|].
  split; [vm_compute; reflexivity|]. split; [reflexivity|].
  lazymatch goal with
  | |- BPNode.inherited_decisions ?n = _ /\ _ =>
      edestruct (inherited_decisions_of_ancestors true ex_calls_E2 _
                   ltac:(vm_compute; reflexivity) 3 n ltac:(vm_compute; reflexivity)
                   ltac:(vm_compute; discriminate))
        as (p' & path & Hp & E & Hpath & Hdec)
  end.
  vm_compute in Hp. injection Hp as <-.
  vm_compute in Hpath. injection Hpath as <-.
  split; [exact E|]. split; [vm_compute; reflexivity|]. exact Hdec.
Defined.

(** ** The repository's tests and the scenarios of the specification, on the model *)

(** [test_tree_creation] and scenario E1. *)
Example test_tree_creation :
  BPTree.root (BPTree.new true) = Some 0
  /\ BPTree.root_id (BPTree.new true) = 0
  /\ BPTree.num_nodes (BPTree.new true) = 1
  /\ BPTree.is_minimizing (BPTree.new true) = true
  /\ BPTree.node (BPTree.new true) 0 = Some (BPNode.set_id 0 BPNode.root)
  /\ BPNode.depth BPNode.root = 0
  /\ BPNode.parent_id BPNode.root = -1
  /\ TreeStats.nodes_created (BPTree.stats (BPTree.new true)) = 1
  /\ TreeStats.nodes_open (BPTree.stats (BPTree.new true)) = 1
  /\ BPTree.gap (BPTree.new true) = INF.
Proof. repeat split. Qed.

(** [test_create_child]. *)
Example test_create_child :
  exists (child : NodePtr) (tr : BPTree.t) (n r : BPNode.t),
    BPTree.create_child (BPTree.new true) 0 ex_d1 = Some (child, tr)
    /\ BPTree.node tr child = Some n
    /\ BPNode.id n = 1
    /\ BPNode.parent_id n = 0
    /\ BPNode.depth n = 1
    /\ BPTree.num_nodes tr = 2
    /\ BPTree.node tr 0 = Some r
    /\ BPNode.has_children r = true.
Proof. eexists _, _, _, _. repeat split; vm_compute; reflexivity. Qed.

(** [test_create_children], [test_get_open_nodes] and [test_statistics]. *)
Example test_create_children :
  exists (children : list NodePtr) (tr : BPTree.t) (r : BPNode.t),
    BPTree.create_children (BPTree.new true) 0 [ex_d1; ex_d3] = Some (children, tr)
    /\ children = [1; 2]
    /\ BPTree.num_nodes tr = 3
    /\ BPTree.node tr 0 = Some r
    /\ BPNode.status r = BRANCHED
    /\ length (BPTree.get_open_nodes tr) = 2%nat
    /\ TreeStats.nodes_created (BPTree.stats tr) = 3
    /\ TreeStats.nodes_branched (BPTree.stats tr) = 1
    /\ TreeStats.nodes_open (BPTree.stats tr) = 2
    /\ TreeStats.max_depth (BPTree.stats tr) = 1.
Proof. eexists _, _, _. repeat split; vm_compute; reflexivity. Qed.

(** [test_inherited_decisions] and scenario E2. *)
Example test_inherited_decisions :
  exists (tr : BPTree.t) (child2 : BPNode.t),
    run_calls any_call (BPTree.new true) [T_create_child 0 ex_d1; T_create_child 1 ex_d2]
    = Some tr
    /\ BPTree.node tr 2 = Some child2
    /\ BPNode.inherited_decisions child2 = [ex_d1]
    /\ BPNode.local_decisions child2 = [ex_d2]
    /\ BPNode.num_decisions child2 = 2
    /\ BPNode.depth child2 = 2
    /\ TreeStats.max_depth (BPTree.stats tr) = 2.
Proof. eexists _, _. repeat split; vm_compute; reflexivity. Qed.

(** [test_node_lookup]. *)
Example test_node_lookup :
  exists (child : NodePtr) (tr : BPTree.t),
    BPTree.create_child (BPTree.new true) 0 ex_d1 = Some (child, tr)
    /\ child = 1
    /\ BPTree.node tr 999 = None
    /\ BPTree.has_node tr 0 = true
    /\ BPTree.has_node tr 1 = true
    /\ BPTree.has_node tr 999 = false.
Proof. eexists _, _. repeat split; vm_compute; reflexivity. Qed.

(** [test_bounds]: the gap of the bounds 50 and 100 is 0.5 up to 1e-9. *)
Example test_bounds :
  Double.lt
    (Double.abs
       (BPTree.gap
          (BPTree.set_global_upper_bound 100%float
             (BPTree.set_global_lower_bound 50%float (BPTree.new true))) - 0.5)%float)
    1e-9%float = true.
Proof. reflexivity. Qed.

(** [test_prune_by_bound] of test_tree.cpp and scenario E3. *)
Example test_tree_prune_by_bound :
  exists (tr : BPTree.t) (c0 c1 : BPNode.t),
    run_calls any_call (BPTree.new true)
      [T_create_children 0 [ex_d1; ex_d3];
       T_node 1 (N_set_lower_bound 100%float);
       T_node 2 (N_set_lower_bound 50%float);
       T_set_global_upper_bound 75%float]
    = Some tr
    /\ fst (BPTree.prune_by_bound tr) = 1
    /\ BPTree.node (snd (BPTree.prune_by_bound tr)) 1 = Some c0
    /\ BPNode.status c0 = PRUNED_BOUND
    /\ BPTree.node (snd (BPTree.prune_by_bound tr)) 2 = Some c1
    /\ BPNode.can_be_explored c1 = true
    /\ TreeStats.nodes_open (BPTree.stats (snd (BPTree.prune_by_bound tr))) = 1.
Proof. eexists _, _, _. repeat split; vm_compute; reflexivity. Qed.

(** [test_path_to_root]. *)
Example test_path_to_root :
  exists tr : BPTree.t,
    run_calls any_call (BPTree.new true) [T_create_child 0 ex_d1; T_create_child 1 ex_d3]
    = Some tr
    /\ BPTree.get_path_to_root 3 tr 2 = Some [0; 1; 2].
Proof. eexists. repeat split; vm_compute; reflexivity. Qed.

(** [test_node_status] and [test_prune_by_bound] of test_node.cpp. *)
Example test_node_status :
  BPNode.can_be_explored BPNode.root = true
  /\ BPNode.is_processed BPNode.root = false
  /\ BPNode.is_pruned BPNode.root = false
  /\ BPNode.can_be_explored (BPNode.set_status PRUNED_BOUND BPNode.root) = false
  /\ BPNode.is_processed (BPNode.set_status PRUNED_BOUND BPNode.root) = true
  /\ BPNode.is_pruned (BPNode.set_status PRUNED_BOUND BPNode.root) = true
  /\ BPNode.try_prune_by_bound 150%float ex_node_lb_100 = (false, ex_node_lb_100)
  /\ BPNode.try_prune_by_bound 100%float ex_node_lb_100
     = (true, BPNode.set_status PRUNED_BOUND ex_node_lb_100).
Proof. repeat split. Qed.

(** [test_node_bounds]: the gap of the bounds 90 and 100 is 0.1 up to 1e-9. *)
Example test_node_bounds :
  Double.lt (Double.abs (BPNode.gap ex_node_90_100 - 0.1)%float) 1e-9%float = true.
Proof. reflexivity. Qed.

(** ** Further properties of the specification *)

(** *** Paths and depths (properties 1 and 9 of the specification) *)




(** *** After [prune_by_bound] (property 4 of the specification) *)

(** X2.  After [prune_by_bound()] no explorable node has
    [lower_bound >= global_upper_bound - 1e-6]; the global upper bound is
    the one before the call. *)
Theorem prune_by_bound_leaves_none (tr : BPTree.t) (k : NodeId) (n : BPNode.t) :
  BPTree.nodes_ (snd (BPTree.prune_by_bound tr)) !! k = Some n ->
  BPNode.can_be_explored n = true ->
  Double.ge (BPNode.lower_bound n)
    (BPTree.global_upper_bound (snd (BPTree.prune_by_bound tr)) - EPS)%float = false.
Proof.
  cbn. rewrite lookup_fmap.
  destruct (BPTree.nodes_ tr !! k) as [n0|]; [|discriminate]. cbn.
  intros H. injection H as <-.
  unfold BPTree.prune_visit, BPNode.try_prune_by_bound, BPTree.global_upper_bound. cbn.
  destruct (BPNode.can_be_explored n0) eqn:E0; cbn; [|congruence].
  unfold BPNode.lower_bound.
  destruct (Double.ge (BPNode.lower_bound_ n0) _) eqn:Eg; cbn; [discriminate | auto].
Qed.

(** X2 on scenario E3: the second child (lower bound 50, global upper bound
    75) stays explorable. *)
Lemma prune_by_bound_leaves_none_witness :
  exists (tr : BPTree.t) (n : BPNode.t),
    run_calls any_call (BPTree.new true)
      [T_create_children 0 [ex_d1; ex_d3];
       T_node 1 (N_set_lower_bound 100%float);
       T_node 2 (N_set_lower_bound 50%float);
       T_set_global_upper_bound 75%float]
    = Some tr
    /\ BPTree.nodes_ (snd (BPTree.prune_by_bound tr)) !! 2 = Some n
    /\ BPNode.can_be_explored n = true
    /\ Double.ge (BPNode.lower_bound n)
         (BPTree.global_upper_bound (snd (BPTree.prune_by_bound tr)) - EPS)%float = false.
Proof.
  eexists _, _. split; [vm_compute; reflexivity|].
  split; [vm_compute; reflexivity|]. split; [reflexivity|].
  apply (prune_by_bound_leaves_none _ 2); vm_compute; reflexivity.
Defined.

(** *** Repeated selection returns every explorable handle *)

Section SelectAll.

Variable comp : BPNode.t -> BPNode.t -> bool.
Variable st : store.

Lemma push_perm (x : NodePtr) (q : PriorityQueue.t) :
  PriorityQueue.push comp st x q ≡ₚ x :: q.
Proof using Type.
  induction q as [|y q IH]; cbn; [reflexivity|].
  destruct (comp (st y) (st x)); [reflexivity|].
  rewrite IH. apply Permutation_swap.
Qed.

Lemma push_all_perm (valid : list NodePtr) (q : PriorityQueue.t) :
  fold_left (fun q node => PriorityQueue.push comp st node q) valid q ≡ₚ valid ++ q.
Proof using Type.
  revert q. induction valid as [|x valid IH]; intros q; cbn; [reflexivity|].
  rewrite IH, push_perm. symmetry. apply Permutation_middle.
Qed.

Lemma prune_perm (q : PriorityQueue.t) :
  snd (HeapSelector.prune comp st q) ≡ₚ explorable st q.
Proof using Type. rewrite prune_queue, push_all_perm, app_nil_r. reflexivity. Qed.

Lemma explorable_length (q : list NodePtr) :
  (length (explorable st q) <= length q)%nat.
Proof using Type. unfold explorable. apply length_filter. Qed.

Lemma heap_select_all_perm (fuel : nat) (q : PriorityQueue.t) :
  (length (explorable st q) <= fuel)%nat ->
  fst (heap_select_all comp st fuel q) ≡ₚ explorable st q.
Proof using Type.
  revert q. induction fuel as [|fuel IH]; intros q Hlen; cbn.
  - destruct (explorable st q); [reflexivity | cbn in Hlen; lia].
  - unfold HeapSelector.select_next.
    pose proof (prune_perm q) as Hp. pose proof (prune_elem comp st q) as He.
    destruct (snd (HeapSelector.prune comp st q)) as [|x q1]; cbn; [exact Hp|].
    assert (Hall : explorable st q1 = q1).
    { apply explorable_all. intros p Hin.
      assert (Hin' : p ∈ explorable st q) by (apply He; right; exact Hin).
      apply explorable_elem in Hin'. tauto. }
    specialize (IH q1). rewrite Hall in IH.
    apply Permutation_length in Hp as Hl. cbn in Hl.
    destruct (heap_select_all comp st fuel q1) as [rest q2]. cbn in *.
    rewrite IH by lia. exact Hp.
Qed.

End SelectAll.

(** X3.  With at least as many calls as handles held, repeated [select_next]
    on a best-first or a depth-first selector, the nodes left alone in
    between, returns exactly the explorable handles held, each as often as
    it is held. *)
Theorem select_all_returns_explorable (fuel : nat) (st : store) :
  (forall s : BestFirstSelector.t,
     (length (BestFirstSelector.queue_ s) <= fuel)%nat ->
     fst (Selector.select_all fuel st s) ≡ₚ explorable st (BestFirstSelector.queue_ s))
  /\ (forall s : DepthFirstSelector.t,
        (length (DepthFirstSelector.queue_ s) <= fuel)%nat ->
        fst (Selector.select_all fuel st s)
        ≡ₚ explorable st (DepthFirstSelector.queue_ s)).
Proof.
  split; intros s Hlen.
  - rewrite best_first_select_all. cbn [fst]. apply heap_select_all_perm.
    pose proof (explorable_length st (BestFirstSelector.queue_ s)). lia.
  - rewrite depth_first_select_all. cbn [fst]. apply heap_select_all_perm.
    pose proof (explorable_length st (DepthFirstSelector.queue_ s)). lia.
Qed.

(** X3 on the selector of scenario E4. *)
Lemma select_all_returns_explorable_witness :
  fst (Selector.select_all 3 ex_store_E4
         (Selector.add_nodes ex_store_E4 [Some 1; Some 2; Some 3] BestFirstSelector.init))
  ≡ₚ explorable ex_store_E4
       (BestFirstSelector.queue_
          (Selector.add_nodes ex_store_E4 [Some 1; Some 2; Some 3] BestFirstSelector.init)).
Proof.
  apply (proj1 (select_all_returns_explorable 3 ex_store_E4)). vm_compute. lia.
Defined.
(** ** The node pool *)

Section PoolFacts.

Variable T : Type.
Variable T_default : T.

Lemma pool_after_new (c : Z) : 0 <= c -> pool_after T_default c 0 (NodePool.new T_default c).
Proof using Type.
  intros Hc. unfold pool_after, NodePool.new, NodePool.allocate_chunk. cbn.
  repeat split; try lia. repeat constructor.
Qed.

Lemma slot_in_bounds (p : NodePool.t T) (c ch sl : Z) :
  Forall (fun chunk => chunk = replicate (Z.to_nat c) T_default) (NodePool.chunks_ p) ->
  0 <= ch < Z.of_nat (length (NodePool.chunks_ p)) -> 0 <= sl < c ->
  NodePool.slot p (ch, sl) = Some T_default.
Proof using Type.
  intros Hall Hch Hsl. unfold NodePool.slot. cbn.
  destruct (Z.ltb_spec ch 0); [lia|]. destruct (Z.ltb_spec sl 0); [lia|]. cbn.
  destruct (lookup_lt_is_Some_2 (NodePool.chunks_ p) (Z.to_nat ch)) as [chunk E]; [lia|].
  rewrite E. cbn. rewrite Forall_forall in Hall.
  rewrite (Hall chunk) by (eapply list_elem_of_lookup_2; exact E).
  apply lookup_replicate_2. lia.
Qed.

Lemma slot_bounds (p : NodePool.t T) (node : NodePool.ptr) (x : T) :
  NodePool.slot p node = Some x ->
  0 <= fst node < Z.of_nat (length (NodePool.chunks_ p)) /\ 0 <= snd node.
Proof using Type.
  unfold NodePool.slot. destruct node as [ch sl]. cbn.
  destruct (Z.ltb_spec ch 0); [discriminate|]. destruct (Z.ltb_spec sl 0); [discriminate|].
  cbn. destruct (NodePool.chunks_ p !! Z.to_nat ch) as [chunk|] eqn:E; [|discriminate].
  intros _. apply lookup_lt_Some in E. lia.
Qed.

(** One [allocate()]: the slot handed out is the next one in the order of
    the chunks; the slots handed out before stay where they are. *)
Lemma allocate_spec (c k : Z) (p p' : NodePool.t T) (node : NodePool.ptr) :
  1 <= c < 2 ^ 64 -> 0 <= k -> k + 1 < 2 ^ 64 ->
  pool_after T_default c k p ->
  NodePool.allocate T_default p = (node, p') ->
  node = (k / c, k mod c)
  /\ pool_after T_default c (k + 1) p'
  /\ NodePool.slot p' node = Some T_default
  /\ (forall (nd : NodePool.ptr) (x : T),
        NodePool.slot p nd = Some x -> NodePool.slot p' nd = Some x).
Proof using Type.
  intros Hc Hk Hk1 (Ecs & Et & Esum & Hlen & Hnext & Hfirst & Hall) H.
  unfold NodePool.allocate in H. rewrite Ecs in H.
  destruct (Z.leb_spec c (NodePool.next_in_chunk_ p)) as [Hfull | Hroom];
    cbn in H; injection H as <- <-.
  - (* the last chunk is full: a new chunk *)
    assert (En : NodePool.next_in_chunk_ p = c) by lia.
    rewrite length_app. cbn [length].
    assert (Ek : k = Z.of_nat (length (NodePool.chunks_ p)) * c) by lia.
    split; [|split; [|split]].
    + f_equal.
      * replace (Z.of_nat (length (NodePool.chunks_ p) + 1) - 1)
          with (Z.of_nat (length (NodePool.chunks_ p))) by lia.
        rewrite Ek. symmetry. apply Z.div_mul. lia.
      * rewrite Ek. symmetry. apply Z.mod_mul. lia.
    + unfold pool_after. cbn. rewrite length_app. cbn [length].
      unfold size_t_wrap. rewrite !Z.mod_small by lia.
      rewrite Ecs, Et.
      repeat split; try lia.
      apply Forall_app. split; [exact Hall|]. repeat constructor; rewrite ?Ecs; reflexivity.
    + apply (slot_in_bounds _ c); cbn.
      * apply Forall_app. split; [exact Hall|]. repeat constructor; rewrite ?Ecs; reflexivity.
      * rewrite length_app. cbn. lia.
      * lia.
    + intros [ch sl] x Hs. pose proof (slot_bounds _ _ _ Hs) as [Hb _].
      unfold NodePool.slot in *. cbn in *.
      rewrite lookup_app_l by lia. exact Hs.
  - (* room in the last chunk *)
    split; [|split; [|split]].
    + f_equal.
      * apply (Z.div_unique_pos _ _ _ (NodePool.next_in_chunk_ p)); lia.
      * apply (Z.mod_unique_pos _ _ (Z.of_nat (length (NodePool.chunks_ p)) - 1));
          lia.
    + unfold pool_after. cbn.
      unfold size_t_wrap. rewrite !Z.mod_small by lia.
      rewrite Et. repeat split; try lia. exact Hall.
    + apply (slot_in_bounds _ c); cbn; [exact Hall | lia | lia].
    + intros nd x Hs. exact Hs.
Qed.

Lemma allocate_n_spec (c : Z) (n : nat) (k : Z) (p p' : NodePool.t T)
    (nodes : list NodePool.ptr) :
  1 <= c < 2 ^ 64 -> 0 <= k -> k + Z.of_nat n < 2 ^ 64 ->
  pool_after T_default c k p ->
  NodePool.allocate_n T_default n p = (nodes, p') ->
  length nodes = n
  /\ (forall (i : nat), (i < n)%nat ->
        nodes !! i = Some ((k + Z.of_nat i) / c, (k + Z.of_nat i) mod c))
  /\ pool_after T_default c (k + Z.of_nat n) p'
  /\ (forall node, node ∈ nodes -> NodePool.slot p' node = Some T_default)
  /\ (forall (nd : NodePool.ptr) (x : T),
        NodePool.slot p nd = Some x -> NodePool.slot p' nd = Some x).
Proof using Type.
  intros Hc. revert k p p' nodes.
  induction n as [|n IH]; intros k p p' nodes Hk Hkn Hp H; cbn [NodePool.allocate_n] in H.
  - injection H as <- <-. rewrite Z.add_0_r.
    split; [reflexivity|]. split; [lia|]. split; [exact Hp|].
    split; [intros node Hin; apply elem_of_nil in Hin; contradiction | auto].
  - destruct (NodePool.allocate T_default p) as [node p1] eqn:E1.
    destruct (NodePool.allocate_n T_default n p1) as [rest p2] eqn:E2.
    cbn in H. injection H as <- <-.
    destruct (allocate_spec c k p p1 node Hc Hk ltac:(lia) Hp E1)
      as (-> & Hp1 & Hs1 & Hkeep1).
    destruct (IH (k + 1) p1 p2 rest ltac:(lia) ltac:(lia) Hp1 E2)
      as (Hlen & Hnth & Hp2 & Hs2 & Hkeep2).
    split; [cbn; lia|]. split; [|split; [|split]].
    + intros [|i] Hi; cbn.
      * rewrite Z.add_0_r. reflexivity.
      * rewrite Hnth by lia. do 3 f_equal; lia.
    + replace (k + Z.of_nat (S n)) with (k + 1 + Z.of_nat n) by lia. exact Hp2.
    + intros nd Hin. apply elem_of_cons in Hin as [-> | Hin]; auto.
    + auto.
Qed.

End PoolFacts.

(** X4.  A pool of chunk size [c >= 1] hands out, at its [i]-th allocation
    (counted from 0), slot [i mod c] of chunk [i / c]: no slot is handed out
    twice, every pointer handed out stays within the chunks of the pool,
    [size()] is the number of allocations and [num_chunks()] is that number
    divided by [c], rounded up, and 1 for a pool nothing has been allocated
    from.  [clear()] makes the pool a new pool of the same chunk size, so
    that the same slots are handed out again. *)
Theorem pool_allocates_fresh_slots (T : Type) (T_default : T) (c : Z) (n : nat)
    (nodes : list NodePool.ptr) (p : NodePool.t T) :
  1 <= c < 2 ^ 64 -> Z.of_nat n < 2 ^ 64 ->
  NodePool.allocate_n T_default n (NodePool.new T_default c) = (nodes, p) ->
  (forall i : nat, (i < n)%nat -> nodes !! i = Some (Z.of_nat i / c, Z.of_nat i mod c))
  /\ NoDup nodes
  /\ (forall node, node ∈ nodes -> is_Some (NodePool.slot p node))
  /\ NodePool.size p = Z.of_nat n
  /\ NodePool.num_chunks p = Z.max 1 ((Z.of_nat n + c - 1) / c)
  /\ NodePool.clear T_default p = NodePool.new T_default c.
Proof.
  intros Hc Hn H.
  destruct (allocate_n_spec T T_default c n 0 _ _ _ Hc ltac:(lia) ltac:(lia)
              (pool_after_new T T_default c ltac:(lia)) H)
    as (Hlen & Hnth & Hp & Hs & _).
  change (0 + Z.of_nat n) with (Z.of_nat n) in Hp.
  assert (Hnth' : forall i : nat, (i < n)%nat ->
            nodes !! i = Some (Z.of_nat i / c, Z.of_nat i mod c))
    by (intros i Hi; exact (Hnth i Hi)).
  clear Hnth. rename Hnth' into Hnth.
  split; [exact Hnth|]. split; [|split; [|split; [|split]]].
  - apply NoDup_alt. intros i j x Hi Hj.
    assert (Hi' : (i < n)%nat) by (apply lookup_lt_Some in Hi; lia).
    assert (Hj' : (j < n)%nat) by (apply lookup_lt_Some in Hj; lia).
    rewrite Hnth in Hi by exact Hi'. rewrite Hnth in Hj by exact Hj'.
    injection Hi as <-. injection Hj as Ed Em.
    pose proof (Z.div_mod (Z.of_nat i) c ltac:(lia)).
    pose proof (Z.div_mod (Z.of_nat j) c ltac:(lia)).
    apply Nat2Z.inj. congruence.
  - intros node Hin. rewrite (Hs node Hin). eauto.
  - destruct Hp as (_ & Et & _). exact Et.
  - destruct Hp as (_ & _ & Esum & Hlen1 & Hnext & Hfirst & _).
    unfold NodePool.num_chunks.
    destruct Hfirst as [E0 | Hfirst].
    + assert (length (NodePool.chunks_ p) = 1%nat) by nia.
      assert (n = O) by lia. subst n.
      rewrite H0. cbn [Z.of_nat Z.add].
      rewrite Z.div_small by lia. reflexivity.
    + assert (E : (Z.of_nat n + c - 1) / c = Z.of_nat (length (NodePool.chunks_ p))).
      { symmetry. apply (Z.div_unique_pos _ _ _ (NodePool.next_in_chunk_ p - 1)); lia. }
      rewrite E. lia.
  - destruct Hp as (Ecs & _). unfold NodePool.clear. rewrite Ecs. reflexivity.
Qed.

(** X4 on a pool of chunk size 2: five allocations take the slots (0,0),
    (0,1), (1,0), (1,1), (2,0) of three chunks. *)
Lemma pool_allocates_fresh_slots_witness :
  NodePool.allocate_n BPNode.root 5 (NodePool.new BPNode.root 2)
  = ([(0, 0); (0, 1); (1, 0); (1, 1); (2, 0)],
     snd (NodePool.allocate_n BPNode.root 5 (NodePool.new BPNode.root 2)))
  /\ NoDup (fst (NodePool.allocate_n BPNode.root 5 (NodePool.new BPNode.root 2)))
  /\ NodePool.num_chunks (snd (NodePool.allocate_n BPNode.root 5 (NodePool.new BPNode.root 2)))
     = 3.
Proof.
  split; [vm_compute; reflexivity|].
  destruct (pool_allocates_fresh_slots BPNode.t BPNode.root 2 5
              (fst (NodePool.allocate_n BPNode.root 5 (NodePool.new BPNode.root 2)))
              (snd (NodePool.allocate_n BPNode.root 5 (NodePool.new BPNode.root 2))))
    as (_ & Hnd & _ & _ & Hch & _).
  - lia.
  - cbn. lia.
  - vm_compute. reflexivity.
  - split; [exact Hnd | exact Hch].
Defined.

(** ** The registry of nodes under arbitrary calls *)

Lemma well_formed_ids_below (tr : BPTree.t) : well_formed tr -> ids_below_next tr.
Proof. intros Hwf k n Hk. apply (wf_ids tr Hwf). eauto. Qed.

Lemma well_formed_new (minimize : bool) : well_formed (BPTree.new minimize).
Proof.
  constructor; cbn.
  - intros k. destruct (decide (k = 0)) as [-> | Hk].
    + rewrite lookup_singleton_eq. split; [lia | eauto].
    + rewrite lookup_singleton_ne by congruence. split; [intros [? ?]; discriminate | lia].
  - reflexivity.
  - reflexivity.
  - reflexivity.
  - intros k n H. apply lookup_singleton_Some in H as [_ <-]. cbn. lia.
  - exists 0, (BPNode.set_id 0 BPNode.root). split; [apply lookup_singleton_eq | reflexivity].
  - reflexivity.
Qed.

Lemma well_formed_replace (tr : BPTree.t) (k : NodeId) (n n' : BPNode.t) (s : TreeStats.t) :
  well_formed tr ->
  BPTree.nodes_ tr !! k = Some n ->
  BPNode.depth n' = BPNode.depth n ->
  TreeStats.nodes_created s = TreeStats.nodes_created (BPTree.stats tr) ->
  TreeStats.max_depth s = TreeStats.max_depth (BPTree.stats tr) ->
  TreeStats.best_lower_bound s = TreeStats.best_lower_bound (BPTree.stats tr) ->
  well_formed (BPTree.with_stats s (BPTree.with_nodes (<[k := n']> (BPTree.nodes_ tr)) tr)).
Proof.
  intros [Hids Hsize Hcr Hroot Hle Hmax Hbl] Hk Hd Ec Em Eb.
  constructor; unfold BPTree.stats, BPTree.num_nodes, BPTree.root in *; cbn.
  - intros j. rewrite <- Hids. destruct (decide (j = k)) as [-> | Hj].
    + rewrite lookup_insert_eq, Hk. split; eauto.
    + rewrite lookup_insert_ne by congruence. reflexivity.
  - rewrite map_size_insert_Some by (eexists; exact Hk). exact Hsize.
  - congruence.
  - exact Hroot.
  - intros j m. rewrite Em. destruct (decide (j = k)) as [-> | Hj].
    + rewrite lookup_insert_eq. intros E. injection E as <-. rewrite Hd. eapply Hle, Hk.
    + rewrite lookup_insert_ne by congruence. apply Hle.
  - destruct Hmax as (j & m & Hj & Ed). rewrite Em.
    destruct (decide (j = k)) as [-> | Hjk].
    + exists k, n'. rewrite lookup_insert_eq. split; [reflexivity|].
      rewrite Hk in Hj. injection Hj as <-. congruence.
    + exists j, m. rewrite lookup_insert_ne by congruence. auto.
  - congruence.
Qed.

Lemma well_formed_same_nodes (tr tr' : BPTree.t) :
  well_formed tr ->
  BPTree.nodes_ tr' = BPTree.nodes_ tr ->
  BPTree.next_id_ tr' = BPTree.next_id_ tr ->
  BPTree.root_ tr' = BPTree.root_ tr ->
  TreeStats.nodes_created (BPTree.stats tr') = TreeStats.nodes_created (BPTree.stats tr) ->
  TreeStats.max_depth (BPTree.stats tr') = TreeStats.max_depth (BPTree.stats tr) ->
  TreeStats.best_lower_bound (BPTree.stats tr')
  = TreeStats.best_lower_bound (BPTree.stats tr) ->
  well_formed tr'.
Proof.
  intros [Hids Hsize Hcr Hroot Hle Hmax Hbl] En Ei Er Ec Em Eb.
  constructor; unfold BPTree.num_nodes, BPTree.root in *;
    rewrite ?En, ?Ei, ?Er, ?Ec, ?Em, ?Eb; assumption.
Qed.

(** What [create_child] writes besides the registry and the counters. *)
Lemma create_child_frame (tr : BPTree.t) (parent : NodePtr) (d : BranchingDecision.t)
    (c : NodePtr) (tr' : BPTree.t) (p : BPNode.t) :
  BPTree.nodes_ tr !! parent = Some p ->
  BPTree.create_child tr parent d = Some (c, tr') ->
  BPTree.root_ tr' = BPTree.root_ tr
  /\ BPTree.incumbent_ tr' = BPTree.incumbent_ tr
  /\ BPTree.minimize_ tr' = BPTree.minimize_ tr
  /\ BPTree.global_lower_bound_ tr' = BPTree.global_lower_bound_ tr
  /\ BPTree.global_upper_bound_ tr' = BPTree.global_upper_bound_ tr
  /\ TreeStats.max_depth (BPTree.stats tr')
     = Z.max (TreeStats.max_depth (BPTree.stats tr)) (BPNode.depth p + 1)
  /\ TreeStats.nodes_processed (BPTree.stats tr')
     = TreeStats.nodes_processed (BPTree.stats tr)
  /\ TreeStats.best_lower_bound (BPTree.stats tr')
     = TreeStats.best_lower_bound (BPTree.stats tr)
  /\ TreeStats.best_upper_bound (BPTree.stats tr')
     = TreeStats.best_upper_bound (BPTree.stats tr).
Proof.
  intros Hp H. unfold BPTree.create_child in H. rewrite Hp in H. cbn in H.
  injection H as <- <-. unfold BPTree.stats. cbn.
  destruct (Z.gtb_spec (BPNode.depth p + 1) (TreeStats.max_depth (BPTree.stats_ tr)));
    cbn; repeat split; lia.
Qed.

Lemma well_formed_create_child (tr : BPTree.t) (parent : NodePtr) (d : BranchingDecision.t)
    (c : NodePtr) (tr' : BPTree.t) :
  well_formed tr ->
  BPTree.create_child tr parent d = Some (c, tr') ->
  well_formed tr'.
Proof.
  intros Hwf H. pose proof (well_formed_ids_below tr Hwf) as Hb.
  pose proof (ids_below_next_fresh tr Hb) as Hfresh.
  destruct (create_child_inv _ _ _ _ _ H) as (p & Hp & -> & Hnodes & Hnext & Hcr & _).
  destruct (create_child_frame _ _ _ _ _ p Hp H) as (Hroot & _ & _ & _ & _ & Hmd & _ & Hbl & _).
  assert (Hne : parent <> BPTree.next_id_ tr) by (apply Hb in Hp; lia).
  destruct Hwf as [Hids Hsize Hcreated Hr Hle Hmax Hbest].
  constructor; unfold BPTree.num_nodes, BPTree.root in *.
  - intros k. rewrite Hnodes, Hnext.
    destruct (decide (k = BPTree.next_id_ tr)) as [-> | Hk].
    + rewrite lookup_insert_eq. apply Hb in Hp. split; [lia | eauto].
    + rewrite lookup_insert_ne by congruence.
      destruct (decide (k = parent)) as [-> | Hk'].
      * rewrite lookup_insert_eq. apply Hb in Hp. split; [lia | eauto].
      * rewrite lookup_insert_ne by congruence. rewrite Hids. lia.
  - rewrite Hnodes, Hnext.
    rewrite map_size_insert_None by (rewrite lookup_insert_ne by exact Hne; exact Hfresh).
    rewrite map_size_insert_Some by (eexists; exact Hp). lia.
  - lia.
  - congruence.
  - intros k n. rewrite Hnodes, Hmd.
    destruct (decide (k = BPTree.next_id_ tr)) as [-> | Hk].
    + rewrite lookup_insert_eq. intros E. injection E as <-. cbn. lia.
    + rewrite lookup_insert_ne by congruence.
      destruct (decide (k = parent)) as [-> | Hk'].
      * rewrite lookup_insert_eq. intros E. injection E as <-.
        change (BPNode.depth (BPNode.add_child (BPTree.next_id_ tr) p)) with (BPNode.depth p).
        specialize (Hle _ _ Hp). lia.
      * rewrite lookup_insert_ne by congruence. intros E. specialize (Hle _ _ E). lia.
  - rewrite Hnodes, Hmd. pose proof (Hle _ _ Hp) as Hdp.
    destruct (Z.max_spec (TreeStats.max_depth (BPTree.stats tr)) (BPNode.depth p + 1))
      as [[_ ->] | [_ ->]].
    + exists (BPTree.next_id_ tr), (new_child tr p d).
      rewrite lookup_insert_eq. split; reflexivity.
    + destruct Hmax as (j & m & Hj & Ed).
      assert (j <> BPTree.next_id_ tr) by (apply Hb in Hj; lia).
      destruct (decide (j = parent)) as [-> | Hjp].
      * exists parent, (BPNode.add_child (BPTree.next_id_ tr) p).
        rewrite lookup_insert_ne by congruence. rewrite lookup_insert_eq.
        split; [reflexivity|]. rewrite Hp in Hj. injection Hj as <-. exact Ed.
      * exists j, m. rewrite !lookup_insert_ne by congruence. auto.
  - congruence.
Qed.

Lemma well_formed_create_children_loop (decisions : list BranchingDecision.t)
    (tr : BPTree.t) (parent : NodePtr) (acc children : list NodePtr) (tr' : BPTree.t) :
  well_formed tr ->
  BPTree.create_children_loop tr parent decisions acc = Some (children, tr') ->
  well_formed tr'.
Proof.
  revert tr acc. induction decisions as [|d ds IH]; intros tr acc Hwf H; cbn in H.
  - injection H as <- <-. exact Hwf.
  - destruct (BPTree.create_child tr parent d) as [[c tr1]|] eqn:E; [|discriminate H].
    cbn in H. eapply IH; [|exact H]. eapply well_formed_create_child; eassumption.
Qed.

Lemma apply_node_call_depth (call : node_call) (n : BPNode.t) :
  BPNode.depth (apply_node_call call n) = BPNode.depth n
  /\ BPNode.parent_id (apply_node_call call n) = BPNode.parent_id n.
Proof.
  destruct call; cbn; auto.
  unfold BPNode.try_prune_by_bound. destruct (Double.ge _ _); auto.
Qed.

Lemma prune_visit_depth (g : double) (n : BPNode.t) :
  BPNode.depth (snd (BPTree.prune_visit g n)) = BPNode.depth n.
Proof.
  unfold BPTree.prune_visit, BPNode.try_prune_by_bound.
  destruct (BPNode.can_be_explored n); [|reflexivity].
  destruct (Double.ge _ _); reflexivity.
Qed.

Lemma well_formed_step (tr : BPTree.t) (c : tree_call) (tr' : BPTree.t) :
  well_formed tr -> run_call tr c = Some tr' -> well_formed tr'.
Proof.
  intros Hwf H. destruct c as [p d | p ds | p s | lb | ub | p | | p | p call];
    cbn [run_call] in H.
  - destruct (BPTree.create_child tr p d) as [[c tr1]|] eqn:E; [|discriminate H].
    cbn in H. injection H as <-. eapply well_formed_create_child; eassumption.
  - unfold BPTree.create_children in H.
    destruct (BPTree.create_children_loop tr p ds []) as [[cs tr1]|] eqn:E;
      [|discriminate H].
    cbn in H. destruct (BPTree.nodes_ tr1 !! p) as [n|] eqn:Hn; [|discriminate H].
    cbn in H. injection H as <-.
    apply well_formed_replace with (n := n); auto.
    eapply well_formed_create_children_loop; eassumption.
  - unfold BPTree.mark_processed in H.
    destruct (BPTree.nodes_ tr !! p) as [n|] eqn:Hn; [|discriminate H].
    cbn in H. injection H as <-.
    apply well_formed_replace with (n := n); auto;
      destruct (_ || _); destruct s; reflexivity.
  - injection H as <-. apply (well_formed_same_nodes tr); auto.
  - injection H as <-. apply (well_formed_same_nodes tr); auto.
  - unfold BPTree.update_bounds in H.
    destruct (BPTree.nodes_ tr !! p) as [n|]; [|discriminate H]. cbn in H.
    destruct (_ && _); cbn in H; injection H as <-; [|exact Hwf].
    apply (well_formed_same_nodes tr); auto.
  - injection H as <-.
    destruct Hwf as [Hids Hsize Hcreated Hr Hle Hmax Hbest].
    constructor; unfold BPTree.num_nodes, BPTree.root, BPTree.stats in *; cbn.
    + intros k. rewrite lookup_fmap, <- Hids.
      destruct (BPTree.nodes_ tr !! k); cbn; split; intros [? ?]; eauto; discriminate.
    + rewrite map_size_fmap. exact Hsize.
    + exact Hcreated.
    + exact Hr.
    + intros k n. rewrite lookup_fmap.
      destruct (BPTree.nodes_ tr !! k) as [n0|] eqn:E; [|discriminate].
      cbn. intros E'. injection E' as <-. rewrite prune_visit_depth. eapply Hle, E.
    + destruct Hmax as (j & m & Hj & Ed). eexists j, _. rewrite lookup_fmap, Hj. cbn.
      split; [reflexivity|]. rewrite prune_visit_depth. exact Ed.
    + exact Hbest.
  - unfold BPTree.set_incumbent in H. destruct p as [p|].
    + destruct (BPTree.nodes_ tr !! p) as [n|]; [|discriminate H]. cbn in H.
      injection H as <-. apply (well_formed_same_nodes tr); auto.
    + injection H as <-. apply (well_formed_same_nodes tr); auto.
  - unfold BPTree.on_node in H.
    destruct (BPTree.nodes_ tr !! p) as [n|] eqn:Hn; [|discriminate H].
    cbn in H. injection H as <-.
    change (BPTree.with_nodes (<[p:=apply_node_call call n]> (BPTree.nodes_ tr)) tr)
      with (BPTree.with_stats (BPTree.stats_ tr)
              (BPTree.with_nodes (<[p:=apply_node_call call n]> (BPTree.nodes_ tr)) tr)).
    apply well_formed_replace with (n := n); auto. apply apply_node_call_depth.
Qed.

Lemma run_calls_well_formed (allowed : BPTree.t -> tree_call -> bool)
    (calls : list tree_call) (tr tr' : BPTree.t) :
  well_formed tr -> run_calls allowed tr calls = Some tr' -> well_formed tr'.
Proof.
  revert tr. induction calls as [|c calls IH]; intros tr Hwf H; cbn in H.
  - injection H as <-. exact Hwf.
  - destruct (allowed tr c); [|discriminate H].
    destruct (run_call tr c) as [tr1|] eqn:E; [|discriminate H]. cbn in H.
    eapply IH; [|exact H]. eapply well_formed_step; eassumption.
Qed.

(** *** Nodes stay where they are *)

Lemma node_grows_refl (n : BPNode.t) : node_grows n n.
Proof. repeat split; reflexivity. Qed.

Lemma node_grows_trans (n1 n2 n3 : BPNode.t) :
  node_grows n1 n2 -> node_grows n2 n3 -> node_grows n1 n3.
Proof.
  intros (Ep & Ed & Hc & Hl) (Ep' & Ed' & Hc' & Hl').
  repeat split; try congruence; etransitivity; eassumption.
Qed.

Lemma tree_grows_refl (tr : BPTree.t) : tree_grows tr tr.
Proof. intros k n H. eauto using node_grows_refl. Qed.

Lemma tree_grows_trans (tr1 tr2 tr3 : BPTree.t) :
  tree_grows tr1 tr2 -> tree_grows tr2 tr3 -> tree_grows tr1 tr3.
Proof.
  intros H12 H23 k n H. destruct (H12 k n H) as (n2 & H2 & G2).
  destruct (H23 k n2 H2) as (n3 & H3 & G3). eauto using node_grows_trans.
Qed.

Lemma tree_grows_replace (tr tr' : BPTree.t) (k : NodeId) (n n' : BPNode.t) :
  BPTree.nodes_ tr !! k = Some n ->
  BPTree.nodes_ tr' = <[k := n']> (BPTree.nodes_ tr) ->
  node_grows n n' ->
  tree_grows tr tr'.
Proof.
  intros Hk En Hg j m Hj. rewrite En. destruct (decide (j = k)) as [-> | Hjk].
  - rewrite lookup_insert_eq. rewrite Hk in Hj. injection Hj as <-. eauto.
  - rewrite lookup_insert_ne by congruence. eauto using node_grows_refl.
Qed.

Lemma tree_grows_same_nodes (tr tr' : BPTree.t) :
  BPTree.nodes_ tr' = BPTree.nodes_ tr -> tree_grows tr tr'.
Proof. intros En k n H. rewrite En. eauto using node_grows_refl. Qed.

Lemma apply_node_call_grows (call : node_call) (n : BPNode.t) :
  node_grows n (apply_node_call call n).
Proof.
  destruct call; cbn;
    try (unfold BPNode.try_prune_by_bound; destruct (Double.ge _ _); cbn);
    repeat split; try reflexivity; apply prefix_app_r; reflexivity.
Qed.

Lemma prune_visit_grows (g : double) (n : BPNode.t) :
  node_grows n (snd (BPTree.prune_visit g n)).
Proof.
  unfold BPTree.prune_visit, BPNode.try_prune_by_bound.
  destruct (BPNode.can_be_explored n); [|apply node_grows_refl].
  destruct (Double.ge _ _); repeat split; reflexivity.
Qed.

Lemma create_child_grows (tr : BPTree.t) (parent : NodePtr) (d : BranchingDecision.t)
    (c : NodePtr) (tr' : BPTree.t) :
  well_formed tr ->
  BPTree.create_child tr parent d = Some (c, tr') ->
  tree_grows tr tr'.
Proof.
  intros Hwf H. pose proof (well_formed_ids_below tr Hwf) as Hb.
  destruct (create_child_inv _ _ _ _ _ H) as (p & Hp & -> & Hnodes & _).
  intros k n Hk. rewrite Hnodes.
  assert (k <> BPTree.next_id_ tr) by (apply Hb in Hk; lia).
  rewrite lookup_insert_ne by congruence.
  destruct (decide (k = parent)) as [-> | Hkp].
  - rewrite lookup_insert_eq. eexists. split; [reflexivity|].
    rewrite Hp in Hk. injection Hk as <-.
    repeat split; try reflexivity; apply prefix_app_r; reflexivity.
  - rewrite lookup_insert_ne by congruence. eauto using node_grows_refl.
Qed.

Lemma create_children_loop_grows (decisions : list BranchingDecision.t)
    (tr : BPTree.t) (parent : NodePtr) (acc children : list NodePtr) (tr' : BPTree.t) :
  well_formed tr ->
  BPTree.create_children_loop tr parent decisions acc = Some (children, tr') ->
  tree_grows tr tr'.
Proof.
  revert tr acc. induction decisions as [|d ds IH]; intros tr acc Hwf H; cbn in H.
  - injection H as <- <-. apply tree_grows_refl.
  - destruct (BPTree.create_child tr parent d) as [[c tr1]|] eqn:E; [|discriminate H].
    cbn in H. eapply tree_grows_trans.
    + eapply create_child_grows; eassumption.
    + eapply IH; [|exact H]. eapply well_formed_create_child; eassumption.
Qed.

Lemma tree_grows_step (tr : BPTree.t) (c : tree_call) (tr' : BPTree.t) :
  well_formed tr -> run_call tr c = Some tr' -> tree_grows tr tr'.
Proof.
  intros Hwf H. destruct c as [p d | p ds | p s | lb | ub | p | | p | p call];
    cbn [run_call] in H.
  - destruct (BPTree.create_child tr p d) as [[c tr1]|] eqn:E; [|discriminate H].
    cbn in H. injection H as <-. eapply create_child_grows; eassumption.
  - unfold BPTree.create_children in H.
    destruct (BPTree.create_children_loop tr p ds []) as [[cs tr1]|] eqn:E;
      [|discriminate H].
    cbn in H. destruct (BPTree.nodes_ tr1 !! p) as [n|] eqn:Hn; [|discriminate H].
    cbn in H. injection H as <-.
    eapply tree_grows_trans; [eapply create_children_loop_grows; eassumption|].
    eapply tree_grows_replace; [exact Hn | reflexivity | repeat split; reflexivity].
  - unfold BPTree.mark_processed in H.
    destruct (BPTree.nodes_ tr !! p) as [n|] eqn:Hn; [|discriminate H].
    cbn in H. injection H as <-.
    eapply tree_grows_replace; [exact Hn | reflexivity | repeat split; reflexivity].
  - injection H as <-. apply tree_grows_same_nodes. reflexivity.
  - injection H as <-. apply tree_grows_same_nodes. reflexivity.
  - unfold BPTree.update_bounds in H.
    destruct (BPTree.nodes_ tr !! p) as [n|]; [|discriminate H]. cbn in H.
    destruct (_ && _); cbn in H; injection H as <-;
      apply tree_grows_same_nodes; reflexivity.
  - injection H as <-. intros k n Hk. cbn. rewrite lookup_fmap, Hk. cbn.
    eexists. split; [reflexivity | apply prune_visit_grows].
  - unfold BPTree.set_incumbent in H. destruct p as [p|].
    + destruct (BPTree.nodes_ tr !! p) as [n|]; [|discriminate H]. cbn in H.
      injection H as <-. apply tree_grows_same_nodes. reflexivity.
    + injection H as <-. apply tree_grows_same_nodes. reflexivity.
  - unfold BPTree.on_node in H.
    destruct (BPTree.nodes_ tr !! p) as [n|] eqn:Hn; [|discriminate H].
    cbn in H. injection H as <-.
    eapply tree_grows_replace; [exact Hn | reflexivity | apply apply_node_call_grows].
Qed.

Lemma run_calls_grows (allowed : BPTree.t -> tree_call -> bool)
    (calls : list tree_call) (tr tr' : BPTree.t) :
  well_formed tr -> run_calls allowed tr calls = Some tr' -> tree_grows tr tr'.
Proof.
  revert tr. induction calls as [|c calls IH]; intros tr Hwf H; cbn in H.
  - injection H as <-. apply tree_grows_refl.
  - destruct (allowed tr c); [|discriminate H].
    destruct (run_call tr c) as [tr1|] eqn:E; [|discriminate H]. cbn in H.
    eapply tree_grows_trans; [eapply tree_grows_step; eassumption|].
    eapply IH; [|exact H]. eapply well_formed_step; eassumption.
Qed.

(** X5.  Whatever calls are made on a tree, the identifiers registered are
    exactly 0, ..., [num_nodes()] - 1: [has_node(id)] holds for these and
    [node(id)] is null for every other [id]; [stats().nodes_created] is
    [num_nodes()]; and the root handle is the node registered under 0. *)
Theorem registered_ids_are_consecutive (minimize : bool) (calls : list tree_call)
    (tr : BPTree.t) :
  run_calls any_call (BPTree.new minimize) calls = Some tr ->
  (forall id : NodeId, BPTree.has_node tr id = true <-> 0 <= id < BPTree.num_nodes tr)
  /\ (forall id : NodeId, BPTree.node tr id = None <-> ~ 0 <= id < BPTree.num_nodes tr)
  /\ TreeStats.nodes_created (BPTree.stats tr) = BPTree.num_nodes tr
  /\ BPTree.root tr = Some 0.
Proof.
  intros H.
  pose proof (run_calls_well_formed _ _ _ _ (well_formed_new minimize) H)
    as [Hids Hsize Hcreated Hroot _ _ _].
  split; [|split; [|split]].
  - intros id. unfold BPTree.has_node. rewrite bool_decide_eq_true, Hsize. apply Hids.
  - intros id. unfold BPTree.node. rewrite Hsize, <- Hids, eq_None_not_Some. reflexivity.
  - congruence.
  - exact Hroot.
Qed.

(** X5 after the calls of scenario E2 continued: four nodes, registered
    under 0, 1, 2 and 3. *)
Lemma registered_ids_are_consecutive_witness :
  exists tr : BPTree.t,
    run_calls any_call (BPTree.new true) ex_calls_E2 = Some tr
    /\ BPTree.num_nodes tr = 4
    /\ (forall id : NodeId, BPTree.has_node tr id = true <-> 0 <= id < BPTree.num_nodes tr)
    /\ TreeStats.nodes_created (BPTree.stats tr) = BPTree.num_nodes tr.
Proof.
  eexists. split; [vm_compute; reflexivity|]. split; [vm_compute; reflexivity|].
  destruct (registered_ids_are_consecutive true ex_calls_E2 _ ltac:(vm_compute; reflexivity))
    as (Hh & _ & Hc & _).
  split; [exact Hh | exact Hc].
Defined.

(** X6.  The tree never removes a node nor moves it: whatever calls follow,
    a registered node stays registered under its identifier with the parent
    and the depth it was created with, and its children and its local
    decisions are those it had, followed by the ones added since. *)
Theorem nodes_are_never_removed (minimize : bool) (calls more : list tree_call)
    (tr tr' : BPTree.t) (id : NodeId) (n : BPNode.t) :
  run_calls any_call (BPTree.new minimize) calls = Some tr ->
  run_calls any_call tr more = Some tr' ->
  BPTree.node tr id = Some n ->
  exists n' : BPNode.t,
    BPTree.node tr' id = Some n'
    /\ BPNode.parent_id n' = BPNode.parent_id n
    /\ BPNode.depth n' = BPNode.depth n
    /\ BPNode.children n `prefix_of` BPNode.children n'
    /\ BPNode.local_decisions n `prefix_of` BPNode.local_decisions n'.
Proof.
  intros H Hmore Hn.
  pose proof (run_calls_well_formed _ _ _ _ (well_formed_new minimize) H) as Hwf.
  exact (run_calls_grows _ _ _ _ Hwf Hmore id n Hn).
Qed.

(** X6 on scenario E2 continued: the root of a new tree is still the node
    under 0 after the four calls, without parent and at depth 0. *)
Lemma nodes_are_never_removed_witness :
  exists tr' : BPTree.t,
    run_calls any_call (BPTree.new true) ex_calls_E2 = Some tr'
    /\ exists n' : BPNode.t,
         BPTree.node tr' 0 = Some n'
         /\ BPNode.parent_id n' = BPNode.parent_id (BPNode.set_id 0 BPNode.root)
         /\ BPNode.depth n' = BPNode.depth (BPNode.set_id 0 BPNode.root)
         /\ BPNode.children (BPNode.set_id 0 BPNode.root) `prefix_of` BPNode.children n'
         /\ BPNode.local_decisions (BPNode.set_id 0 BPNode.root)
            `prefix_of` BPNode.local_decisions n'.
Proof.
  eexists. split; [vm_compute; reflexivity|].
  apply (nodes_are_never_removed true [] ex_calls_E2 (BPTree.new true));
    [reflexivity | vm_compute; reflexivity | reflexivity].
Defined.

(** *** Creating children *)

(** X7.  [create_child] registers the new node under the next identifier,
    which is [num_nodes()] and was not registered before; the node is
    pending, has the parent's identifier, the parent's depth plus one, the
    parent's two bounds, all decisions of the parent as inherited decisions
    and the given decision as its only local one, and neither an LP value
    nor a solution.  The parent gains the child; every other node is left
    as it was. *)
Theorem create_child_registers (minimize : bool) (calls : list tree_call) (tr : BPTree.t)
    (parent : NodePtr) (decision : BranchingDecision.t) (c : NodePtr) (tr' : BPTree.t) :
  run_calls any_call (BPTree.new minimize) calls = Some tr ->
  BPTree.create_child tr parent decision = Some (c, tr') ->
  exists p : BPNode.t,
    BPTree.node tr parent = Some p
    /\ c = BPTree.num_nodes tr
    /\ BPTree.node tr c = None
    /\ BPTree.node tr' c
       = Some (BPNode.mk c (BPNode.id p) (BPNode.depth p + 1)
                 (BPNode.lower_bound p) (BPNode.upper_bound p) INF PENDING false
                 (BPNode.all_decisions p) [decision] [] [] [])
    /\ BPTree.node tr' parent = Some (BPNode.add_child c p)
    /\ (forall id : NodeId, id <> c -> id <> parent -> BPTree.node tr' id = BPTree.node tr id)
    /\ BPTree.num_nodes tr' = BPTree.num_nodes tr + 1.
Proof.
  intros H Hc.
  pose proof (run_calls_well_formed _ _ _ _ (well_formed_new minimize) H) as Hwf.
  pose proof (well_formed_ids_below tr Hwf) as Hb.
  pose proof (well_formed_create_child _ _ _ _ _ Hwf Hc) as Hwf'.
  destruct (create_child_inv _ _ _ _ _ Hc) as (p & Hp & -> & Hnodes & Hnext & _).
  assert (Hne : parent <> BPTree.next_id_ tr) by (apply Hb in Hp; lia).
  exists p. unfold BPTree.node. rewrite Hnodes.
  split; [exact Hp|]. split; [symmetry; apply (wf_size tr Hwf)|].
  split; [apply ids_below_next_fresh, Hb|].
  split; [rewrite lookup_insert_eq; reflexivity|].
  split; [rewrite lookup_insert_ne by congruence; apply lookup_insert_eq|].
  split; [intros id H1 H2; rewrite !lookup_insert_ne by congruence; reflexivity|].
  rewrite (wf_size tr Hwf), (wf_size tr' Hwf'). exact Hnext.
Qed.

(** X7 for a child of the root of a new tree. *)
Lemma create_child_registers_witness :
  exists (tr' : BPTree.t) (p : BPNode.t),
    BPTree.create_child (BPTree.new true) 0 ex_d1 = Some (1, tr')
    /\ BPTree.node (BPTree.new true) 0 = Some p
    /\ BPTree.node tr' 1
       = Some (BPNode.mk 1 (BPNode.id p) (BPNode.depth p + 1)
                 (BPNode.lower_bound p) (BPNode.upper_bound p) INF PENDING false
                 (BPNode.all_decisions p) [ex_d1] [] [] [])
    /\ BPTree.node tr' 0 = Some (BPNode.add_child 1 p)
    /\ BPTree.num_nodes tr' = 2.
Proof.
  eexists _, _. split; [vm_compute; reflexivity|].
  split; [reflexivity|].
  destruct (create_child_registers true [] (BPTree.new true) 0 ex_d1 1 _ eq_refl
              ltac:(vm_compute; reflexivity))
    as (p & Hp & _ & _ & Hc & Hpar & _ & Hn).
  injection Hp as <-.
  split; [exact Hc|]. split; [exact Hpar | exact Hn].
Defined.

(** X8.  [stats().max_depth] is the depth of the deepest node of the tree,
    whatever calls are made: no registered node is deeper, and some
    registered node is that deep. *)
Theorem max_depth_is_deepest (minimize : bool) (calls : list tree_call) (tr : BPTree.t) :
  run_calls any_call (BPTree.new minimize) calls = Some tr ->
  (forall (id : NodeId) (n : BPNode.t),
     BPTree.node tr id = Some n ->
     BPNode.depth n <= TreeStats.max_depth (BPTree.stats tr))
  /\ exists (id : NodeId) (n : BPNode.t),
       BPTree.node tr id = Some n
       /\ BPNode.depth n = TreeStats.max_depth (BPTree.stats tr).
Proof.
  intros H.
  pose proof (run_calls_well_formed _ _ _ _ (well_formed_new minimize) H)
    as [_ _ _ _ Hle Hmax _].
  split; [exact Hle | exact Hmax].
Qed.

(** X8 on scenario E2 continued: the deepest node is at depth 3. *)
Lemma max_depth_is_deepest_witness :
  exists tr : BPTree.t,
    run_calls any_call (BPTree.new true) ex_calls_E2 = Some tr
    /\ TreeStats.max_depth (BPTree.stats tr) = 3
    /\ exists (id : NodeId) (n : BPNode.t),
         BPTree.node tr id = Some n
         /\ BPNode.depth n = TreeStats.max_depth (BPTree.stats tr).
Proof.
  eexists. split; [vm_compute; reflexivity|]. split; [vm_compute; reflexivity|].
  apply (max_depth_is_deepest true ex_calls_E2). vm_compute. reflexivity.
Defined.

Lemma ids_from_S (k : NodeId) (n : nat) : ids_from k (S n) = k :: ids_from (k + 1) n.
Proof.
  unfold ids_from. cbn [seq fmap list_fmap]. rewrite Z.add_0_r. f_equal.
  rewrite <- fmap_S_seq, <- list_fmap_compose. apply list_fmap_ext.
  intros _ i _. cbn. lia.
Qed.

Lemma add_children_fields (cs : list NodeId) (p : BPNode.t) (c : NodeId)
    (d : BranchingDecision.t) :
  child_of c (add_children cs p) d = child_of c p d
  /\ BPNode.children (add_children cs p) = BPNode.children p ++ cs
  /\ BPNode.status (add_children cs p) = BPNode.status p
  /\ BPNode.local_decisions (add_children cs p) = BPNode.local_decisions p.
Proof.
  revert p. induction cs as [|x cs IH]; intros p; cbn.
  - rewrite app_nil_r. auto.
  - destruct (IH (BPNode.add_child x p)) as (E1 & E2 & E3 & E4).
    unfold add_children in *. rewrite E1, E2, E3, E4. cbn.
    rewrite <- app_assoc. auto.
Qed.

(** The loop of [create_children]: the children get the next identifiers,
    in the order of the decisions, and are made of the parent as it was
    before the loop. *)
Lemma create_children_loop_spec (parent : NodePtr) (decisions : list BranchingDecision.t)
    (tr : BPTree.t) (acc : list NodePtr) (p : BPNode.t) (children : list NodePtr)
    (tr1 : BPTree.t) :
  well_formed tr ->
  BPTree.nodes_ tr !! parent = Some p ->
  BPTree.create_children_loop tr parent decisions acc = Some (children, tr1) ->
  children = acc ++ ids_from (BPTree.next_id_ tr) (length decisions)
  /\ BPTree.next_id_ tr1 = BPTree.next_id_ tr + Z.of_nat (length decisions)
  /\ BPTree.nodes_ tr1 !! parent
     = Some (add_children (ids_from (BPTree.next_id_ tr) (length decisions)) p)
  /\ (forall (i : nat) (d : BranchingDecision.t),
        decisions !! i = Some d ->
        BPTree.nodes_ tr1 !! (BPTree.next_id_ tr + Z.of_nat i)
        = Some (child_of (BPTree.next_id_ tr + Z.of_nat i) p d))
  /\ (forall k : NodeId,
        k < BPTree.next_id_ tr -> k <> parent ->
        BPTree.nodes_ tr1 !! k = BPTree.nodes_ tr !! k)
  /\ TreeStats.nodes_open (BPTree.stats tr1)
     = TreeStats.nodes_open (BPTree.stats tr) + Z.of_nat (length decisions)
  /\ TreeStats.nodes_branched (BPTree.stats tr1)
     = TreeStats.nodes_branched (BPTree.stats tr).
Proof.
  revert tr acc p. induction decisions as [|d ds IH]; intros tr acc p Hwf Hp H;
    cbn [BPTree.create_children_loop] in H.
  - injection H as <- <-. cbn. rewrite app_nil_r, !Z.add_0_r.
    repeat split; auto. intros i d Hd. discriminate Hd.
  - destruct (BPTree.create_child tr parent d) as [[c tr2]|] eqn:E; [|discriminate H].
    cbn in H.
    pose proof (well_formed_ids_below tr Hwf) as Hb.
    pose proof (well_formed_create_child _ _ _ _ _ Hwf E) as Hwf2.
    destruct (create_child_inv _ _ _ _ _ E)
      as (p0 & Hp0 & -> & Hnodes & Hnext & _ & Hopen & Hbr & _).
    rewrite Hp in Hp0. injection Hp0 as <-.
    assert (Hne : parent <> BPTree.next_id_ tr) by (apply Hb in Hp; lia).
    assert (Hp2 : BPTree.nodes_ tr2 !! parent
                  = Some (BPNode.add_child (BPTree.next_id_ tr) p)).
    { rewrite Hnodes, lookup_insert_ne by congruence. apply lookup_insert_eq. }
    destruct (IH tr2 _ _ Hwf2 Hp2 H) as (Ech & En & Epar & Hkids & Hold & Eo & Ebr).
    rewrite Hnext in *. cbn [length]. rewrite ids_from_S.
    split; [rewrite Ech, <- app_assoc; reflexivity|].
    split; [lia|]. split; [exact Epar|]. split; [|split; [|split]].
    + intros [|i] d' Hd'; cbn in Hd'.
      * injection Hd' as <-. rewrite Z.add_0_r.
        rewrite Hold by lia. rewrite Hnodes. apply lookup_insert_eq.
      * replace (BPTree.next_id_ tr + Z.of_nat (S i))
          with (BPTree.next_id_ tr + 1 + Z.of_nat i) by lia.
        rewrite (Hkids i d' Hd'). reflexivity.
    + intros k Hk Hkp. rewrite Hold by lia.
      rewrite Hnodes, !lookup_insert_ne by (congruence || lia). reflexivity.
    + lia.
    + congruence.
Qed.

(** X10.  [create_children] makes one child per decision, in order, under
    the next identifiers [num_nodes()], [num_nodes()] + 1, ...; each child
    is the node [create_child] would make for its decision; the parent gains
    these children, in order, and becomes [BRANCHED]; the other nodes are
    left as they were; [nodes_branched] goes up by one and [nodes_open] by
    the number of decisions minus one.  For an empty list of decisions the
    parent is marked [BRANCHED] all the same. *)
Theorem create_children_spec (minimize : bool) (calls : list tree_call) (tr : BPTree.t)
    (parent : NodePtr) (decisions : list BranchingDecision.t)
    (children : list NodePtr) (tr' : BPTree.t) :
  run_calls any_call (BPTree.new minimize) calls = Some tr ->
  BPTree.create_children tr parent decisions = Some (children, tr') ->
  exists p : BPNode.t,
    BPTree.node tr parent = Some p
    /\ children = ids_from (BPTree.num_nodes tr) (length decisions)
    /\ (forall (i : nat) (d : BranchingDecision.t),
          decisions !! i = Some d ->
          BPTree.node tr' (BPTree.num_nodes tr + Z.of_nat i)
          = Some (BPNode.mk (BPTree.num_nodes tr + Z.of_nat i)
                    (BPNode.id p) (BPNode.depth p + 1)
                    (BPNode.lower_bound p) (BPNode.upper_bound p) INF PENDING false
                    (BPNode.all_decisions p) [d] [] [] []))
    /\ BPTree.node tr' parent = Some (BPNode.set_status BRANCHED (add_children children p))
    /\ (forall id : NodeId,
          id < BPTree.num_nodes tr -> id <> parent ->
          BPTree.node tr' id = BPTree.node tr id)
    /\ BPTree.num_nodes tr' = BPTree.num_nodes tr + Z.of_nat (length decisions)
    /\ TreeStats.nodes_branched (BPTree.stats tr')
       = TreeStats.nodes_branched (BPTree.stats tr) + 1
    /\ TreeStats.nodes_open (BPTree.stats tr')
       = TreeStats.nodes_open (BPTree.stats tr) + Z.of_nat (length decisions) - 1.
Proof.
  intros H Hc.
  pose proof (run_calls_well_formed _ _ _ _ (well_formed_new minimize) H) as Hwf.
  pose proof (well_formed_ids_below tr Hwf) as Hb.
  assert (Hwf' : well_formed tr').
  { apply (well_formed_step tr (T_create_children parent decisions)); [exact Hwf|].
    cbn. rewrite Hc. reflexivity. }
  pose proof (wf_size tr' Hwf') as Hs'. clear Hwf'.
  unfold BPTree.create_children in Hc.
  destruct (BPTree.create_children_loop tr parent decisions []) as [[cs tr1]|] eqn:E;
    [|discriminate Hc].
  cbn in Hc. destruct (BPTree.nodes_ tr1 !! parent) as [p1|] eqn:Hp1; [|discriminate Hc].
  cbn in Hc. injection Hc as <- <-.
  assert (Hp : exists p, BPTree.nodes_ tr !! parent = Some p).
  { destruct decisions as [|d ds]; cbn in E.
    - injection E as <- <-. eauto.
    - destruct (BPTree.create_child tr parent d) as [[c tr2]|] eqn:E2; [|discriminate E].
      destruct (create_child_inv _ _ _ _ _ E2) as (p & Hp & _). eauto. }
  destruct Hp as [p Hp]. exists p.
  destruct (create_children_loop_spec _ _ _ _ _ _ _ Hwf Hp E)
    as (Ech & En & Epar & Hkids & Hold & Eo & Ebr).
  cbn [app] in Ech. rewrite Hp1 in Epar. injection Epar as ->.
  assert (Hpb : 0 <= parent < BPTree.next_id_ tr) by (apply Hb in Hp; lia).
  rewrite Hs', (wf_size tr Hwf). unfold BPTree.node, BPTree.stats in *. cbn.
  split; [exact Hp|]. split; [exact Ech|]. split; [|split; [|split; [|split; [|split]]]].
  - intros i d Hd. rewrite lookup_insert_ne by lia. apply Hkids, Hd.
  - rewrite lookup_insert_eq, Ech. reflexivity.
  - intros id Hid Hne. rewrite lookup_insert_ne by congruence. apply Hold; assumption.
  - exact En.
  - lia.
  - lia.
Qed.

(** X10 on the root of a new tree, for the two decisions of
    [test_create_children] and for no decision at all. *)
Lemma create_children_spec_witness :
  (exists tr' : BPTree.t,
     BPTree.create_children (BPTree.new true) 0 [ex_d1; ex_d3] = Some ([1; 2], tr')
     /\ TreeStats.nodes_open (BPTree.stats tr') = 2)
  /\ exists (tr' : BPTree.t) (p : BPNode.t),
       BPTree.create_children (BPTree.new true) 0 [] = Some ([], tr')
       /\ BPTree.node (BPTree.new true) 0 = Some p
       /\ BPTree.node tr' 0 = Some (BPNode.set_status BRANCHED p)
       /\ TreeStats.nodes_open (BPTree.stats tr') = 0.
Proof.
  split.
  - eexists. split; [vm_compute; reflexivity|].
    destruct (create_children_spec true [] (BPTree.new true) 0 [ex_d1; ex_d3] [1; 2] _
                eq_refl ltac:(vm_compute; reflexivity))
      as (p & _ & _ & _ & _ & _ & _ & _ & Ho).
    rewrite Ho. reflexivity.
  - eexists _, _. split; [vm_compute; reflexivity|]. split; [reflexivity|].
    destruct (create_children_spec true [] (BPTree.new true) 0 [] [] _
                eq_refl ltac:(vm_compute; reflexivity))
      as (p & Hp & _ & _ & Hpar & _ & _ & _ & Ho).
    injection Hp as <-. split; [exact Hpar|]. rewrite Ho. reflexivity.
Defined.

(** *** The bounds kept in the statistics *)

(** X9.  No operation of the tree or of a node writes
    [stats().best_lower_bound]: whatever calls are made, [set_global_lower_bound]
    included, it keeps its initial value [-inf], and [stats().gap()] is
    [+inf]. *)
Theorem stats_gap_stays_infinite (minimize : bool) (calls : list tree_call) (tr : BPTree.t) :
  run_calls any_call (BPTree.new minimize) calls = Some tr ->
  TreeStats.best_lower_bound (BPTree.stats tr) = NEG_INF
  /\ TreeStats.gap (BPTree.stats tr) = INF.
Proof.
  intros H.
  pose proof (run_calls_well_formed _ _ _ _ (well_formed_new minimize) H)
    as [_ _ _ _ _ _ Hbl].
  split; [exact Hbl|].
  unfold TreeStats.gap. rewrite Hbl.
  change (Double.eq NEG_INF NEG_INF) with true. rewrite orb_true_r. reflexivity.
Qed.

(** X9 with both global bounds set: the gap of the tree is 0.5, the gap of
    the statistics is [+inf]. *)
Lemma stats_gap_stays_infinite_witness :
  exists tr : BPTree.t,
    run_calls any_call (BPTree.new true)
      [T_set_global_lower_bound 50%float; T_set_global_upper_bound 100%float] = Some tr
    /\ BPTree.gap tr = 0.5%float
    /\ TreeStats.best_lower_bound (BPTree.stats tr) = NEG_INF
    /\ TreeStats.gap (BPTree.stats tr) = INF.
Proof.
  eexists. split; [reflexivity|]. split; [vm_compute; reflexivity|].
  apply (stats_gap_stays_infinite true
           [T_set_global_lower_bound 50%float; T_set_global_upper_bound 100%float]).
  reflexivity.
Defined.

Lemma create_children_loop_upper_bound (decisions : list BranchingDecision.t)
    (tr : BPTree.t) (parent : NodePtr) (acc children : list NodePtr) (tr' : BPTree.t) :
  BPTree.create_children_loop tr parent decisions acc = Some (children, tr') ->
  BPTree.global_upper_bound_ tr' = BPTree.global_upper_bound_ tr
  /\ TreeStats.best_upper_bound (BPTree.stats tr')
     = TreeStats.best_upper_bound (BPTree.stats tr).
Proof.
  revert tr acc. induction decisions as [|d ds IH]; intros tr acc H; cbn in H.
  - injection H as <- <-. auto.
  - destruct (BPTree.create_child tr parent d) as [[c tr1]|] eqn:E; [|discriminate H].
    cbn in H. destruct (create_child_inv _ _ _ _ _ E) as (p & Hp & _).
    destruct (create_child_frame _ _ _ _ _ p Hp E) as (_ & _ & _ & _ & Eg & _ & _ & _ & Eb).
    destruct (IH _ _ H) as [Eg' Eb']. split; congruence.
Qed.

Lemma upper_bound_step (tr : BPTree.t) (c : tree_call) (tr' : BPTree.t) :
  TreeStats.best_upper_bound (BPTree.stats tr) = BPTree.global_upper_bound tr ->
  upper_bound_by_tree_call tr c = true ->
  run_call tr c = Some tr' ->
  TreeStats.best_upper_bound (BPTree.stats tr') = BPTree.global_upper_bound tr'.
Proof.
  unfold BPTree.global_upper_bound.
  intros Hinv Hg H. destruct c as [p d | p ds | p s | lb | ub | p | | p | p call];
    cbn [run_call] in H; try discriminate Hg.
  - destruct (BPTree.create_child tr p d) as [[c tr1]|] eqn:E; [|discriminate H].
    cbn in H. injection H as <-. destruct (create_child_inv _ _ _ _ _ E) as (n & Hn & _).
    destruct (create_child_frame _ _ _ _ _ n Hn E) as (_ & _ & _ & _ & Eg & _ & _ & _ & Eb).
    congruence.
  - unfold BPTree.create_children in H.
    destruct (BPTree.create_children_loop tr p ds []) as [[cs tr1]|] eqn:E;
      [|discriminate H].
    cbn in H. destruct (BPTree.nodes_ tr1 !! p) as [n|]; [|discriminate H].
    cbn in H. injection H as <-.
    destruct (create_children_loop_upper_bound _ _ _ _ _ _ E) as [Eg Eb].
    unfold BPTree.stats in *. cbn. congruence.
  - unfold BPTree.mark_processed in H.
    destruct (BPTree.nodes_ tr !! p) as [n|]; [|discriminate H].
    cbn in H. injection H as <-. unfold BPTree.stats in *. cbn.
    destruct (_ || _); destruct s; cbn; exact Hinv.
  - injection H as <-. exact Hinv.
  - unfold BPTree.update_bounds in H.
    destruct (BPTree.nodes_ tr !! p) as [n|]; [|discriminate H]. cbn in H.
    destruct (_ && _); cbn in H; injection H as <-; [reflexivity | exact Hinv].
  - injection H as <-. exact Hinv.
  - unfold BPTree.set_incumbent in H. destruct p as [p|].
    + destruct (BPTree.nodes_ tr !! p) as [n|]; [|discriminate H]. cbn in H.
      injection H as <-. reflexivity.
    + injection H as <-. exact Hinv.
  - unfold BPTree.on_node in H.
    destruct (BPTree.nodes_ tr !! p) as [n|]; [|discriminate H].
    cbn in H. injection H as <-. exact Hinv.
Qed.

(** X28.  As long as the global upper bound is set through [update_bounds]
    and [set_incumbent] only, [stats().best_upper_bound] is the global upper
    bound; [set_global_upper_bound] sets the bound of the tree and leaves
    the one of the statistics behind. *)
Theorem best_upper_bound_follows_tree (minimize : bool) (calls : list tree_call)
    (tr : BPTree.t) :
  run_calls upper_bound_by_tree_call (BPTree.new minimize) calls = Some tr ->
  TreeStats.best_upper_bound (BPTree.stats tr) = BPTree.global_upper_bound tr
  /\ forall ub : double,
       BPTree.global_upper_bound (BPTree.set_global_upper_bound ub tr) = ub
       /\ TreeStats.best_upper_bound (BPTree.stats (BPTree.set_global_upper_bound ub tr))
          = BPTree.global_upper_bound tr.
Proof.
  intros H.
  assert (Hinv : TreeStats.best_upper_bound (BPTree.stats tr) = BPTree.global_upper_bound tr).
  { revert H. generalize (eq_refl : TreeStats.best_upper_bound
                                      (BPTree.stats (BPTree.new minimize))
                                    = BPTree.global_upper_bound (BPTree.new minimize)).
    generalize (BPTree.new minimize). intros tr0 H0. revert tr0 H0.
    induction calls as [|c calls IH]; intros tr0 H0 H; cbn in H.
    - injection H as <-. exact H0.
    - destruct (upper_bound_by_tree_call tr0 c) eqn:Hg; [|discriminate H].
      destruct (run_call tr0 c) as [tr1|] eqn:E; [|discriminate H]. cbn in H.
      apply (IH tr1); [|exact H]. eapply upper_bound_step; eassumption. }
  split; [exact Hinv|]. intros ub. split; [reflexivity | exact Hinv].
Qed.

(** X28 on a tree in which the root became the incumbent with the value
    100: both bounds are 100; after [set_global_upper_bound(75)] the bound
    of the statistics is still 100. *)
Lemma best_upper_bound_follows_tree_witness :
  exists tr : BPTree.t,
    run_calls upper_bound_by_tree_call (BPTree.new true)
      [T_node 0 (N_set_lp_value 100%float); T_node 0 (N_set_is_integer true);
       T_update_bounds 0] = Some tr
    /\ BPTree.global_upper_bound tr = 100%float
    /\ TreeStats.best_upper_bound (BPTree.stats tr) = BPTree.global_upper_bound tr
    /\ TreeStats.best_upper_bound (BPTree.stats (BPTree.set_global_upper_bound 75%float tr))
       = 100%float.
Proof.
  eexists. split; [vm_compute; reflexivity|]. split; [reflexivity|].
  split; [|reflexivity].
  apply (best_upper_bound_follows_tree true
           [T_node 0 (N_set_lp_value 100%float); T_node 0 (N_set_is_integer true);
            T_update_bounds 0]).
  vm_compute. reflexivity.
Defined.

(** ** Open nodes, pruning and bounds *)

Lemma count_nodes_nonneg (P : BPNode.t -> bool) (m : gmap Z BPNode.t) :
  0 <= BPTree.count_nodes P m.
Proof.
  induction m as [|k n m Hk IH] using map_ind.
  - rewrite count_nodes_empty. lia.
  - rewrite count_nodes_insert_fresh by exact Hk. destruct (P n); eval_indicators; lia.
Qed.

Lemma count_nodes_zero (P : BPNode.t -> bool) (m : gmap Z BPNode.t) :
  BPTree.count_nodes P m = 0
  <-> forall (k : NodeId) (n : BPNode.t), m !! k = Some n -> P n = false.
Proof.
  induction m as [|k n m Hk IH] using map_ind.
  - rewrite count_nodes_empty. split; [|reflexivity].
    intros _ j x Hj. rewrite lookup_empty in Hj. discriminate.
  - rewrite count_nodes_insert_fresh by exact Hk.
    pose proof (count_nodes_nonneg P m) as Hnn. split.
    + intros H j x Hj. destruct (decide (j = k)) as [-> | Hjk].
      * rewrite lookup_insert_eq in Hj. injection Hj as <-.
        destruct (P n); [|reflexivity]. revert H. eval_indicators. lia.
      * rewrite lookup_insert_ne in Hj by congruence.
        apply (proj1 IH) with (k := j); [|exact Hj].
        destruct (P n); revert H; eval_indicators; lia.
    + intros H. rewrite (H k n) by apply lookup_insert_eq.
      rewrite (proj2 IH); [reflexivity|].
      intros j x Hj. apply (H j). rewrite lookup_insert_ne; [exact Hj|].
      intros ->. rewrite Hk in Hj. discriminate.
Qed.

(** [get_open_nodes()] lists as many identifiers as there are pending
    nodes. *)
Lemma open_nodes_length (tr : BPTree.t) :
  Z.of_nat (length (BPTree.get_open_nodes tr)) = count_status (has_status PENDING) tr.
Proof.
  unfold BPTree.get_open_nodes, count_status.
  induction (BPTree.nodes_ tr) as [|k n m Hk IH] using map_ind.
  - rewrite map_to_list_empty, count_nodes_empty. reflexivity.
  - rewrite count_nodes_insert_fresh by exact Hk. rewrite <- IH.
    rewrite (map_to_list_insert m k n Hk), filter_cons. cbn [snd].
    unfold BPNode.can_be_explored, BPNode.status, has_status.
    destruct (bool_decide (BPNode.status_ n = PENDING)).
    + rewrite decide_True by reflexivity. cbn. eval_indicators. lia.
    + rewrite decide_False by discriminate. eval_indicators. lia.
Qed.

(** X11.  [get_open_nodes()] returns the identifiers of the registered nodes
    that are [PENDING], each one once. *)
Theorem get_open_nodes_spec (tr : BPTree.t) :
  (forall id : NodeId,
     id ∈ BPTree.get_open_nodes tr
     <-> exists n : BPNode.t, BPTree.node tr id = Some n /\ BPNode.status n = PENDING)
  /\ NoDup (BPTree.get_open_nodes tr).
Proof.
  unfold BPTree.get_open_nodes, BPTree.node. split.
  - intros id. rewrite list_elem_of_fmap. split.
    + intros ([k n] & -> & Hin). apply list_elem_of_filter in Hin as [He Hin].
      apply elem_of_map_to_list in Hin. exists n. split; [exact Hin|].
      cbn in He. unfold BPNode.can_be_explored in He.
      apply bool_decide_eq_true in He. exact He.
    + intros (n & Hn & Es). exists (id, n). split; [reflexivity|].
      apply list_elem_of_filter. split; [|apply elem_of_map_to_list; exact Hn].
      cbn. unfold BPNode.can_be_explored. apply bool_decide_eq_true. exact Es.
  - eapply sublist_NoDup; [apply (NoDup_fst_map_to_list (BPTree.nodes_ tr))|].
    apply fmap_sublist, sublist_filter.
Qed.

(** *** [prune_by_bound] *)

Lemma prune_visit_twice (g : double) (n : BPNode.t) :
  BPTree.prune_visit g (snd (BPTree.prune_visit g n))
  = (false, snd (BPTree.prune_visit g n)).
Proof.
  destruct (prune_visit_status g n) as [Ht Hf].
  destruct (fst (BPTree.prune_visit g n)) eqn:E.
  - destruct (Ht eq_refl) as [_ Es].
    unfold BPTree.prune_visit at 1. unfold BPNode.can_be_explored.
    unfold BPNode.status in Es. rewrite Es. reflexivity.
  - pose proof (Hf eq_refl) as Es. rewrite Es.
    destruct (BPTree.prune_visit g n) as [b n1]. cbn in *. subst. reflexivity.
Qed.

(** A call of [prune_by_bound] that finds nothing to prune changes nothing. *)
Lemma prune_by_bound_none (tr : BPTree.t) :
  (forall (k : NodeId) (n : BPNode.t),
     BPTree.nodes_ tr !! k = Some n ->
     BPTree.prune_visit (BPTree.global_upper_bound_ tr) n = (false, n)) ->
  BPTree.prune_by_bound tr = (0, tr).
Proof.
  intros H. unfold BPTree.prune_by_bound.
  assert (E0 : BPTree.count_nodes
                 (fun n => fst (BPTree.prune_visit (BPTree.global_upper_bound_ tr) n))
                 (BPTree.nodes_ tr) = 0).
  { apply count_nodes_zero. intros k n Hk. rewrite (H k n Hk). reflexivity. }
  assert (En : (fun n => snd (BPTree.prune_visit (BPTree.global_upper_bound_ tr) n))
               <$> BPTree.nodes_ tr = BPTree.nodes_ tr).
  { rewrite <- (map_fmap_id (BPTree.nodes_ tr)) at 2. apply map_fmap_ext.
    intros k n Hk. rewrite (H k n Hk). reflexivity. }
  rewrite E0, En. f_equal.
  destruct tr as [mi no ro inc ne gl gu [s1 s2 s3 s4 s5 s6 s7 s8 s9 s10]]. cbn.
  unfold BPTree.with_stats, BPTree.with_nodes. cbn.
  rewrite Z.add_0_r, Z.sub_0_r. reflexivity.
Qed.

(** X12.  [prune_by_bound()] turns [PRUNED_BOUND] exactly the registered
    nodes that are [PENDING] and have
    [lower_bound >= global_upper_bound - 1e-6], and leaves every other node
    and the global bounds as they are.  The number it returns is the number
    of nodes that leave the list of open nodes; [nodes_pruned_bound] goes up
    and [nodes_open] goes down by it. *)
Theorem prune_by_bound_effect (tr : BPTree.t) :
  (forall id : NodeId,
     BPTree.node (snd (BPTree.prune_by_bound tr)) id
     = (fun n : BPNode.t =>
          if BPNode.can_be_explored n
             && Double.ge (BPNode.lower_bound n) (BPTree.global_upper_bound tr - EPS)%float
          then BPNode.set_status PRUNED_BOUND n else n)
       <$> BPTree.node tr id)
  /\ fst (BPTree.prune_by_bound tr)
     = Z.of_nat (length (BPTree.get_open_nodes tr))
       - Z.of_nat (length (BPTree.get_open_nodes (snd (BPTree.prune_by_bound tr))))
  /\ 0 <= fst (BPTree.prune_by_bound tr)
  /\ TreeStats.nodes_pruned_bound (BPTree.stats (snd (BPTree.prune_by_bound tr)))
     = TreeStats.nodes_pruned_bound (BPTree.stats tr) + fst (BPTree.prune_by_bound tr)
  /\ TreeStats.nodes_open (BPTree.stats (snd (BPTree.prune_by_bound tr)))
     = TreeStats.nodes_open (BPTree.stats tr) - fst (BPTree.prune_by_bound tr)
  /\ BPTree.global_upper_bound (snd (BPTree.prune_by_bound tr))
     = BPTree.global_upper_bound tr
  /\ BPTree.global_lower_bound (snd (BPTree.prune_by_bound tr))
     = BPTree.global_lower_bound tr.
Proof.
  split; [|split; [|split]].
  - intros id. unfold BPTree.node. cbn. rewrite lookup_fmap.
    destruct (BPTree.nodes_ tr !! id) as [n|]; [|reflexivity]. cbn. f_equal.
    unfold BPTree.prune_visit, BPNode.try_prune_by_bound, BPTree.global_upper_bound,
      BPNode.lower_bound.
    destruct (BPNode.can_be_explored n); [|reflexivity]. cbn.
    destruct (Double.ge _ _); reflexivity.
  - rewrite !open_nodes_length, prune_by_bound_counts. eval_indicators. lia.
  - apply count_nodes_nonneg.
  - repeat split.
Qed.

(** X13.  A second [prune_by_bound()] right after the first prunes nothing:
    it returns 0 and leaves the tree as it is. *)
Theorem prune_by_bound_idempotent (tr : BPTree.t) :
  BPTree.prune_by_bound (snd (BPTree.prune_by_bound tr))
  = (0, snd (BPTree.prune_by_bound tr)).
Proof.
  apply prune_by_bound_none. intros k n'. cbn. rewrite lookup_fmap.
  destruct (BPTree.nodes_ tr !! k) as [n|]; [|discriminate]. cbn.
  intros E. injection E as <-. apply prune_visit_twice.
Qed.

(** X14.  While the global upper bound is [+inf] (no incumbent yet),
    [prune_by_bound()] prunes nothing and leaves the tree as it is, unless
    a pending node has the lower bound [+inf]. *)
Theorem prune_by_bound_without_incumbent (tr : BPTree.t) :
  BPTree.global_upper_bound tr = INF ->
  (forall (id : NodeId) (n : BPNode.t),
     BPTree.node tr id = Some n -> BPNode.can_be_explored n = true ->
     BPNode.lower_bound n <> INF) ->
  BPTree.prune_by_bound tr = (0, tr).
Proof.
  intros Eg H. apply prune_by_bound_none. intros k n Hk.
  unfold BPTree.global_upper_bound in Eg. rewrite Eg.
  unfold BPTree.prune_visit, BPNode.try_prune_by_bound.
  destruct (BPNode.can_be_explored n) eqn:Ee; [|reflexivity].
  change (INF - EPS)%float with INF.
  destruct (Double.ge (BPNode.lower_bound_ n) INF) eqn:E; [|reflexivity].
  rewrite DoubleFacts.ge_le in E. apply INF_le_eq in E.
  exfalso. exact (H k n Hk Ee E).
Qed.

(** X14 on a new tree: the root is pending with lower bound [-inf]. *)
Lemma prune_by_bound_without_incumbent_witness :
  BPTree.prune_by_bound (BPTree.new true) = (0, BPTree.new true).
Proof.
  apply prune_by_bound_without_incumbent; [reflexivity|].
  intros id n Hn _ E. unfold BPTree.node in Hn. cbn in Hn.
  apply lookup_singleton_Some in Hn as [_ <-].
  assert (Hlt : Double.lt (BPNode.lower_bound (BPNode.set_id 0 BPNode.root)) INF = true)
    by reflexivity.
  rewrite E in Hlt. discriminate Hlt.
Defined.

(** *** [compute_lower_bound] *)

Lemma compute_lower_bound_fold (nodes : gmap Z BPNode.t) (ids : list NodeId)
    (lb : double) :
  Double.is_nan lb = false ->
  (forall (id : NodeId) (n : BPNode.t),
     id ∈ ids -> nodes !! id = Some n -> BPNode.can_be_explored n = true ->
     Double.is_nan (BPNode.lower_bound n) = false) ->
  let r := fold_left
             (fun lb id =>
                match nodes !! id with
                | Some n => if BPNode.can_be_explored n
                            then Double.min lb (BPNode.lower_bound n) else lb
                | None => lb
                end) ids lb in
  Double.is_nan r = false
  /\ Double.le r lb = true
  /\ (forall (id : NodeId) (n : BPNode.t),
        id ∈ ids -> nodes !! id = Some n -> BPNode.can_be_explored n = true ->
        Double.le r (BPNode.lower_bound n) = true)
  /\ (r = lb
      \/ exists (id : NodeId) (n : BPNode.t),
           id ∈ ids /\ nodes !! id = Some n /\ BPNode.can_be_explored n = true
           /\ r = BPNode.lower_bound n).
Proof.
  revert lb. induction ids as [|x ids IH]; intros lb Hlb Hnan; cbn.
  - split; [exact Hlb|]. split; [apply DoubleFacts.le_refl, Hlb|].
    split; [|left; reflexivity].
    intros id n Hin. apply elem_of_nil in Hin. contradiction.
  - assert (Hnan' : forall (id : NodeId) (n : BPNode.t),
              id ∈ ids -> nodes !! id = Some n -> BPNode.can_be_explored n = true ->
              Double.is_nan (BPNode.lower_bound n) = false)
      by (intros id n Hin; apply Hnan; right; exact Hin).
    destruct (nodes !! x) as [nx|] eqn:Ex;
      [destruct (BPNode.can_be_explored nx) eqn:Ee|].
    + assert (Hx : Double.is_nan (BPNode.lower_bound nx) = false)
        by (apply (Hnan x); [left | exact Ex | exact Ee]).
      pose proof (DoubleFacts.min_not_nan _ _ Hlb Hx) as Hm.
      destruct (IH _ Hm Hnan') as (Hr & Hle & Hall & Hin).
      split; [exact Hr|]. split; [|split].
      * eapply DoubleFacts.le_trans; [exact Hle|]. apply DoubleFacts.min_le_l; assumption.
      * intros id n Hid Hn He. apply elem_of_cons in Hid as [-> | Hid]; [|eauto].
        rewrite Ex in Hn. injection Hn as <-.
        eapply DoubleFacts.le_trans; [exact Hle|]. apply DoubleFacts.min_le_r; assumption.
      * destruct Hin as [Hin | (id & n & Hid & Hn & He & Er)].
        -- destruct (DoubleFacts.min_cases lb (BPNode.lower_bound nx)) as [E | E].
           ++ left. congruence.
           ++ right. exists x, nx. split; [left|]. split; [exact Ex|].
              split; [exact Ee | congruence].
        -- right. exists id, n. split; [right; exact Hid | auto].
    + destruct (IH _ Hlb Hnan') as (Hr & Hle & Hall & Hin).
      split; [exact Hr|]. split; [exact Hle|]. split.
      * intros id n Hid Hn He. apply elem_of_cons in Hid as [-> | Hid]; [|eauto].
        rewrite Ex in Hn. injection Hn as <-. congruence.
      * destruct Hin as [Hin | (id & n & Hid & Hn & He & Er)]; [left; exact Hin|].
        right. exists id, n. split; [right; exact Hid | auto].
    + destruct (IH _ Hlb Hnan') as (Hr & Hle & Hall & Hin).
      split; [exact Hr|]. split; [exact Hle|]. split.
      * intros id n Hid Hn He. apply elem_of_cons in Hid as [-> | Hid]; [|eauto].
        rewrite Ex in Hn. discriminate Hn.
      * destruct Hin as [Hin | (id & n & Hid & Hn & He & Er)]; [left; exact Hin|].
        right. exists id, n. split; [right; exact Hid | auto].
Qed.

(** X15.  [compute_lower_bound(ids)] is the least of the global upper bound
    and the lower bounds of the nodes that are listed, registered and
    pending: it is at most each of them and equal to one of them; an
    identifier that names no node and a node that is not pending count for
    nothing, and for an empty list the result is the global upper bound.
    (For bounds that are not NaN.) *)
Theorem compute_lower_bound_spec (tr : BPTree.t) (open_node_ids : list NodeId) :
  Double.is_nan (BPTree.global_upper_bound tr) = false ->
  (forall (id : NodeId) (n : BPNode.t),
     id ∈ open_node_ids -> BPTree.node tr id = Some n -> BPNode.can_be_explored n = true ->
     Double.is_nan (BPNode.lower_bound n) = false) ->
  Double.le (BPTree.compute_lower_bound tr open_node_ids) (BPTree.global_upper_bound tr)
  = true
  /\ (forall (id : NodeId) (n : BPNode.t),
        id ∈ open_node_ids -> BPTree.node tr id = Some n ->
        BPNode.can_be_explored n = true ->
        Double.le (BPTree.compute_lower_bound tr open_node_ids) (BPNode.lower_bound n)
        = true)
  /\ (BPTree.compute_lower_bound tr open_node_ids = BPTree.global_upper_bound tr
      \/ exists (id : NodeId) (n : BPNode.t),
           id ∈ open_node_ids /\ BPTree.node tr id = Some n
           /\ BPNode.can_be_explored n = true
           /\ BPTree.compute_lower_bound tr open_node_ids = BPNode.lower_bound n)
  /\ BPTree.compute_lower_bound tr [] = BPTree.global_upper_bound tr.
Proof.
  intros Hub Hnan.
  destruct (compute_lower_bound_fold (BPTree.nodes_ tr) open_node_ids _ Hub Hnan)
    as (_ & Hle & Hall & Hin).
  split; [exact Hle|]. split; [exact Hall|]. split; [exact Hin | reflexivity].
Qed.

Example ex_tree_E3_reached :
  run_calls any_call (BPTree.new true) ex_calls_E3_bounds = Some ex_tree_E3.
Proof. vm_compute. reflexivity. Qed.

(** X15 on the tree of scenario E3 before pruning, for the two children and
    an identifier that names no node: the result is 50. *)
Lemma compute_lower_bound_spec_witness :
  BPTree.compute_lower_bound ex_tree_E3 [1; 2; 999] = 50%float
  /\ Double.le (BPTree.compute_lower_bound ex_tree_E3 [1; 2; 999])
       (BPTree.global_upper_bound ex_tree_E3) = true.
Proof.
  split; [vm_compute; reflexivity|].
  apply (compute_lower_bound_spec ex_tree_E3 [1; 2; 999]); [reflexivity|].
  intros id n Hin Hn _.
  repeat (apply elem_of_cons in Hin as [-> | Hin]);
    [vm_compute in Hn; first [discriminate Hn | injection Hn as <-; reflexivity] ..
    | apply elem_of_nil in Hin; contradiction].
Defined.

(** *** [is_complete] *)

(** X16.  As long as statuses change through the tree only (the usage of
    C2), [is_complete()] holds exactly when every registered node is
    processed, that is, when no node is [PENDING] or [PROCESSING]. *)
Theorem is_complete_when_counted (minimize : bool) (calls : list tree_call)
    (tr : BPTree.t) :
  run_calls counted_call (BPTree.new minimize) calls = Some tr ->
  BPTree.is_complete tr = true
  <-> forall (id : NodeId) (n : BPNode.t),
        BPTree.node tr id = Some n -> BPNode.is_processed n = true.
Proof.
  intros H. destruct (new_tree_counted minimize) as [Hids Hag].
  destruct (run_calls_counted _ _ _ Hids Hag H) as [_ [_ Ho _ _ _ _]].
  unfold BPTree.is_complete, BPTree.stats in *. rewrite Z.eqb_eq, Ho.
  unfold count_status. rewrite count_nodes_zero. unfold BPTree.node.
  split; intros Hall id n Hn; specialize (Hall id n Hn);
    unfold BPNode.is_processed, non_terminal, BPNode.status in *;
    destruct (BPNode.status_ n); vm_compute in Hall |- *; congruence.
Qed.

(** X16 on scenario E3 continued: the root is branched, one child pruned,
    the other fathomed. *)
Lemma is_complete_when_counted_witness :
  exists tr : BPTree.t,
    run_calls counted_call (BPTree.new true) ex_calls_E3 = Some tr
    /\ BPTree.is_complete tr = true
    /\ forall (id : NodeId) (n : BPNode.t),
         BPTree.node tr id = Some n -> BPNode.is_processed n = true.
Proof.
  eexists. split; [vm_compute; reflexivity|]. split; [vm_compute; reflexivity|].
  apply (is_complete_when_counted true ex_calls_E3); vm_compute; reflexivity.
Defined.

(** Outside that usage [is_complete()] follows the calls, not the nodes:
    after [mark_processed(root, PROCESSING)] it holds while the root is
    being processed. *)
Example is_complete_follows_calls :
  exists (tr : BPTree.t) (n : BPNode.t),
    run_calls any_call (BPTree.new true) [T_mark_processed 0 PROCESSING] = Some tr
    /\ BPTree.is_complete tr = true
    /\ BPTree.node tr 0 = Some n
    /\ BPNode.is_processed n = false.
Proof. eexists _, _. repeat split; vm_compute; reflexivity. Qed.

(** *** The incumbent *)

(** X17.  [set_incumbent(node)] with a node makes its LP value the global
    upper bound and [stats().best_upper_bound], whatever the bound was and
    whether or not the node is integer, and touches no node; an
    [update_bounds(node)] right after it reports no improvement and changes
    nothing. *)
Theorem set_incumbent_overrides (tr : BPTree.t) (node : NodePtr) (n : BPNode.t)
    (tr' : BPTree.t) :
  BPTree.node tr node = Some n ->
  BPTree.set_incumbent tr (Some node) = Some tr' ->
  BPTree.incumbent tr' = Some node
  /\ BPTree.global_upper_bound tr' = BPNode.lp_value n
  /\ TreeStats.best_upper_bound (BPTree.stats tr') = BPNode.lp_value n
  /\ BPTree.nodes_ tr' = BPTree.nodes_ tr
  /\ BPTree.global_lower_bound tr' = BPTree.global_lower_bound tr
  /\ BPTree.update_bounds tr' node = Some (false, tr').
Proof.
  unfold BPTree.node, BPTree.set_incumbent. intros Hn H. rewrite Hn in H. cbn in H.
  injection H as <-. repeat split.
  unfold BPTree.update_bounds. cbn. rewrite Hn. cbn.
  rewrite DoubleFacts.lt_irrefl, andb_false_r. reflexivity.
Qed.

(** X17 on a new tree with global upper bound 75: the root, not integer and
    with LP value [+inf], becomes the incumbent and the bound [+inf]. *)
Lemma set_incumbent_overrides_witness :
  exists tr' : BPTree.t,
    BPTree.set_incumbent (BPTree.set_global_upper_bound 75%float (BPTree.new true)) (Some 0)
    = Some tr'
    /\ BPTree.global_upper_bound tr' = INF
    /\ BPTree.update_bounds tr' 0 = Some (false, tr').
Proof.
  eexists. split; [reflexivity|].
  destruct (set_incumbent_overrides
              (BPTree.set_global_upper_bound 75%float (BPTree.new true)) 0
              (BPNode.set_id 0 BPNode.root) _ eq_refl eq_refl)
    as (_ & Hub & _ & _ & _ & Hup).
  split; [exact Hub | exact Hup].
Defined.

(** ** One call of a selector *)

Section HeapSelectNext.

Variable comp : BPNode.t -> BPNode.t -> bool.
Hypothesis comp_asym : forall a b, comp a b = true -> comp b a = false.
Hypothesis comp_trans : forall a b c, comp a b = true -> comp b c = true -> comp a c = true.
Variable st : store.

Lemma comp_irrefl (a : BPNode.t) : comp a a = false.
Proof using comp_asym.
  destruct (comp a a) eqn:E; [|reflexivity]. rewrite (comp_asym _ _ E) in E. discriminate.
Qed.

(** [select_next] on the queue: the handle returned is explorable, was held,
    and no explorable handle held comes before it in the order of the
    queue; the others stay, in heap order. *)
Lemma heap_select_next_spec (q : PriorityQueue.t) :
  match HeapSelector.select_next comp st q with
  | (Some p, q') =>
      p :: q' ≡ₚ explorable st q
      /\ (forall x, x ∈ explorable st q -> comp (st p) (st x) = false)
      /\ heap_ordered comp st q'
  | (None, q') => explorable st q = [] /\ q' = []
  end.
Proof using comp_asym comp_trans.
  unfold HeapSelector.select_next.
  pose proof (prune_perm comp st q) as Hp.
  pose proof (prune_ordered comp comp_asym comp_trans st q) as Ho.
  destruct (snd (HeapSelector.prune comp st q)) as [|p q1]; cbn.
  - split; [|reflexivity]. apply Permutation_nil in Hp. exact Hp.
  - apply StronglySorted_inv in Ho as [Ho Hall]. rewrite Forall_forall in Hall.
    split; [exact Hp|]. split; [|exact Ho].
    intros x Hx. rewrite <- Hp in Hx. apply elem_of_cons in Hx as [-> | Hx].
    + apply comp_irrefl.
    + apply Hall, Hx.
Qed.



Lemma push_length (x : NodePtr) (q : PriorityQueue.t) :
  length (PriorityQueue.push comp st x q) = S (length q).
Proof using Type. rewrite (push_perm comp st x q). reflexivity. Qed.

End HeapSelectNext.

Lemma best_first_select_next_queue (st : store) (s : BestFirstSelector.t) :
  Selector.select_next st s
  = (fst (HeapSelector.select_next BestFirstSelector.CompareByBound st
            (BestFirstSelector.queue_ s)),
     BestFirstSelector.mk
       (snd (HeapSelector.select_next BestFirstSelector.CompareByBound st
               (BestFirstSelector.queue_ s)))).
Proof.
  cbn. unfold BestFirstSelector.select_next.
  destruct (HeapSelector.select_next _ _ _). reflexivity.
Qed.

Lemma depth_first_select_next_queue (st : store) (s : DepthFirstSelector.t) :
  Selector.select_next st s
  = (fst (HeapSelector.select_next DepthFirstSelector.CompareByDepth st
            (DepthFirstSelector.queue_ s)),
     DepthFirstSelector.mk
       (snd (HeapSelector.select_next DepthFirstSelector.CompareByDepth st
               (DepthFirstSelector.queue_ s)))).
Proof.
  cbn. unfold DepthFirstSelector.select_next.
  destruct (HeapSelector.select_next _ _ _). reflexivity.
Qed.

Lemma best_first_select_next_spec (st : store) (s s' : BestFirstSelector.t)
    (r : option NodePtr) :
  BestFirstSelector.select_next st s = (r, s') ->
  match r with
  | None =>
      explorable st (BestFirstSelector.queue_ s) = [] /\ BestFirstSelector.queue_ s' = []
  | Some p =>
      p :: BestFirstSelector.queue_ s' ≡ₚ explorable st (BestFirstSelector.queue_ s)
      /\ forall x : NodePtr,
           x ∈ explorable st (BestFirstSelector.queue_ s) ->
           Double.lt (BPNode.lower_bound (st x)) (BPNode.lower_bound (st p)) = false
  end.
Proof.
  intros H. change (Selector.select_next st s = (r, s')) in H.
  rewrite best_first_select_next_queue in H. injection H as <- <-.
  pose proof (heap_select_next_spec _ CompareByBound_asym CompareByBound_trans st
                (BestFirstSelector.queue_ s)) as Hs.
  destruct (HeapSelector.select_next _ _ _) as [[p|] q']; cbn.
  - destruct Hs as (Hp & Hbest & _). split; [exact Hp|].
    intros x Hx. exact (Hbest x Hx).
  - exact Hs.
Qed.

Lemma depth_first_select_next_spec (st : store) (s s' : DepthFirstSelector.t)
    (r : option NodePtr) :
  DepthFirstSelector.select_next st s = (r, s') ->
  match r with
  | None =>
      explorable st (DepthFirstSelector.queue_ s) = [] /\ DepthFirstSelector.queue_ s' = []
  | Some p =>
      p :: DepthFirstSelector.queue_ s' ≡ₚ explorable st (DepthFirstSelector.queue_ s)
      /\ forall x : NodePtr,
           x ∈ explorable st (DepthFirstSelector.queue_ s) ->
           BPNode.depth (st x) <= BPNode.depth (st p)
           /\ (BPNode.depth (st x) = BPNode.depth (st p) ->
               Double.lt (BPNode.lower_bound (st x)) (BPNode.lower_bound (st p)) = false)
  end.
Proof.
  intros H. change (Selector.select_next st s = (r, s')) in H.
  rewrite depth_first_select_next_queue in H. injection H as <- <-.
  pose proof (heap_select_next_spec _ CompareByDepth_asym CompareByDepth_trans st
                (DepthFirstSelector.queue_ s)) as Hs.
  destruct (HeapSelector.select_next _ _ _) as [[p|] q']; cbn.
  - destruct Hs as (Hp & Hbest & _). split; [exact Hp|].
    intros x Hx. destruct (CompareByDepth_false_weak _ _ (Hbest x Hx)) as [Hd | [Hd Hl]].
    + split; [lia|]. intros E. lia.
    + split; [lia|]. intros _. exact Hl.
  - exact Hs.
Qed.



(** *** [std::min_element] and the best-estimate selector *)

Lemma min_element_loop_spec {A : Type} (comp : A -> A -> bool) (l pre : list A)
    (smallest : A) (smallest_i : nat) :
  (forall a b, comp a b = true -> comp b a = false) ->
  (forall a b c, comp a b = true -> comp b c = true -> comp a c = true) ->
  pre !! smallest_i = Some smallest ->
  (forall y, y ∈ pre -> comp y smallest = false) ->
  exists m : A,
    (pre ++ l) !! min_element_loop comp l (length pre) smallest smallest_i = Some m
    /\ forall y, y ∈ pre ++ l -> comp y m = false.
Proof.
  intros Hasym Htrans. revert pre smallest smallest_i.
  induction l as [|x l IH]; intros pre smallest smallest_i Hs Hpre; cbn.
  - exists smallest. rewrite app_nil_r. auto.
  - replace (pre ++ x :: l) with ((pre ++ [x]) ++ l) by (rewrite <- app_assoc; reflexivity).
    replace (S (length pre)) with (length (pre ++ [x])) by (rewrite length_app; cbn; lia).
    destruct (comp x smallest) eqn:E.
    + apply IH.
      * rewrite lookup_app_r by lia. rewrite Nat.sub_diag. reflexivity.
      * intros y Hy. apply elem_of_app in Hy as [Hy | Hy].
        -- destruct (comp y x) eqn:Eyx; [|reflexivity].
           specialize (Hpre y Hy). rewrite (Htrans _ _ _ Eyx E) in Hpre. discriminate.
        -- apply list_elem_of_singleton in Hy as ->.
           destruct (comp x x) eqn:Exx; [|reflexivity].
           rewrite (Hasym _ _ Exx) in Exx. discriminate.
    + apply IH.
      * rewrite lookup_app_l by (apply lookup_lt_Some in Hs; exact Hs). exact Hs.
      * intros y Hy. apply elem_of_app in Hy as [Hy | Hy]; [auto|].
        apply list_elem_of_singleton in Hy as ->. exact E.
Qed.

(** [std::min_element] points to an element that no element of the range is
    less than. *)
Lemma min_element_spec {A : Type} (comp : A -> A -> bool) (l : list A) :
  (forall a b, comp a b = true -> comp b a = false) ->
  (forall a b c, comp a b = true -> comp b c = true -> comp a c = true) ->
  match min_element comp l with
  | None => l = []
  | Some i => exists m : A, l !! i = Some m /\ forall y, y ∈ l -> comp y m = false
  end.
Proof.
  intros Hasym Htrans. destruct l as [|x l]; cbn; [reflexivity|].
  apply (min_element_loop_spec comp l [x] x O Hasym Htrans); [reflexivity|].
  intros y Hy. apply list_elem_of_singleton in Hy as ->.
  destruct (comp x x) eqn:Exx; [|reflexivity].
  rewrite (Hasym _ _ Exx) in Exx. discriminate.
Qed.

Lemma best_estimate_select_next_aux (st : store) (s s' : BestEstimateSelector.t)
    (r : option NodePtr) :
  Selector.select_next st s = (r, s') ->
  match r with
  | None =>
      explorable st (BestEstimateSelector.nodes_ s) = [] /\ Selector.empty s' = true
  | Some p =>
      exists i : nat,
        explorable st (BestEstimateSelector.nodes_ s) !! i = Some p
        /\ BestEstimateSelector.nodes_ s'
           = delete i (explorable st (BestEstimateSelector.nodes_ s))
        /\ forall x : NodePtr,
             x ∈ explorable st (BestEstimateSelector.nodes_ s) ->
             Double.lt (BestEstimateSelector.estimate st s x)
               (BestEstimateSelector.estimate st s p) = false
  end
  /\ BestEstimateSelector.estimate_weight_ s' = BestEstimateSelector.estimate_weight_ s
  /\ BestEstimateSelector.global_upper_bound_ s' = BestEstimateSelector.global_upper_bound_ s
  /\ BestEstimateSelector.max_depth_ s' = BestEstimateSelector.max_depth_ s.
Proof.
  cbn. unfold BestEstimateSelector.select_next, BestEstimateSelector.prune. cbn.
  fold (explorable st (BestEstimateSelector.nodes_ s)).
  set (s1 := BestEstimateSelector.mk _ _ _ _).
  assert (Hest : forall x, BestEstimateSelector.estimate st s1 x
                           = BestEstimateSelector.estimate st s x) by reflexivity.
  pose proof (min_element_spec
                (fun a b => Double.lt (BestEstimateSelector.estimate st s1 a)
                              (BestEstimateSelector.estimate st s1 b))
                (explorable st (BestEstimateSelector.nodes_ s))
                (fun a b => DoubleFacts.lt_asym _ _)
                (fun a b c => DoubleFacts.lt_trans _ _ _)) as Hm.
  destruct (min_element _ _) as [i|].
  - destruct Hm as (m & Hi & Hmin). intros H. injection H as <- <-. cbn. rewrite Hi.
    split; [|auto]. exists i. split; [exact Hi|]. split; [reflexivity|].
    intros x Hx. rewrite <- !Hest. apply Hmin, Hx.
  - intros H. injection H as <- <-. cbn. rewrite Hm.
    unfold BestEstimateSelector.empty, s1. cbn. rewrite Hm. auto.
Qed.


(** X19.  One [select_next] of a best-estimate selector.  If no handle held
    is explorable the result is null and the selector is left empty.
    Otherwise the handles that are not explorable are dropped, and of the
    others one is returned and taken out, the rest keeping their order: an
    explorable handle such that no explorable handle held has a smaller
    estimate.  The weight, the upper bound and the greatest depth the
    selector remembers are the same afterwards. *)
Theorem best_estimate_select_next_spec (st : store) (s s' : BestEstimateSelector.t)
    (r : option NodePtr) :
  Selector.select_next st s = (r, s') ->
  match r with
  | None =>
      explorable st (BestEstimateSelector.nodes_ s) = [] /\ Selector.empty s' = true
  | Some p =>
      exists i : nat,
        explorable st (BestEstimateSelector.nodes_ s) !! i = Some p
        /\ BestEstimateSelector.nodes_ s'
           = delete i (explorable st (BestEstimateSelector.nodes_ s))
        /\ forall x : NodePtr,
             x ∈ explorable st (BestEstimateSelector.nodes_ s) ->
             Double.lt (BestEstimateSelector.estimate st s x)
               (BestEstimateSelector.estimate st s p) = false
  end
  /\ BestEstimateSelector.estimate_weight_ s' = BestEstimateSelector.estimate_weight_ s
  /\ BestEstimateSelector.global_upper_bound_ s' = BestEstimateSelector.global_upper_bound_ s
  /\ BestEstimateSelector.max_depth_ s' = BestEstimateSelector.max_depth_ s.
Proof. apply best_estimate_select_next_aux. Qed.

(** X19 on the nodes of scenario E4 in a new best-estimate selector of
    weight 0.5: no incumbent yet, the estimates are 69.5, 49.5 and 59.5, and
    the handle 2 is returned. *)
Lemma best_estimate_select_next_spec_witness :
  exists s' : BestEstimateSelector.t,
    Selector.select_next ex_store_E4
      (Selector.add_nodes ex_store_E4 [Some 1; Some 2; Some 3]
         (BestEstimateSelector.init 0.5%float))
    = (Some 2, s')
    /\ BestEstimateSelector.nodes_ s' = [1; 3]
    /\ BestEstimateSelector.max_depth_ s'
       = BestEstimateSelector.max_depth_
           (Selector.add_nodes ex_store_E4 [Some 1; Some 2; Some 3]
              (BestEstimateSelector.init 0.5%float)).
Proof.
  eexists. split; [vm_compute; reflexivity|]. split; [reflexivity|].
  refine (proj2 (proj2 (proj2 (best_estimate_select_next_spec ex_store_E4 _ _ (Some 2) _)))).
  vm_compute. reflexivity.
Defined.

(** *** The hybrid selector *)

Lemma best_first_prune_perm (st : store) (s : BestFirstSelector.t) :
  BestFirstSelector.queue_ (snd (BestFirstSelector.prune st s))
  ≡ₚ explorable st (BestFirstSelector.queue_ s).
Proof. rewrite best_first_prune_queue. apply prune_perm. Qed.

Lemma depth_first_prune_perm (st : store) (s : DepthFirstSelector.t) :
  DepthFirstSelector.queue_ (snd (DepthFirstSelector.prune st s))
  ≡ₚ explorable st (DepthFirstSelector.queue_ s).
Proof. rewrite depth_first_prune_queue. apply prune_perm. Qed.

Lemma hybrid_select_next_aux (st : store) (s s' : HybridSelector.t)
    (r : option NodePtr) :
  Selector.select_next st s = (r, s') ->
  let bf := BestFirstSelector.queue_ (HybridSelector.best_first_ s) in
  let df := DepthFirstSelector.queue_ (HybridSelector.depth_first_ s) in
  let bf' := BestFirstSelector.queue_ (HybridSelector.best_first_ s') in
  let df' := DepthFirstSelector.queue_ (HybridSelector.depth_first_ s') in
  if (HybridSelector.diving_ s
      || (HybridSelector.dive_frequency_ s <=? HybridSelector.nodes_since_dive_ s))
     && negb (bool_decide (explorable st df = []))
  then
    exists p : NodePtr,
      r = Some p
      /\ p :: df' ≡ₚ explorable st df
      /\ bf' ≡ₚ explorable st bf
      /\ forall x : NodePtr,
           x ∈ explorable st df ->
           BPNode.depth (st x) <= BPNode.depth (st p)
           /\ (BPNode.depth (st x) = BPNode.depth (st p) ->
               Double.lt (BPNode.lower_bound (st x)) (BPNode.lower_bound (st p)) = false)
  else
    match r with
    | Some p =>
        p :: bf' ≡ₚ explorable st bf
        /\ forall x : NodePtr,
             x ∈ explorable st bf ->
             Double.lt (BPNode.lower_bound (st x)) (BPNode.lower_bound (st p)) = false
    | None => explorable st bf = [] /\ bf' = []
    end
    /\ df' ≡ₚ explorable st df
    /\ HybridSelector.nodes_since_dive_ s' = HybridSelector.nodes_since_dive_ s + 1
    /\ HybridSelector.diving_ s' = false.
Proof.
  intros H bf df bf' df'. cbn in H. unfold HybridSelector.select_next in H.
  (* what the two queues answer *)
  pose proof (best_first_select_next_spec st (HybridSelector.best_first_ s)) as Hbf.
  pose proof (depth_first_select_next_spec st (HybridSelector.depth_first_ s)) as Hdf.
  pose proof (depth_first_prune_perm st (HybridSelector.depth_first_ s)) as Hdp.
  pose proof (best_first_prune_perm st (HybridSelector.best_first_ s)) as Hbp.
  destruct (BestFirstSelector.select_next st (HybridSelector.best_first_ s))
    as [rb sb] eqn:Eb.
  destruct (DepthFirstSelector.select_next st (HybridSelector.depth_first_ s))
    as [rd sd] eqn:Ed.
  specialize (Hbf sb rb eq_refl). specialize (Hdf sd rd eq_refl).
  assert (Hdive : (if negb (HybridSelector.diving_ s)
                      && (HybridSelector.dive_frequency_ s
                          <=? HybridSelector.nodes_since_dive_ s)
                   then true else HybridSelector.diving_ s)
                  = HybridSelector.diving_ s
                    || (HybridSelector.dive_frequency_ s
                        <=? HybridSelector.nodes_since_dive_ s)).
  { destruct (HybridSelector.diving_ s), (_ <=? _); reflexivity. }
  rewrite Hdive in H. clear Hdive.
  destruct (HybridSelector.diving_ s
            || (HybridSelector.dive_frequency_ s <=? HybridSelector.nodes_since_dive_ s))
    eqn:Edive; cbn [andb].
  - destruct rd as [p|].
    + (* the dive serves the call *)
      injection H as <- <-. destruct Hdf as [Hperm Hbest].
      assert (Hne : explorable st df <> []).
      { intros E. unfold df in E. rewrite E in Hperm.
        apply Permutation_nil_r in Hperm. discriminate Hperm. }
      rewrite bool_decide_eq_false_2 by exact Hne. cbn [negb].
      exists p. subst bf' df'. cbn. auto.
    + (* the depth-first queue has nothing to explore *)
      destruct Hdf as [He Hempty]. unfold df. rewrite He.
      rewrite bool_decide_eq_true_2 by reflexivity. cbn [negb].
      injection H as <- <-. subst bf' df'. cbn.
      split; [exact Hbf|]. split; [|auto].
      destruct sd as [qd]. cbn in Hempty. destruct qd; [|discriminate Hempty].
      reflexivity.
  - injection H as <- <-. subst bf' df'. cbn.
    split; [exact Hbf|]. split; [exact Hdp | auto].
Qed.



(** With the nodes left alone, the handle a dive returns is returned again
    by the best-first queue later on: six calls on that selector return the
    three nodes twice, and a seventh returns null. *)
Example hybrid_returns_nodes_again :
  fst (Selector.select_all 7 ex_store_E5 ex_hybrid_E5) = [3; 2; 1; 1; 3; 2].
Proof. vm_compute. reflexivity. Qed.

(** *** [add_nodes] and [prune] *)

Lemma explorable_app (st : store) (l1 l2 : list NodePtr) :
  explorable st (l1 ++ l2) = explorable st l1 ++ explorable st l2.
Proof. unfold explorable. apply filter_app. Qed.

Lemma handles_cons (node : option NodePtr) (nodes : list (option NodePtr)) :
  handles (node :: nodes)
  = match node with Some p => p :: handles nodes | None => handles nodes end.
Proof. destruct node; reflexivity. Qed.

Lemma heap_add_node_perm (comp : BPNode.t -> BPNode.t -> bool) (st : store)
    (node : option NodePtr) (q : PriorityQueue.t) :
  HeapSelector.add_node comp st node q ≡ₚ q ++ explorable st (handles [node]).
Proof.
  unfold HeapSelector.add_node. destruct node as [p|].
  - change (handles [Some p]) with [p]. rewrite explorable_cons.
    destruct (BPNode.can_be_explored (st p)).
    + rewrite push_perm. apply Permutation_cons_append.
    + change (explorable st []) with (@nil NodePtr). rewrite app_nil_r. reflexivity.
  - change (explorable st (handles [None])) with (@nil NodePtr).
    rewrite app_nil_r. reflexivity.
Qed.

Lemma heap_add_nodes_perm (comp : BPNode.t -> BPNode.t -> bool) (st : store)
    (nodes : list (option NodePtr)) (q : PriorityQueue.t) :
  fold_left (fun q node => HeapSelector.add_node comp st node q) nodes q
  ≡ₚ q ++ explorable st (handles nodes).
Proof.
  revert q. induction nodes as [|node nodes IH]; intros q; cbn [fold_left].
  - cbn. rewrite app_nil_r. reflexivity.
  - rewrite IH, heap_add_node_perm.
    change (node :: nodes) with ([node] ++ nodes).
    unfold handles at 3. rewrite omap_app. fold (handles [node]) (handles nodes).
    rewrite explorable_app, app_assoc. reflexivity.
Qed.

Lemma best_first_add_nodes_queue (st : store) (nodes : list (option NodePtr))
    (s : BestFirstSelector.t) :
  BestFirstSelector.queue_ (Selector.add_nodes st nodes s)
  = fold_left (fun q node => HeapSelector.add_node BestFirstSelector.CompareByBound st node q)
      nodes (BestFirstSelector.queue_ s).
Proof.
  unfold Selector.add_nodes. revert s.
  induction nodes as [|node nodes IH]; intros s; cbn [fold_left]; [reflexivity|].
  rewrite IH. reflexivity.
Qed.

Lemma depth_first_add_nodes_queue (st : store) (nodes : list (option NodePtr))
    (s : DepthFirstSelector.t) :
  DepthFirstSelector.queue_ (Selector.add_nodes st nodes s)
  = fold_left (fun q node => HeapSelector.add_node DepthFirstSelector.CompareByDepth st node q)
      nodes (DepthFirstSelector.queue_ s).
Proof.
  unfold Selector.add_nodes. revert s.
  induction nodes as [|node nodes IH]; intros s; cbn [fold_left]; [reflexivity|].
  rewrite IH. reflexivity.
Qed.

Lemma hybrid_add_node_queues (st : store) (node : option NodePtr) (s : HybridSelector.t) :
  HybridSelector.add_node st node s
  = HybridSelector.mk
      (BestFirstSelector.add_node st node (HybridSelector.best_first_ s))
      (DepthFirstSelector.add_node st node (HybridSelector.depth_first_ s))
      (HybridSelector.dive_frequency_ s) (HybridSelector.dive_depth_ s)
      (HybridSelector.nodes_since_dive_ s) (HybridSelector.current_dive_depth_ s)
      (HybridSelector.diving_ s).
Proof.
  unfold HybridSelector.add_node, BestFirstSelector.add_node, DepthFirstSelector.add_node,
    HeapSelector.add_node.
  destruct s as [[bf] [df] f d n c g]. cbn.
  destruct node as [p|]; [|reflexivity].
  destruct (BPNode.can_be_explored (st p)); reflexivity.
Qed.

Lemma hybrid_add_nodes_queues (st : store) (nodes : list (option NodePtr))
    (s : HybridSelector.t) :
  Selector.add_nodes st nodes s
  = HybridSelector.mk
      (Selector.add_nodes st nodes (HybridSelector.best_first_ s))
      (Selector.add_nodes st nodes (HybridSelector.depth_first_ s))
      (HybridSelector.dive_frequency_ s) (HybridSelector.dive_depth_ s)
      (HybridSelector.nodes_since_dive_ s) (HybridSelector.current_dive_depth_ s)
      (HybridSelector.diving_ s).
Proof.
  unfold Selector.add_nodes. revert s.
  induction nodes as [|node nodes IH]; intros s; cbn [fold_left].
  - destruct s. reflexivity.
  - rewrite IH. cbn [Selector.add_node Hybrid_NodeSelector].
    rewrite hybrid_add_node_queues. reflexivity.
Qed.

Lemma best_estimate_add_nodes_nodes (st : store) (nodes : list (option NodePtr))
    (s : BestEstimateSelector.t) :
  BestEstimateSelector.nodes_ (Selector.add_nodes st nodes s)
  = BestEstimateSelector.nodes_ s ++ explorable st (handles nodes).
Proof.
  unfold Selector.add_nodes. revert s.
  induction nodes as [|node nodes IH]; intros s; cbn [fold_left].
  - cbn. rewrite app_nil_r. reflexivity.
  - rewrite IH, handles_cons. cbn. unfold BestEstimateSelector.add_node.
    destruct node as [p|]; [|reflexivity].
    rewrite explorable_cons.
    destruct (BPNode.can_be_explored (st p)); [|reflexivity].
    cbn. rewrite <- app_assoc. reflexivity.
Qed.

(** X21.  [add_nodes] adds to a selector the pointers that are not null and
    whose node is explorable at the time of the call, each as often as it is
    listed, and nothing else.  The hybrid selector adds them to both of its
    queues and leaves its counters alone; its own [add_nodes] does what the
    one it overrides does with its [add_node]. *)
Theorem add_nodes_adds_explorable (st : store) (nodes : list (option NodePtr)) :
  (forall s : BestFirstSelector.t,
     BestFirstSelector.queue_ (Selector.add_nodes st nodes s)
     ≡ₚ BestFirstSelector.queue_ s ++ explorable st (handles nodes))
  /\ (forall s : DepthFirstSelector.t,
        DepthFirstSelector.queue_ (Selector.add_nodes st nodes s)
        ≡ₚ DepthFirstSelector.queue_ s ++ explorable st (handles nodes))
  /\ (forall s : BestEstimateSelector.t,
        BestEstimateSelector.nodes_ (Selector.add_nodes st nodes s)
        = BestEstimateSelector.nodes_ s ++ explorable st (handles nodes))
  /\ (forall s : HybridSelector.t,
        HybridSelector.add_nodes st nodes s = Selector.add_nodes st nodes s
        /\ BestFirstSelector.queue_ (HybridSelector.best_first_ (Selector.add_nodes st nodes s))
           ≡ₚ BestFirstSelector.queue_ (HybridSelector.best_first_ s)
              ++ explorable st (handles nodes)
        /\ DepthFirstSelector.queue_
             (HybridSelector.depth_first_ (Selector.add_nodes st nodes s))
           ≡ₚ DepthFirstSelector.queue_ (HybridSelector.depth_first_ s)
              ++ explorable st (handles nodes)
        /\ HybridSelector.nodes_since_dive_ (Selector.add_nodes st nodes s)
           = HybridSelector.nodes_since_dive_ s
        /\ HybridSelector.current_dive_depth_ (Selector.add_nodes st nodes s)
           = HybridSelector.current_dive_depth_ s
        /\ HybridSelector.diving_ (Selector.add_nodes st nodes s)
           = HybridSelector.diving_ s).
Proof.
  split; [|split; [|split]].
  - intros s. rewrite best_first_add_nodes_queue. apply heap_add_nodes_perm.
  - intros s. rewrite depth_first_add_nodes_queue. apply heap_add_nodes_perm.
  - intros s. apply best_estimate_add_nodes_nodes.
  - intros s. split; [reflexivity|]. rewrite hybrid_add_nodes_queues. cbn.
    split; [rewrite best_first_add_nodes_queue; apply heap_add_nodes_perm|].
    split; [rewrite depth_first_add_nodes_queue; apply heap_add_nodes_perm|].
    auto.
Qed.




(** *** [peek_next] *)

Section HeapPeek.

Variable comp : BPNode.t -> BPNode.t -> bool.
Variable st : store.




End HeapPeek.



(** Once the node on top has stopped being explorable the two differ:
    [peek_next] still returns it, [select_next] returns null. *)
Example peek_next_is_stale :
  Selector.peek_next ex_store_processing
    (Selector.add_node ex_store_pending (Some 1) BestFirstSelector.init) = Some 1
  /\ fst (Selector.select_next ex_store_processing
            (Selector.add_node ex_store_pending (Some 1) BestFirstSelector.init)) = None.
Proof. split; reflexivity. Qed.

(** A hybrid selector that is about to start a dive peeks into its
    best-first queue and selects from its depth-first queue. *)
Example hybrid_peek_next_before_dive :
  Selector.peek_next ex_store_E5 ex_hybrid_E5 = Some 1
  /\ fst (Selector.select_next ex_store_E5 ex_hybrid_E5) = Some 3.
Proof. split; vm_compute; reflexivity. Qed.

(** *** The factory and calls through the base class *)

Lemma explorable_idemp (st : store) (l : list NodePtr) :
  explorable st (explorable st l) = explorable st l.
Proof.
  apply explorable_all. intros p Hp. apply explorable_elem in Hp. tauto.
Qed.

Lemma explorable_perm (st : store) (l1 l2 : list NodePtr) :
  l1 ≡ₚ l2 -> explorable st l1 ≡ₚ explorable st l2.
Proof. intros H. unfold explorable. rewrite H. reflexivity. Qed.

(** A selector that holds exactly the explorable handles of [added], and the
    answer of its [select_next]. *)
Lemma served_from_added (st : store) (held added rest : list NodePtr)
    (r : option NodePtr) :
  held ≡ₚ explorable st added ->
  match r with
  | Some p => p :: rest ≡ₚ explorable st held
  | None => explorable st held = []
  end ->
  match r with
  | Some p => p ∈ explorable st added
  | None => explorable st added = []
  end.
Proof.
  intros Hh Hr. pose proof (explorable_perm st _ _ Hh) as He.
  rewrite explorable_idemp in He.
  destruct r as [p|].
  - rewrite <- He, <- Hr. left.
  - rewrite Hr in He. apply Permutation_nil in He. exact He.
Qed.

Lemma hybrid_select_next_best_first (st : store) (s : HybridSelector.t) :
  HybridSelector.diving_ s = false ->
  HybridSelector.nodes_since_dive_ s < HybridSelector.dive_frequency_ s ->
  fst (HybridSelector.select_next st s)
  = fst (BestFirstSelector.select_next st (HybridSelector.best_first_ s)).
Proof.
  intros Hd Hn. unfold HybridSelector.select_next. rewrite Hd. cbn.
  destruct (Z.leb_spec (HybridSelector.dive_frequency_ s)
              (HybridSelector.nodes_since_dive_ s)); [lia|].
  destruct (BestFirstSelector.select_next st (HybridSelector.best_first_ s)). reflexivity.
Qed.

Lemma create_selector_cases (name : string) :
  create_selector name = make_BestFirstSelector BestFirstSelector.init
  \/ create_selector name = make_DepthFirstSelector DepthFirstSelector.init
  \/ create_selector name = make_BestEstimateSelector (BestEstimateSelector.init 0.5%float)
  \/ create_selector name = make_HybridSelector (HybridSelector.init 5 10).
Proof.
  unfold create_selector.
  repeat match goal with
  | |- context [String.eqb name ?x] => destruct (String.eqb name x)
  end; cbn [orb]; tauto.
Qed.

Lemma virtual_select_next_fst (st : store) (s : unique_ptr_NodeSelector) :
  fst (Selector.select_next st s)
  = match s with
    | make_BestFirstSelector s => fst (BestFirstSelector.select_next st s)
    | make_DepthFirstSelector s => fst (DepthFirstSelector.select_next st s)
    | make_BestEstimateSelector s => fst (BestEstimateSelector.select_next st s)
    | make_HybridSelector s => fst (HybridSelector.select_next st s)
    end.
Proof.
  destruct s as [s | s | s | s]; cbn.
  - destruct (BestFirstSelector.select_next st s); reflexivity.
  - destruct (DepthFirstSelector.select_next st s); reflexivity.
  - destruct (BestEstimateSelector.select_next st s); reflexivity.
  - destruct (HybridSelector.select_next st s); reflexivity.
Qed.

(** X24.  [create_selector(name)] returns a new, empty selector: a
    best-first one for every name that is not one of ["depth_first"],
    ["DepthFirst"], ["best_estimate"], ["BestEstimate"], ["hybrid"] and
    ["Hybrid"], so also for a name that is misspelt.  Whatever the name,
    after [add_nodes] on the selector returned its size is the number of
    pointers added that are not null and whose node is explorable, and
    [select_next] returns one of these, or null if there is none. *)
Theorem created_selector_serves_added (name : string) (st : store)
    (nodes : list (option NodePtr)) :
  (name ∉ ["depth_first"; "DepthFirst"; "best_estimate"; "BestEstimate"; "hybrid"; "Hybrid"]
   -> create_selector name = make_BestFirstSelector BestFirstSelector.init)
  /\ Selector.empty (create_selector name) = true
  /\ Selector.size (VirtualSelector.add_nodes st nodes (create_selector name))
     = length (explorable st (handles nodes))
  /\ match fst (Selector.select_next st
                  (VirtualSelector.add_nodes st nodes (create_selector name))) with
     | Some p => p ∈ explorable st (handles nodes)
     | None => explorable st (handles nodes) = []
     end.
Proof.
  assert (Hbf : BestFirstSelector.queue_ (Selector.add_nodes st nodes BestFirstSelector.init)
                ≡ₚ explorable st (handles nodes)).
  { rewrite best_first_add_nodes_queue. apply heap_add_nodes_perm. }
  assert (Hdf : DepthFirstSelector.queue_ (Selector.add_nodes st nodes DepthFirstSelector.init)
                ≡ₚ explorable st (handles nodes)).
  { rewrite depth_first_add_nodes_queue. apply heap_add_nodes_perm. }
  assert (Hbe : BestEstimateSelector.nodes_
                  (Selector.add_nodes st nodes (BestEstimateSelector.init 0.5%float))
                = explorable st (handles nodes)).
  { rewrite best_estimate_add_nodes_nodes. reflexivity. }
  assert (Sbf : forall s : BestFirstSelector.t,
            BestFirstSelector.queue_ s ≡ₚ explorable st (handles nodes) ->
            match fst (BestFirstSelector.select_next st s) with
            | Some p => p ∈ explorable st (handles nodes)
            | None => explorable st (handles nodes) = []
            end).
  { intros s Hs.
    pose proof (best_first_select_next_spec st s) as Hsel.
    destruct (BestFirstSelector.select_next st s) as [r s'].
    specialize (Hsel s' r eq_refl). cbn [fst].
    apply (served_from_added st _ _ (BestFirstSelector.queue_ s') r Hs).
    destruct r; tauto. }
  split; [|split].
  - intros Hn. unfold create_selector.
    assert (Hne : forall x : string,
              x ∈ ["depth_first"; "DepthFirst"; "best_estimate"; "BestEstimate";
                   "hybrid"; "Hybrid"] ->
              String.eqb name x = false).
    { intros x Hx. apply String.eqb_neq. intros ->. exact (Hn Hx). }
    rewrite (Hne "depth_first"), (Hne "DepthFirst"), (Hne "best_estimate"),
      (Hne "BestEstimate"), (Hne "hybrid"), (Hne "Hybrid") by (repeat constructor).
    cbn [orb]. destruct (_ || _); reflexivity.
  - destruct (create_selector_cases name) as [-> | [-> | [-> | ->]]]; reflexivity.
  - rewrite virtual_select_next_fst.
    destruct (create_selector_cases name) as [-> | [-> | [-> | ->]]].
    + change (length (BestFirstSelector.queue_
                        (Selector.add_nodes st nodes BestFirstSelector.init))
              = length (explorable st (handles nodes))
              /\ match fst (BestFirstSelector.select_next st
                              (Selector.add_nodes st nodes BestFirstSelector.init)) with
                 | Some p => p ∈ explorable st (handles nodes)
                 | None => explorable st (handles nodes) = []
                 end).
      split; [rewrite Hbf; reflexivity | apply Sbf, Hbf].
    + change (length (DepthFirstSelector.queue_
                        (Selector.add_nodes st nodes DepthFirstSelector.init))
              = length (explorable st (handles nodes))
              /\ match fst (DepthFirstSelector.select_next st
                              (Selector.add_nodes st nodes DepthFirstSelector.init)) with
                 | Some p => p ∈ explorable st (handles nodes)
                 | None => explorable st (handles nodes) = []
                 end).
      split; [rewrite Hdf; reflexivity|].
      pose proof (depth_first_select_next_spec st
                    (Selector.add_nodes st nodes DepthFirstSelector.init)) as Hsel.
      destruct (DepthFirstSelector.select_next st _) as [r s'].
      specialize (Hsel s' r eq_refl). cbn [fst].
      apply (served_from_added st _ _ (DepthFirstSelector.queue_ s') r Hdf).
      destruct r; tauto.
    + change (length (BestEstimateSelector.nodes_
                        (Selector.add_nodes st nodes (BestEstimateSelector.init 0.5%float)))
              = length (explorable st (handles nodes))
              /\ match fst (BestEstimateSelector.select_next st
                              (Selector.add_nodes st nodes
                                 (BestEstimateSelector.init 0.5%float))) with
                 | Some p => p ∈ explorable st (handles nodes)
                 | None => explorable st (handles nodes) = []
                 end).
      split; [rewrite Hbe; reflexivity|].
      pose proof (best_estimate_select_next_aux st
                    (Selector.add_nodes st nodes (BestEstimateSelector.init 0.5%float)))
        as Hsel.
      destruct (BestEstimateSelector.select_next st _) as [r s'] eqn:E.
      destruct (Hsel s' r E) as [Hr _]. cbn [fst].
      rewrite Hbe, explorable_idemp in Hr.
      destruct r as [p|]; [|tauto].
      destruct Hr as (i & Hi & _). eapply list_elem_of_lookup_2. exact Hi.
    + change (Selector.size (Selector.add_nodes st nodes (HybridSelector.init 5 10))
              = length (explorable st (handles nodes))
              /\ match fst (HybridSelector.select_next st
                              (Selector.add_nodes st nodes (HybridSelector.init 5 10))) with
                 | Some p => p ∈ explorable st (handles nodes)
                 | None => explorable st (handles nodes) = []
                 end).
      rewrite hybrid_add_nodes_queues.
      change (length (BestFirstSelector.queue_
                        (Selector.add_nodes st nodes BestFirstSelector.init))
              = length (explorable st (handles nodes))
              /\ match fst (HybridSelector.select_next st
                              (HybridSelector.mk
                                 (Selector.add_nodes st nodes BestFirstSelector.init)
                                 (Selector.add_nodes st nodes DepthFirstSelector.init)
                                 5 10 0 0 false)) with
                 | Some p => p ∈ explorable st (handles nodes)
                 | None => explorable st (handles nodes) = []
                 end).
      split; [rewrite Hbf; reflexivity|].
      rewrite hybrid_select_next_best_first by (cbn; lia || reflexivity).
      apply Sbf, Hbf.
Qed.

(** X24 for a misspelt name: the selector is a best-first one, and of the
    four pointers added the three that are not null are held. *)
Lemma created_selector_serves_added_witness :
  create_selector "hybird" = make_BestFirstSelector BestFirstSelector.init
  /\ Selector.size
       (VirtualSelector.add_nodes ex_store_E4 [Some 1; None; Some 2; Some 3]
          (create_selector "hybird")) = 3%nat.
Proof.
  split.
  - apply (proj1 (created_selector_serves_added "hybird" ex_store_E4 [])).
    intros H.
    repeat (apply elem_of_cons in H as [H | H]; [discriminate H|]).
    apply elem_of_nil in H. exact H.
  - rewrite (proj1 (proj2 (proj2 (created_selector_serves_added "hybird" ex_store_E4
                                    [Some 1; None; Some 2; Some 3])))).
    reflexivity.
Defined.

(** ** Nodes and their names *)

(** X25.  The three status queries of a node: a node can be explored exactly
    when it is [PENDING]; it is processed exactly when it is neither
    [PENDING] nor [PROCESSING]; a pruned node is processed and a node that
    can be explored is not; the processed nodes that are not pruned are the
    [BRANCHED] and the [INTEGER] ones; a node that is [PROCESSING] is neither
    explorable nor processed. *)
Theorem status_queries (n : BPNode.t) :
  (BPNode.can_be_explored n = true <-> BPNode.status n = PENDING)
  /\ (BPNode.is_processed n = false
      <-> BPNode.status n = PENDING \/ BPNode.status n = PROCESSING)
  /\ (BPNode.is_pruned n = true
      <-> BPNode.status n = PRUNED_BOUND \/ BPNode.status n = PRUNED_INFEASIBLE
          \/ BPNode.status n = FATHOMED)
  /\ (BPNode.is_pruned n = true -> BPNode.is_processed n = true)
  /\ (BPNode.can_be_explored n = true -> BPNode.is_processed n = false)
  /\ (BPNode.is_processed n = true /\ BPNode.is_pruned n = false
      <-> BPNode.status n = BRANCHED \/ BPNode.status n = INTEGER)
  /\ (BPNode.status n = PROCESSING ->
      BPNode.can_be_explored n = false /\ BPNode.is_processed n = false).
Proof.
  unfold BPNode.can_be_explored, BPNode.is_processed, BPNode.is_pruned, BPNode.status.
  destruct (BPNode.status_ n); vm_compute; intuition congruence.
Qed.

(** X26.  [node_status_to_string] and [branch_type_to_string] give different
    enumerators different names, and never the name ["UNKNOWN"] of the
    [default] branch. *)
Theorem enumerator_names_are_distinct :
  (forall s1 s2 : NodeStatus,
     node_status_to_string s1 = node_status_to_string s2 -> s1 = s2)
  /\ (forall t1 t2 : BranchType,
        branch_type_to_string t1 = branch_type_to_string t2 -> t1 = t2)
  /\ (forall s : NodeStatus, node_status_to_string s <> "UNKNOWN")
  /\ (forall t : BranchType, branch_type_to_string t <> "UNKNOWN").
Proof.
  split; [|split; [|split]].
  - intros [] []; cbn; intros H; first [reflexivity | discriminate H].
  - intros [] []; cbn; intros H; first [reflexivity | discriminate H].
  - intros []; discriminate.
  - intros []; discriminate.
Qed.

(** *** The gap of the tree and the gap of a node *)

Lemma eq_zero_abs_small (a : double) :
  Double.eq a 0%float = true -> Double.lt (Double.abs a) 1e-10%float = true.
Proof.
  unfold Double.lt, Double.abs. rewrite DoubleFacts.eq_spec, FloatAxioms.ltb_spec,
    FloatAxioms.abs_spec.
  change (Prim2SF 0%float) with (S754_zero false).
  unfold SFeqb. sf_cases (Prim2SF a); simpl; try congruence; intros _; reflexivity.
Qed.

(** X27.  [BPTree::gap()] and [BPNode::gap()] agree on the same two bounds
    unless the upper bound is within [1e-10] of zero: the tree treats such a
    bound as zero, a node only a bound that is equal to zero. *)
Theorem tree_gap_agrees_with_node_gap (tr : BPTree.t) (n : BPNode.t) :
  BPNode.upper_bound n = BPTree.global_upper_bound tr ->
  BPNode.lower_bound n = BPTree.global_lower_bound tr ->
  Double.lt (Double.abs (BPTree.global_upper_bound tr)) 1e-10%float = false ->
  BPTree.gap tr = BPNode.gap n.
Proof.
  unfold BPTree.gap, BPNode.gap, BPNode.upper_bound, BPNode.lower_bound,
    BPTree.global_upper_bound, BPTree.global_lower_bound.
  intros -> -> Hbig. rewrite Hbig.
  destruct (Double.eq (BPTree.global_upper_bound_ tr) 0%float) eqn:E; [|reflexivity].
  rewrite (eq_zero_abs_small _ E) in Hbig. discriminate Hbig.
Qed.

(** X27 on the bounds 50 and 100 of [test_bounds]: both gaps are 0.5.  For
    the upper bound [1e-11] and the lower bound 0 the two differ: the gap of
    the tree is 0 and the gap of a node is 1. *)
Lemma tree_gap_agrees_with_node_gap_witness :
  BPTree.gap (BPTree.set_global_upper_bound 100%float
                (BPTree.set_global_lower_bound 50%float (BPTree.new true)))
  = BPNode.gap (BPNode.set_upper_bound 100%float
                  (BPNode.set_lower_bound 50%float BPNode.root))
  /\ BPTree.gap (BPTree.set_global_upper_bound 1e-11%float
                   (BPTree.set_global_lower_bound 0%float (BPTree.new true)))
     = 0%float
  /\ BPNode.gap (BPNode.set_upper_bound 1e-11%float
                   (BPNode.set_lower_bound 0%float BPNode.root))
     = 1%float.
Proof.
  split; [|split; vm_compute; reflexivity].
  apply tree_gap_agrees_with_node_gap; reflexivity.
Defined.

(** ** Paths that do not end *)

Lemma path_loop_on_cycle (nodes : gmap Z BPNode.t) (on_cycle : NodeId -> Prop) :
  (forall j : NodeId,
     on_cycle j ->
     j <> BPNode.INVALID_ID
     /\ exists n : BPNode.t, nodes !! j = Some n /\ on_cycle (BPNode.parent_id n)) ->
  forall (fuel : nat) (k : NodeId) (path : list NodeId),
    on_cycle k -> BPTree.path_loop fuel nodes k path = None.
Proof.
  intros Hcyc. induction fuel as [|fuel IH]; intros k path Hk;
    destruct (Hcyc k Hk) as (Hne & n & Hn & Hp); cbn.
  - destruct (Z.eqb_spec k BPNode.INVALID_ID); [contradiction | reflexivity].
  - destruct (Z.eqb_spec k BPNode.INVALID_ID); [contradiction|].
    rewrite Hn. apply IH, Hp.
Qed.

(** X29.  [get_path_to_root] follows the parent identifiers until it meets
    [INVALID_ID] or an identifier that is not registered, and checks nothing
    else: from a node whose chain of parents leads back into itself the loop
    never ends.  The tree builds no such chain by itself; [set_id] on a node
    that gets children later does. *)
Theorem path_to_root_loops_on_cycle (tr : BPTree.t) (on_cycle : NodeId -> Prop)
    (target_id : NodeId) :
  on_cycle target_id ->
  (forall id : NodeId,
     on_cycle id ->
     id <> BPNode.INVALID_ID
     /\ exists n : BPNode.t, BPTree.node tr id = Some n /\ on_cycle (BPNode.parent_id n)) ->
  forall fuel : nat, BPTree.get_path_to_root fuel tr target_id = None.
Proof.
  intros Hk Hcyc fuel. unfold BPTree.get_path_to_root.
  rewrite (path_loop_on_cycle (BPTree.nodes_ tr) on_cycle Hcyc fuel target_id [] Hk).
  reflexivity.
Qed.

(** X29 after [set_id(2)] on the root, a child of the root and a child of
    that child: the node 1 has the parent 2 and the node 2 has the parent
    1. *)
Lemma path_to_root_loops_on_cycle_witness :
  exists tr : BPTree.t,
    run_calls any_call (BPTree.new true)
      [T_node 0 (N_set_id 2); T_create_child 0 ex_d1; T_create_child 1 ex_d2] = Some tr
    /\ forall fuel : nat, BPTree.get_path_to_root fuel tr 2 = None.
Proof.
  eexists. split; [vm_compute; reflexivity|].
  apply (path_to_root_loops_on_cycle _ (fun id => id = 1 \/ id = 2)); [right; reflexivity|].
  intros id [-> | ->]; (split; [discriminate|]); eexists;
    (split; [vm_compute; reflexivity|]); cbn; auto.
Defined.

(** ** A selector in the loop of a driver *)

Lemma explorable_take (status : NodeStatus) (p : NodePtr) (st : store) (l : list NodePtr) :
  status <> PENDING ->
  explorable (take status p st) l = filter (fun q => q <> p) (explorable st l).
Proof.
  intros Hs. induction l as [|x l IH]; [reflexivity|].
  rewrite !explorable_cons, IH. unfold take.
  destruct (Z.eqb_spec x p) as [-> | Hx].
  - assert (E : BPNode.can_be_explored (BPNode.set_status status (st p)) = false).
    { unfold BPNode.can_be_explored. cbn. apply bool_decide_eq_false. exact Hs. }
    rewrite E. destruct (BPNode.can_be_explored (st p)); [|reflexivity].
    rewrite filter_cons, decide_False by tauto. reflexivity.
  - destruct (BPNode.can_be_explored (st x)); [|reflexivity].
    rewrite filter_cons, decide_True by exact Hx. reflexivity.
Qed.

Lemma filter_ne_notin (p : NodePtr) (l : list NodePtr) :
  p ∉ l -> filter (fun q => q <> p) l = l.
Proof.
  induction l as [|x l IH]; intros H; [reflexivity|].
  apply not_elem_of_cons in H as [Hne Hl].
  rewrite filter_cons, decide_True by congruence. rewrite IH by exact Hl. reflexivity.
Qed.

Lemma filter_ne_perm (p : NodePtr) (l : list NodePtr) :
  NoDup l -> p ∈ l -> p :: filter (fun q => q <> p) l ≡ₚ l.
Proof.
  induction 1 as [|x l Hx Hnd IH]; intros Hp; [apply elem_of_nil in Hp; contradiction|].
  rewrite filter_cons. destruct (decide (x <> p)) as [Hne | He].
  - apply elem_of_cons in Hp as [-> | Hp]; [contradiction|].
    rewrite Permutation_swap, IH by exact Hp. reflexivity.
  - assert (x = p) by (destruct (decide (x = p)); tauto). subst x.
    rewrite filter_ne_notin by exact Hx. reflexivity.
Qed.

(** What is left of the explorable handles once [p] is taken in hand, in a
    queue that gave [p] up and in one that kept it. *)
Lemma explorable_take_gave (status : NodeStatus) (p : NodePtr) (st : store)
    (q q' : list NodePtr) :
  status <> PENDING ->
  p :: q' ≡ₚ explorable st q ->
  explorable (take status p st) q' ≡ₚ filter (fun x => x <> p) (explorable st q).
Proof.
  intros Hs Hp. rewrite explorable_take by exact Hs.
  assert (Hall : explorable st q' = q').
  { apply explorable_all. intros x Hx.
    assert (Hin : x ∈ explorable st q) by (rewrite <- Hp; right; exact Hx).
    apply explorable_elem in Hin. tauto. }
  rewrite Hall, <- Hp, filter_cons, decide_False by tauto. reflexivity.
Qed.

Lemma explorable_take_kept (status : NodeStatus) (p : NodePtr) (st : store)
    (q q' : list NodePtr) :
  status <> PENDING ->
  q' ≡ₚ explorable st q ->
  explorable (take status p st) q' ≡ₚ filter (fun x => x <> p) (explorable st q).
Proof.
  intros Hs Hp. rewrite explorable_take by exact Hs.
  assert (Hall : explorable st q' = q').
  { apply explorable_all. intros x Hx.
    assert (Hin : x ∈ explorable st q) by (rewrite <- Hp; exact Hx).
    apply explorable_elem in Hin. tauto. }
  rewrite Hall, Hp. reflexivity.
Qed.

Section Drive.

Context {S : Type} `{Selector.NodeSelector S}.
Variable held : S -> list NodePtr.
Variable ok : store -> S -> Prop.
Variable status : NodeStatus.
Hypothesis status_not_pending : status <> PENDING.

(** One round of the loop, for a selector with the handles [held] that is in
    a state [ok]. *)
Hypothesis round :
  forall (st : store) (s s' : S) (r : option NodePtr),
    ok st s ->
    Selector.select_next st s = (r, s') ->
    match r with
    | Some p =>
        p ∈ explorable st (held s)
        /\ ok (take status p st) s'
        /\ explorable (take status p st) (held s')
           ≡ₚ filter (fun x => x <> p) (explorable st (held s))
    | None => explorable st (held s) = []
    end.

Lemma select_and_take_perm (fuel : nat) (st : store) (s : S) :
  ok st s ->
  NoDup (explorable st (held s)) ->
  (length (explorable st (held s)) <= fuel)%nat ->
  fst (select_and_take status fuel st s) ≡ₚ explorable st (held s).
Proof using round status_not_pending.
  revert st s. induction fuel as [|fuel IH]; intros st s Hok Hnd Hlen; cbn.
  - destruct (explorable st (held s)); [reflexivity | cbn in Hlen; lia].
  - pose proof (round st s) as Hr.
    destruct (Selector.select_next st s) as [[p|] s1].
    + destruct (Hr s1 (Some p) Hok eq_refl) as (Hp & Hok1 & Hleft).
      pose proof (filter_ne_perm p _ Hnd Hp) as Hperm.
      specialize (IH (take status p st) s1 Hok1).
      destruct (select_and_take status fuel (take status p st) s1) as [rest s2].
      cbn in *. rewrite IH.
      * rewrite Hleft. exact Hperm.
      * rewrite Hleft. apply NoDup_filter, Hnd.
      * rewrite Hleft. apply Permutation_length in Hperm. cbn in Hperm. lia.
    + rewrite (Hr s1 None Hok eq_refl). reflexivity.
Qed.

End Drive.

Section Rounds.

Variable status : NodeStatus.
Hypothesis status_not_pending : status <> PENDING.

Lemma best_first_round (st : store) (s s' : BestFirstSelector.t) (r : option NodePtr) :
  True ->
  Selector.select_next st s = (r, s') ->
  match r with
  | Some p =>
      p ∈ explorable st (BestFirstSelector.queue_ s)
      /\ True
      /\ explorable (take status p st) (BestFirstSelector.queue_ s')
         ≡ₚ filter (fun x => x <> p) (explorable st (BestFirstSelector.queue_ s))
  | None => explorable st (BestFirstSelector.queue_ s) = []
  end.
Proof using status_not_pending.
  intros _ H. pose proof (best_first_select_next_spec st s s' r H) as Hs.
  destruct r as [p|]; [|tauto]. destruct Hs as [Hp _].
  split; [rewrite <- Hp; left|]. split; [exact I|].
  apply explorable_take_gave; assumption.
Qed.

Lemma depth_first_round (st : store) (s s' : DepthFirstSelector.t) (r : option NodePtr) :
  True ->
  Selector.select_next st s = (r, s') ->
  match r with
  | Some p =>
      p ∈ explorable st (DepthFirstSelector.queue_ s)
      /\ True
      /\ explorable (take status p st) (DepthFirstSelector.queue_ s')
         ≡ₚ filter (fun x => x <> p) (explorable st (DepthFirstSelector.queue_ s))
  | None => explorable st (DepthFirstSelector.queue_ s) = []
  end.
Proof using status_not_pending.
  intros _ H. pose proof (depth_first_select_next_spec st s s' r H) as Hs.
  destruct r as [p|]; [|tauto]. destruct Hs as [Hp _].
  split; [rewrite <- Hp; left|]. split; [exact I|].
  apply explorable_take_gave; assumption.
Qed.

Lemma best_estimate_round (st : store) (s s' : BestEstimateSelector.t)
    (r : option NodePtr) :
  True ->
  Selector.select_next st s = (r, s') ->
  match r with
  | Some p =>
      p ∈ explorable st (BestEstimateSelector.nodes_ s)
      /\ True
      /\ explorable (take status p st) (BestEstimateSelector.nodes_ s')
         ≡ₚ filter (fun x => x <> p) (explorable st (BestEstimateSelector.nodes_ s))
  | None => explorable st (BestEstimateSelector.nodes_ s) = []
  end.
Proof using status_not_pending.
  intros _ H. destruct (best_estimate_select_next_aux st s s' r H) as [Hs _].
  destruct r as [p|]; [|tauto]. destruct Hs as (i & Hi & Hn & _).
  split; [eapply list_elem_of_lookup_2; exact Hi|]. split; [exact I|].
  apply explorable_take_gave; [assumption|].
  rewrite Hn. symmetry. apply delete_Permutation, Hi.
Qed.

Lemma hybrid_round (st : store) (s s' : HybridSelector.t) (r : option NodePtr) :
  explorable st (BestFirstSelector.queue_ (HybridSelector.best_first_ s))
  ≡ₚ explorable st (DepthFirstSelector.queue_ (HybridSelector.depth_first_ s)) ->
  Selector.select_next st s = (r, s') ->
  match r with
  | Some p =>
      p ∈ explorable st (BestFirstSelector.queue_ (HybridSelector.best_first_ s))
      /\ explorable (take status p st)
           (BestFirstSelector.queue_ (HybridSelector.best_first_ s'))
         ≡ₚ explorable (take status p st)
              (DepthFirstSelector.queue_ (HybridSelector.depth_first_ s'))
      /\ explorable (take status p st)
           (BestFirstSelector.queue_ (HybridSelector.best_first_ s'))
         ≡ₚ filter (fun x => x <> p)
              (explorable st (BestFirstSelector.queue_ (HybridSelector.best_first_ s)))
  | None => explorable st (BestFirstSelector.queue_ (HybridSelector.best_first_ s)) = []
  end.
Proof using status_not_pending.
  intros Hok H. pose proof (hybrid_select_next_aux st s s' r H) as Hs. cbv zeta in Hs.
  destruct ((HybridSelector.diving_ s || _) && _).
  - destruct Hs as (p & -> & Hdf & Hbf & _).
    pose proof (explorable_take_kept status p st _ _ status_not_pending Hbf) as Hb.
    pose proof (explorable_take_gave status p st _ _ status_not_pending Hdf) as Hd.
    split; [rewrite Hok, <- Hdf; left|]. split; [|exact Hb].
    rewrite Hb, Hd, Hok. reflexivity.
  - destruct Hs as (Hr & Hdf & _). destruct r as [p|]; [|tauto].
    destruct Hr as [Hbf _].
    pose proof (explorable_take_gave status p st _ _ status_not_pending Hbf) as Hb.
    pose proof (explorable_take_kept status p st _ _ status_not_pending Hdf) as Hd.
    split; [rewrite <- Hbf; left|]. split; [|exact Hb].
    rewrite Hb, Hd, Hok. reflexivity.
Qed.

End Rounds.

(** X30.  A selector in the loop of a driver that gives every node it
    receives a status other than [PENDING] before it asks for the next one:
    the driver receives every explorable handle the selector holds, each
    once, whichever of the four selectors it is, provided no explorable
    handle is held twice (and, for the hybrid selector, the two queues hold
    the same explorable handles, as they do when the selector was filled by
    [add_node] and [add_nodes]). *)
Theorem driver_receives_each_node_once (status : NodeStatus) (fuel : nat) (st : store) :
  status <> PENDING ->
  (forall s : BestFirstSelector.t,
     NoDup (explorable st (BestFirstSelector.queue_ s)) ->
     (length (explorable st (BestFirstSelector.queue_ s)) <= fuel)%nat ->
     fst (select_and_take status fuel st s) ≡ₚ explorable st (BestFirstSelector.queue_ s))
  /\ (forall s : DepthFirstSelector.t,
        NoDup (explorable st (DepthFirstSelector.queue_ s)) ->
        (length (explorable st (DepthFirstSelector.queue_ s)) <= fuel)%nat ->
        fst (select_and_take status fuel st s)
        ≡ₚ explorable st (DepthFirstSelector.queue_ s))
  /\ (forall s : BestEstimateSelector.t,
        NoDup (explorable st (BestEstimateSelector.nodes_ s)) ->
        (length (explorable st (BestEstimateSelector.nodes_ s)) <= fuel)%nat ->
        fst (select_and_take status fuel st s)
        ≡ₚ explorable st (BestEstimateSelector.nodes_ s))
  /\ (forall s : HybridSelector.t,
        explorable st (BestFirstSelector.queue_ (HybridSelector.best_first_ s))
        ≡ₚ explorable st (DepthFirstSelector.queue_ (HybridSelector.depth_first_ s)) ->
        NoDup (explorable st (BestFirstSelector.queue_ (HybridSelector.best_first_ s))) ->
        (length (explorable st (BestFirstSelector.queue_ (HybridSelector.best_first_ s)))
         <= fuel)%nat ->
        fst (select_and_take status fuel st s)
        ≡ₚ explorable st (BestFirstSelector.queue_ (HybridSelector.best_first_ s)))
  /\ (forall (nodes : list (option NodePtr)) (dive_frequency dive_depth : Z),
        explorable st
          (BestFirstSelector.queue_
             (HybridSelector.best_first_
                (Selector.add_nodes st nodes
                   (HybridSelector.init dive_frequency dive_depth))))
        ≡ₚ explorable st
             (DepthFirstSelector.queue_
                (HybridSelector.depth_first_
                   (Selector.add_nodes st nodes
                      (HybridSelector.init dive_frequency dive_depth))))).
Proof.
  intros Hs. split; [|split; [|split; [|split]]].
  - intros s Hnd Hlen.
    apply (select_and_take_perm BestFirstSelector.queue_ (fun _ _ => True) status Hs
             (best_first_round status Hs)); auto.
  - intros s Hnd Hlen.
    apply (select_and_take_perm DepthFirstSelector.queue_ (fun _ _ => True) status Hs
             (depth_first_round status Hs)); auto.
  - intros s Hnd Hlen.
    apply (select_and_take_perm BestEstimateSelector.nodes_ (fun _ _ => True) status Hs
             (best_estimate_round status Hs)); auto.
  - intros s Hok Hnd Hlen.
    apply (select_and_take_perm
             (fun s => BestFirstSelector.queue_ (HybridSelector.best_first_ s))
             (fun st s =>
                explorable st (BestFirstSelector.queue_ (HybridSelector.best_first_ s))
                ≡ₚ explorable st
                     (DepthFirstSelector.queue_ (HybridSelector.depth_first_ s)))
             status Hs (hybrid_round status Hs)); auto.
  - intros nodes f d. rewrite hybrid_add_nodes_queues. cbn.
    apply explorable_perm.
    rewrite best_first_add_nodes_queue, depth_first_add_nodes_queue.
    rewrite !heap_add_nodes_perm. reflexivity.
Qed.

(** X30 on the hybrid selector that returns the nodes of scenario E5 twice
    when they are left alone: the driver that takes each node in hand
    receives them once. *)
Lemma driver_receives_each_node_once_witness :
  fst (select_and_take PROCESSING 4 ex_store_E5 ex_hybrid_E5) = [3; 2; 1]
  /\ fst (select_and_take PROCESSING 4 ex_store_E5 ex_hybrid_E5)
     ≡ₚ explorable ex_store_E5
          (BestFirstSelector.queue_ (HybridSelector.best_first_ ex_hybrid_E5)).
Proof.
  split; [vm_compute; reflexivity|].
  apply (driver_receives_each_node_once PROCESSING 4 ex_store_E5 ltac:(discriminate)).
  - apply (driver_receives_each_node_once PROCESSING 4 ex_store_E5 ltac:(discriminate)).
  - apply (bool_decide_unpack _). vm_compute. exact I.
  - vm_compute. lia.
Defined.

